(** * jsoncons: the incremental JSON parser of [json_parser.hpp]

    A shallow embedding of [jsoncons::basic_json_parser] and of the two
    integer conversions in front of it, followed by the properties of the
    parser that the specification states.

    Conventions of the embedding.
    - A character element ([CharT]) is its code unit, a [Z].
    - The input span is kept as two lists: [begin_input_] is the span that
      [set_source] installed, [p_] is the part of it from the cursor to
      [end_input_]; [p_ = []] is [p_ == end_input_].
    - [state_stack_] is a list whose head is [state_stack_.back()].
    - The event sink and the error policy are interfaces of the caller. The
      sink is represented by the list of calls it received ([handler_]), the
      policy by a function of the error kind and of the line and column of
      the parsing context, together with the list of calls it received
      ([err_handler_]).
    - The caller's [std::error_code& ec] is the field [ec]; every entry
      point is modelled as called with a cleared slot, as the wrappers
      without argument do.
    - [JSONCONS_ASSERT] throws: a failed assertion is the outcome
      [Assertion_failed].  The main loop need not terminate, so it takes
      fuel, and running out of it is the outcome [Out_of_fuel]. *)

From Stdlib Require String Ascii.
From Stdlib Require Import ZArith List Bool Lia.
Import ListNotations.
Import String.StringSyntax.
Local Open Scope Z_scope.

(** ** Character constants *)

Abbreviation ch_tab := 9 (only parsing).
Abbreviation ch_lf := 10 (only parsing).
Abbreviation ch_cr := 13 (only parsing).
Abbreviation ch_space := 32 (only parsing).
Abbreviation ch_dquote := 34 (only parsing).
Abbreviation ch_quote := 39 (only parsing).
Abbreviation ch_star := 42 (only parsing).
Abbreviation ch_plus := 43 (only parsing).
Abbreviation ch_comma := 44 (only parsing).
Abbreviation ch_minus := 45 (only parsing).
Abbreviation ch_dot := 46 (only parsing).
Abbreviation ch_slash := 47 (only parsing).
Abbreviation ch_0 := 48 (only parsing).
Abbreviation ch_9 := 57 (only parsing).
Abbreviation ch_colon := 58 (only parsing).
Abbreviation ch_A := 65 (only parsing).
Abbreviation ch_E := 69 (only parsing).
Abbreviation ch_F := 70 (only parsing).
Abbreviation ch_lbracket := 91 (only parsing).
Abbreviation ch_backslash := 92 (only parsing).
Abbreviation ch_rbracket := 93 (only parsing).
Abbreviation ch_a := 97 (only parsing).
Abbreviation ch_b := 98 (only parsing).
Abbreviation ch_e := 101 (only parsing).
Abbreviation ch_f := 102 (only parsing).
Abbreviation ch_l := 108 (only parsing).
Abbreviation ch_n := 110 (only parsing).
Abbreviation ch_r := 114 (only parsing).
Abbreviation ch_s := 115 (only parsing).
Abbreviation ch_t := 116 (only parsing).
Abbreviation ch_u := 117 (only parsing).
Abbreviation ch_lbrace := 123 (only parsing).
Abbreviation ch_rbrace := 125 (only parsing).

(** [JSONCONS_ILLEGAL_CONTROL_CHARACTER]: the case labels 0x00..0x08, 0x0b,
    0x0c and 0x0e..0x1f. *)
Definition JSONCONS_ILLEGAL_CONTROL_CHARACTER (c : Z) : bool :=
  ((0 <=? c) && (c <=? 8)) || (c =? 11) || (c =? 12) || ((14 <=? c) && (c <=? 31)).

(** ['0'] .. ['9'] *)
Definition is_digit (c : Z) : bool := (ch_0 <=? c) && (c <=? ch_9).

(** ['1'] .. ['9'] *)
Definition is_digit19 (c : Z) : bool := (49 <=? c) && (c <=? ch_9).

(** The labels ['0'..'9'], ['a'..'f'], ['A'..'F'] of [append_codepoint]. *)
Definition is_hex_digit (c : Z) : bool :=
  is_digit c || ((ch_a <=? c) && (c <=? ch_f)) || ((ch_A <=? c) && (c <=? ch_F)).

(** ** Machine integers *)

Definition uint64_max : Z := 18446744073709551615.
Definition int64_min : Z := -9223372036854775808.
Definition int64_max : Z := 9223372036854775807.
Definition int_max : Z := 2147483647.

Definition wrap_uint64 (x : Z) : Z := x mod 2 ^ 64.
Definition wrap_uint32 (x : Z) : Z := x mod 2 ^ 32.
Definition wrap_uint8 (x : Z) : Z := x mod 2 ^ 8.
(** [size_t] is taken as 64 bits wide. *)
Definition wrap_size_t (x : Z) : Z := x mod 2 ^ 64.

(** ** try_string_to_uinteger, try_string_to_integer *)

(** The loop of [try_string_to_uinteger], entered with the running value
    [n]; [None] is [return false]. *)
Fixpoint try_string_to_uinteger_loop (s : list Z) (n : Z) : option Z :=
  match s with
  | [] => Some n
  | c :: s' =>
      let x := wrap_uint64 (c - ch_0) in
      if n >? uint64_max / 10 then None
      else
        let n := n * 10 in
        if n >? uint64_max - x then None
        else try_string_to_uinteger_loop s' (n + x)
  end.

Definition try_string_to_uinteger (s : list Z) : option Z :=
  try_string_to_uinteger_loop s 0.

(** The loop of the [has_neg] branch: the value is accumulated downwards.
    [Z.quot] is the division of C++, which truncates. *)
Fixpoint try_string_to_integer_neg_loop (s : list Z) (n : Z) : option Z :=
  match s with
  | [] => Some n
  | c :: s' =>
      let x := c - ch_0 in
      if n <? Z.quot int64_min 10 then None
      else
        let n := n * 10 in
        if n <? int64_min + x then None
        else try_string_to_integer_neg_loop s' (n - x)
  end.

Fixpoint try_string_to_integer_pos_loop (s : list Z) (n : Z) : option Z :=
  match s with
  | [] => Some n
  | c :: s' =>
      let x := c - ch_0 in
      if n >? Z.quot int64_max 10 then None
      else
        let n := n * 10 in
        if n >? int64_max - x then None
        else try_string_to_integer_pos_loop s' (n + x)
  end.

Definition try_string_to_integer (has_neg : bool) (s : list Z) : option Z :=
  if has_neg then try_string_to_integer_neg_loop s 0
  else try_string_to_integer_pos_loop s 0.

(** ** parse_state *)

Module parse_state.
Inductive enum : Set :=
| root | start | slash | slash_slash | slash_star | slash_star_star
| expect_comma_or_end | object | expect_member_name_or_end
| expect_member_name | expect_colon | expect_value_or_end | expect_value
| array | string_u1 | member_name | escape
| escape_u1 | escape_u2 | escape_u3 | escape_u4
| escape_expect_surrogate_pair1 | escape_expect_surrogate_pair2
| escape_u6 | escape_u7 | escape_u8 | escape_u9
| minus | zero | integer | fraction1 | fraction2 | exp1 | exp2 | exp3
| n | nu | nul | t | tr | tru | f | fa | fal | fals
| cr | lf | done.

(** [==] on [parse_state] *)
Scheme Equality for enum.
Definition eqb : enum -> enum -> bool := enum_beq.
End parse_state.

(** ** json_parser_errc

    The enumeration is declared in [json_error_category.hpp]; only the tags
    are used here. *)

Module json_parser_errc.
Inductive enum : Set :=
| unexpected_eof | invalid_json_text | extra_character | max_depth_exceeded
| single_quote | illegal_character_in_string | extra_comma | expected_name
| expected_value | invalid_value | expected_colon | illegal_control_character
| illegal_escaped_character | expected_codepoint_surrogate_pair
| invalid_hex_escape_sequence | illegal_comment
| expected_comma_or_right_brace | expected_comma_or_right_bracket
| unexpected_right_brace | unexpected_right_bracket
| invalid_number | leading_zero
| over_long_utf8_sequence | unpaired_high_surrogate
| expected_continuation_byte | illegal_surrogate_value | illegal_codepoint.
End json_parser_errc.

(** ** The collaborators *)

Module unicons.
(** Modelled from the spec: the error enumeration of the Unicode
    collaborator, which is not part of this file. [ok] is the value of
    [unicons::conv_errc()]; [other] stands for every tag that
    [translate_conv_errc] sends to its [default] label. *)
Inductive conv_errc : Set :=
| ok | over_long_utf8_sequence | unpaired_high_surrogate
| expected_continuation_byte | illegal_surrogate_value | other.

(** Modelled from the spec: [unicons::is_high_surrogate], the test that a
    code point lies in 0xD800..0xDBFF. *)
Definition is_high_surrogate (cp : Z) : bool := (55296 <=? cp) && (cp <=? 56319).
End unicons.

(** What the parser requires of the code around it.
    - [double] and [str_to_double]: the conversion [string_to_double], from
      the digits of the buffer and a precision to a [double]; [None] is a
      thrown exception. [neg_double] is unary minus on [double].
    - [validate]: [unicons::validate] on a span, giving the error and the
      distance [result.it - sb].
    - [convert]: the code units that [unicons::convert] appends for one
      code point.
    - [policy]: the answer of [parse_error_handler::error], [true] meaning
      abort, as a function of the error kind and of [line_number()] and
      [column_number()] of the context it is passed. *)
Class Collaborators : Type := {
  double : Type;
  str_to_double : list Z -> Z -> option double;
  neg_double : double -> double;
  validate : list Z -> unicons.conv_errc * Z;
  convert : Z -> list Z;
  policy : json_parser_errc.enum -> Z -> Z -> bool
}.

(** The code units of a text written as a string literal. *)
Definition codes (text : String.string) : list Z :=
  map (fun a => Z.of_nat (Ascii.nat_of_ascii a))
    (String.list_ascii_of_string text).

Arguments codes text%_string_scope.

(** A set of collaborators to run the parser with on texts of the ASCII
    range: a [double] is kept as the digits it was converted from and a
    sign, every span is valid, and a code point is appended as one
    element. The policy is a parameter. *)
Definition collaborators_with
  (answer : json_parser_errc.enum -> Z -> Z -> bool) : Collaborators :=
  {| double := bool * list Z;
     str_to_double := fun digits _ => Some (false, digits);
     neg_double := fun d => (negb (fst d), snd d);
     validate := fun span => (unicons.ok, Z.of_nat (length span));
     convert := fun cp => [cp];
     policy := answer |}.

(** The policy that aborts on every error, and the one that continues. *)
Definition abort_on_error : Collaborators :=
  collaborators_with (fun _ _ _ => true).
Definition continue_on_error : Collaborators :=
  collaborators_with (fun _ _ _ => false).

Section Machine.

Context {collaborators : Collaborators}.

(** ** Events and error reports *)

(** The calls of [basic_json_input_handler]. *)
Inductive event : Type :=
| begin_json
| end_json
| begin_object
| end_object
| begin_array
| end_array
| name (s : list Z)
| string_value (s : list Z)
| integer_value (value : Z)
| uinteger_value (value : Z)
| double_value (value : double) (precision : Z)
| bool_value (value : bool)
| null_value.

(** A call of the error policy: [fatal] tells [fatal_error] from [error];
    the position is the one the context reported. *)
Record report : Type := mk_report {
  fatal : bool;
  kind : json_parser_errc.enum;
  line_number : Z;
  column_number : Z
}.

(** ** basic_json_parser *)

Record basic_json_parser : Type := mk_parser {
  handler_ : list event;
  err_handler_ : list report;
  cp_ : Z;
  cp2_ : Z;
  string_buffer_ : list Z;
  is_negative_ : bool;
  line_ : Z;
  column_ : Z;
  nesting_depth_ : Z;
  max_depth_ : Z;
  precision_ : Z;
  begin_input_ : list Z;
  p_ : list Z;
  state_ : parse_state.enum;
  state_stack_ : list parse_state.enum;
  ec : option json_parser_errc.enum
}.

Definition set_handler_ (v : list event) (s : basic_json_parser) :=
  mk_parser v (err_handler_ s) (cp_ s) (cp2_ s) (string_buffer_ s)
    (is_negative_ s) (line_ s) (column_ s) (nesting_depth_ s) (max_depth_ s)
    (precision_ s) (begin_input_ s) (p_ s) (state_ s) (state_stack_ s) (ec s).
Definition set_err_handler_ (v : list report) (s : basic_json_parser) :=
  mk_parser (handler_ s) v (cp_ s) (cp2_ s) (string_buffer_ s)
    (is_negative_ s) (line_ s) (column_ s) (nesting_depth_ s) (max_depth_ s)
    (precision_ s) (begin_input_ s) (p_ s) (state_ s) (state_stack_ s) (ec s).
Definition set_cp_ (v : Z) (s : basic_json_parser) :=
  mk_parser (handler_ s) (err_handler_ s) v (cp2_ s) (string_buffer_ s)
    (is_negative_ s) (line_ s) (column_ s) (nesting_depth_ s) (max_depth_ s)
    (precision_ s) (begin_input_ s) (p_ s) (state_ s) (state_stack_ s) (ec s).
Definition set_cp2_ (v : Z) (s : basic_json_parser) :=
  mk_parser (handler_ s) (err_handler_ s) (cp_ s) v (string_buffer_ s)
    (is_negative_ s) (line_ s) (column_ s) (nesting_depth_ s) (max_depth_ s)
    (precision_ s) (begin_input_ s) (p_ s) (state_ s) (state_stack_ s) (ec s).
Definition set_string_buffer_ (v : list Z) (s : basic_json_parser) :=
  mk_parser (handler_ s) (err_handler_ s) (cp_ s) (cp2_ s) v
    (is_negative_ s) (line_ s) (column_ s) (nesting_depth_ s) (max_depth_ s)
    (precision_ s) (begin_input_ s) (p_ s) (state_ s) (state_stack_ s) (ec s).
Definition set_is_negative_ (v : bool) (s : basic_json_parser) :=
  mk_parser (handler_ s) (err_handler_ s) (cp_ s) (cp2_ s) (string_buffer_ s)
    v (line_ s) (column_ s) (nesting_depth_ s) (max_depth_ s)
    (precision_ s) (begin_input_ s) (p_ s) (state_ s) (state_stack_ s) (ec s).
Definition set_line_ (v : Z) (s : basic_json_parser) :=
  mk_parser (handler_ s) (err_handler_ s) (cp_ s) (cp2_ s) (string_buffer_ s)
    (is_negative_ s) v (column_ s) (nesting_depth_ s) (max_depth_ s)
    (precision_ s) (begin_input_ s) (p_ s) (state_ s) (state_stack_ s) (ec s).
Definition set_column_ (v : Z) (s : basic_json_parser) :=
  mk_parser (handler_ s) (err_handler_ s) (cp_ s) (cp2_ s) (string_buffer_ s)
    (is_negative_ s) (line_ s) v (nesting_depth_ s) (max_depth_ s)
    (precision_ s) (begin_input_ s) (p_ s) (state_ s) (state_stack_ s) (ec s).
Definition set_nesting_depth_ (v : Z) (s : basic_json_parser) :=
  mk_parser (handler_ s) (err_handler_ s) (cp_ s) (cp2_ s) (string_buffer_ s)
    (is_negative_ s) (line_ s) (column_ s) v (max_depth_ s)
    (precision_ s) (begin_input_ s) (p_ s) (state_ s) (state_stack_ s) (ec s).
Definition set_max_depth_ (v : Z) (s : basic_json_parser) :=
  mk_parser (handler_ s) (err_handler_ s) (cp_ s) (cp2_ s) (string_buffer_ s)
    (is_negative_ s) (line_ s) (column_ s) (nesting_depth_ s) v
    (precision_ s) (begin_input_ s) (p_ s) (state_ s) (state_stack_ s) (ec s).
Definition set_precision_ (v : Z) (s : basic_json_parser) :=
  mk_parser (handler_ s) (err_handler_ s) (cp_ s) (cp2_ s) (string_buffer_ s)
    (is_negative_ s) (line_ s) (column_ s) (nesting_depth_ s) (max_depth_ s)
    v (begin_input_ s) (p_ s) (state_ s) (state_stack_ s) (ec s).
Definition set_begin_input_ (v : list Z) (s : basic_json_parser) :=
  mk_parser (handler_ s) (err_handler_ s) (cp_ s) (cp2_ s) (string_buffer_ s)
    (is_negative_ s) (line_ s) (column_ s) (nesting_depth_ s) (max_depth_ s)
    (precision_ s) v (p_ s) (state_ s) (state_stack_ s) (ec s).
Definition set_p_ (v : list Z) (s : basic_json_parser) :=
  mk_parser (handler_ s) (err_handler_ s) (cp_ s) (cp2_ s) (string_buffer_ s)
    (is_negative_ s) (line_ s) (column_ s) (nesting_depth_ s) (max_depth_ s)
    (precision_ s) (begin_input_ s) v (state_ s) (state_stack_ s) (ec s).
Definition set_state_ (v : parse_state.enum) (s : basic_json_parser) :=
  mk_parser (handler_ s) (err_handler_ s) (cp_ s) (cp2_ s) (string_buffer_ s)
    (is_negative_ s) (line_ s) (column_ s) (nesting_depth_ s) (max_depth_ s)
    (precision_ s) (begin_input_ s) (p_ s) v (state_stack_ s) (ec s).
Definition set_state_stack_ (v : list parse_state.enum) (s : basic_json_parser) :=
  mk_parser (handler_ s) (err_handler_ s) (cp_ s) (cp2_ s) (string_buffer_ s)
    (is_negative_ s) (line_ s) (column_ s) (nesting_depth_ s) (max_depth_ s)
    (precision_ s) (begin_input_ s) (p_ s) (state_ s) v (ec s).
Definition set_ec (v : option json_parser_errc.enum) (s : basic_json_parser) :=
  mk_parser (handler_ s) (err_handler_ s) (cp_ s) (cp2_ s) (string_buffer_ s)
    (is_negative_ s) (line_ s) (column_ s) (nesting_depth_ s) (max_depth_ s)
    (precision_ s) (begin_input_ s) (p_ s) (state_ s) (state_stack_ s) v.


(** ** The monad of the member functions

    A member function reads and writes the parser and may throw. *)

Inductive result (A : Type) : Type :=
| Returned (a : A) (s : basic_json_parser)
| Assertion_failed
| Out_of_fuel.


Arguments Returned {A} a s.
Arguments Assertion_failed {A}.
Arguments Out_of_fuel {A}.

Definition M (A : Type) : Type := basic_json_parser -> result A.

Definition ret {A : Type} (a : A) : M A := fun s => Returned a s.

Definition bind {A B : Type} (m : M A) (k : A -> M B) : M B :=
  fun s =>
    match m s with
    | Returned a s' => k a s'
    | Assertion_failed => Assertion_failed
    | Out_of_fuel => Out_of_fuel
    end.

Definition JSONCONS_ASSERT_false {A : Type} : M A := fun _ => Assertion_failed.

Definition gets {A : Type} (proj : basic_json_parser -> A) : M A :=
  fun s => Returned (proj s) s.

Definition modify (upd : basic_json_parser -> basic_json_parser) : M unit :=
  fun s => Returned tt (upd s).

End Machine.

Arguments Returned {collaborators A} a s.
Arguments Assertion_failed {collaborators A}.
Arguments Out_of_fuel {collaborators A}.

Notation "x <- m ;; k" := (bind m (fun x => k))
  (at level 61, m at next level, right associativity).
Notation "m ;; k" := (bind m (fun _ => k))
  (at level 61, right associativity).

Section Parser.

Context {collaborators : Collaborators}.

(** [if (ec) return;] in front of the rest of a function body. *)
Definition unless_ec (rest : M unit) : M unit :=
  fun s => match ec s with Some _ => Returned tt s | None => rest s end.

(** *** Statements *)

(** [ec = kind;] *)
Definition assign_ec (k : json_parser_errc.enum) : M unit :=
  modify (set_ec (Some k)).

(** [err_handler_.error(kind, *this)] *)
Definition err_handler_error (k : json_parser_errc.enum) : M bool :=
  fun s =>
    Returned (policy k (line_ s) (column_ s))
      (set_err_handler_
         (err_handler_ s ++ [mk_report false k (line_ s) (column_ s)]) s).

(** [err_handler_.fatal_error(kind, *this)] *)
Definition err_handler_fatal_error (k : json_parser_errc.enum) : M unit :=
  modify (fun s =>
    set_err_handler_
      (err_handler_ s ++ [mk_report true k (line_ s) (column_ s)]) s).

(** A call of the event sink. *)
Definition handler (e : event) : M unit :=
  modify (fun s => set_handler_ (handler_ s ++ [e]) s).

(** [state_ = st;] *)
Definition assign_state (st : parse_state.enum) : M unit :=
  modify (set_state_ st).

(** [++p_;] when [p_] points in front of [rest]. *)
Definition advance_p (rest : list Z) : M unit := modify (set_p_ rest).

(** [++column_;] *)
Definition incr_column : M unit :=
  modify (fun s => set_column_ (wrap_size_t (column_ s + 1)) s).

(** [column_ += d;] *)
Definition add_column (d : Z) : M unit :=
  modify (fun s => set_column_ (wrap_size_t (column_ s + d)) s).

(** [++line_;] *)
Definition incr_line : M unit :=
  modify (fun s => set_line_ (wrap_size_t (line_ s + 1)) s).

(** [string_buffer_.push_back(c);] *)
Definition string_buffer_push_back (c : Z) : M unit :=
  modify (fun s => set_string_buffer_ (string_buffer_ s ++ [c]) s).

(** [string_buffer_.append(sb, len);] with the [len] elements as a list *)
Definition string_buffer_append (l : list Z) : M unit :=
  modify (fun s => set_string_buffer_ (string_buffer_ s ++ l) s).

(** [string_buffer_.clear();] *)
Definition string_buffer_clear : M unit := modify (set_string_buffer_ []).

(** [precision_ = static_cast<uint8_t>(string_buffer_.length());] *)
Definition precision_from_buffer : M unit :=
  modify (fun s =>
    set_precision_ (wrap_uint8 (Z.of_nat (length (string_buffer_ s)))) s).

(** [++precision_;] *)
Definition incr_precision : M unit :=
  modify (fun s => set_precision_ (wrap_uint8 (precision_ s + 1)) s).

(** [if (err_handler_.error(kind, *this)) { ec = kind; return; }] in front
    of [rest]. *)
Definition error_or_return (k : json_parser_errc.enum) (rest : M unit)
  : M unit :=
  abort <- err_handler_error k ;;
  if abort then assign_ec k else rest.

(** [if (err_handler_.error(kind, *this))
     { ec = kind; state_ = st; return; }] in front of [rest]. *)
Definition error_or_return_at (k : json_parser_errc.enum)
  (st : parse_state.enum) (rest : M unit) : M unit :=
  abort <- err_handler_error k ;;
  if abort then assign_ec k ;; assign_state st else rest.

(** [err_handler_.fatal_error(kind, *this); ec = kind; return;] *)
Definition fatal_and_return (k : json_parser_errc.enum) : M unit :=
  err_handler_fatal_error k ;; assign_ec k.

(** [err_handler_.error(kind, *this); ec = kind; return;] *)
Definition error_and_return (k : json_parser_errc.enum) : M unit :=
  err_handler_error k ;; assign_ec k.

(** [++p_; ++column_;] *)
Definition consume (rest : list Z) : M unit := advance_p rest ;; incr_column.

(** *** push_state, pop_state, parent *)

Definition push_state (st : parse_state.enum) : M unit :=
  modify (fun s => set_state_stack_ (st :: state_stack_ s) s).

Definition pop_state : M parse_state.enum :=
  fun s =>
    match state_stack_ s with
    | [] => Assertion_failed
    | st :: stack => Returned st (set_state_stack_ stack s)
    end.

Definition parent : M parse_state.enum :=
  fun s =>
    match state_stack_ s with
    | [] => Assertion_failed
    | st :: _ => Returned st s
    end.

(** [push_state(state_);] *)
Definition push_current_state : M unit :=
  st <- gets state_ ;; push_state st.

(** [state_ = pop_state();] *)
Definition assign_state_pop : M unit :=
  st <- pop_state ;; assign_state st.

(** *** The constructor and the small accessors *)

Definition new_parser : basic_json_parser :=
  {| handler_ := []; err_handler_ := [];
     cp_ := 0; cp2_ := 0; string_buffer_ := []; is_negative_ := false;
     line_ := 1; column_ := 1; nesting_depth_ := 0; max_depth_ := int_max;
     precision_ := 0; begin_input_ := []; p_ := [];
     state_ := parse_state.start; state_stack_ := [parse_state.root];
     ec := None |}.

Definition source_exhausted (s : basic_json_parser) : bool :=
  match p_ s with [] => true | _ => false end.

Definition done (s : basic_json_parser) : bool :=
  match state_ s with parse_state.done => true | _ => false end.

(** [max_nesting_depth(size_t)] *)
Definition max_nesting_depth (n : Z) : M unit :=
  modify (set_max_depth_ (Z.min n int_max)).

(** [set_source(input, length)] *)
Definition set_source (input : list Z) : M unit :=
  modify (fun s => set_p_ input (set_begin_input_ input s)).

(** *** skip_whitespace *)

Fixpoint skip_whitespace_from (input : list Z) : M unit :=
  match input with
  | [] => ret tt
  | c :: rest =>
      if (c =? ch_space) || (c =? ch_tab)
      then advance_p rest ;; incr_column ;; skip_whitespace_from rest
      else ret tt
  end.

Definition skip_whitespace : M unit :=
  input <- gets p_ ;; skip_whitespace_from input.

(** *** do_begin_object, do_end_object, do_begin_array, do_end_array

    [nesting_depth_] is an [int]; it is incremented without wrap-around,
    an overflow being undefined in the source. *)

Definition incr_nesting_depth : M Z :=
  modify (fun s => set_nesting_depth_ (nesting_depth_ s + 1) s) ;;
  gets nesting_depth_.

Definition decr_nesting_depth : M unit :=
  modify (fun s => set_nesting_depth_ (nesting_depth_ s - 1) s).

(** [if (parent() == parse_state::root) { state_ = done; end_json(); }
     else state_ = expect_comma_or_end;] *)
Definition done_or_expect_comma_or_end : M unit :=
  pa <- parent ;;
  match pa with
  | parse_state.root => assign_state parse_state.done ;; handler end_json
  | _ => assign_state parse_state.expect_comma_or_end
  end.

(** The same with the two statements of the first branch exchanged, as
    [parse_true], [parse_null] and [parse_false] have them. *)
Definition end_json_or_expect_comma_or_end : M unit :=
  pa <- parent ;;
  match pa with
  | parse_state.root => handler end_json ;; assign_state parse_state.done
  | _ => assign_state parse_state.expect_comma_or_end
  end.

Definition do_begin_object : M unit :=
  depth <- incr_nesting_depth ;;
  max_depth <- gets max_depth_ ;;
  let rest :=
    push_state parse_state.object ;;
    assign_state parse_state.expect_member_name_or_end ;;
    handler begin_object in
  if depth >=? max_depth
  then error_or_return json_parser_errc.max_depth_exceeded rest
  else rest.

Definition do_end_object : M unit :=
  decr_nesting_depth ;;
  assign_state_pop ;;
  st <- gets state_ ;;
  match st with
  | parse_state.object =>
      handler end_object ;;
      done_or_expect_comma_or_end
  | parse_state.array =>
      fatal_and_return json_parser_errc.expected_comma_or_right_bracket
  | _ =>
      fatal_and_return json_parser_errc.unexpected_right_brace
  end.

Definition do_begin_array : M unit :=
  depth <- incr_nesting_depth ;;
  max_depth <- gets max_depth_ ;;
  let rest :=
    push_state parse_state.array ;;
    assign_state parse_state.expect_value_or_end ;;
    handler begin_array in
  if depth >=? max_depth
  then error_or_return json_parser_errc.max_depth_exceeded rest
  else rest.

Definition do_end_array : M unit :=
  decr_nesting_depth ;;
  assign_state_pop ;;
  st <- gets state_ ;;
  match st with
  | parse_state.array =>
      handler end_array ;;
      done_or_expect_comma_or_end
  | parse_state.object =>
      fatal_and_return json_parser_errc.expected_comma_or_right_brace
  | _ =>
      fatal_and_return json_parser_errc.unexpected_right_bracket
  end.

(** *** reset *)

Definition reset : M unit :=
  modify (set_state_stack_ []) ;;
  push_state parse_state.root ;;
  assign_state parse_state.start ;;
  modify (set_line_ 1) ;;
  modify (set_column_ 1) ;;
  modify (set_nesting_depth_ 0).


(** *** end_fraction_value, end_integer_value *)

(** The [switch (parent())] of both functions, followed by [rest] where
    the switch is left by [break]. *)
Definition switch_parent_after_number (rest : M unit) : M unit :=
  pa <- parent ;;
  match pa with
  | parse_state.array | parse_state.object =>
      assign_state parse_state.expect_comma_or_end ;; rest
  | parse_state.root =>
      assign_state parse_state.done ;; handler end_json ;; rest
  | _ =>
      error_or_return json_parser_errc.invalid_json_text rest
  end.

(** [string_buffer_.clear(); is_negative_ = false;] *)
Definition clear_number : M unit :=
  string_buffer_clear ;; modify (set_is_negative_ false).

Definition end_fraction_value : M unit :=
  buffer <- gets string_buffer_ ;;
  precision <- gets precision_ ;;
  negative <- gets is_negative_ ;;
  let rest := clear_number ;; switch_parent_after_number (ret tt) in
  match str_to_double buffer precision with
  | Some d =>
      handler (double_value (if negative then neg_double d else d) precision) ;;
      rest
  | None =>
      error_or_return json_parser_errc.invalid_number
        (handler null_value ;; rest)
  end.

(** The [try]/[catch] that both branches of [end_integer_value] fall back
    to, followed by [rest]; [negate] tells the call [double_value(-d2, ...)]
    from [double_value(d2, ...)]. *)
Definition integer_as_double (negate : bool) (rest : M unit) : M unit :=
  buffer <- gets string_buffer_ ;;
  let len := Z.of_nat (length buffer) in
  match str_to_double buffer len with
  | Some d2 =>
      handler (double_value (if negate then neg_double d2 else d2)
                 (wrap_uint8 len)) ;;
      rest
  | None =>
      error_or_return json_parser_errc.invalid_number
        (handler null_value ;; rest)
  end.

Definition end_integer_value : M unit :=
  negative <- gets is_negative_ ;;
  buffer <- gets string_buffer_ ;;
  let rest := switch_parent_after_number clear_number in
  if negative then
    match try_string_to_integer negative buffer with
    | Some d => handler (integer_value d) ;; rest
    | None => integer_as_double true rest
    end
  else
    match try_string_to_uinteger buffer with
    | Some d => handler (uinteger_value d) ;; rest
    | None => integer_as_double false rest
    end.

(** *** end_string_value, begin_member_or_element *)

Definition end_string_value (text : list Z) : M unit :=
  pa <- parent ;;
  match pa with
  | parse_state.member_name =>
      handler (name text) ;;
      assign_state_pop ;;
      assign_state parse_state.expect_colon
  | parse_state.object | parse_state.array =>
      handler (string_value text) ;;
      assign_state parse_state.expect_comma_or_end
  | parse_state.root =>
      handler (string_value text) ;;
      assign_state parse_state.done ;;
      handler end_json
  | _ =>
      error_or_return json_parser_errc.invalid_json_text (ret tt)
  end.

Definition begin_member_or_element : M unit :=
  pa <- parent ;;
  match pa with
  | parse_state.object => assign_state parse_state.expect_member_name
  | parse_state.array => assign_state parse_state.expect_value
  | parse_state.root => ret tt
  | _ =>
      error_or_return json_parser_errc.invalid_json_text (ret tt)
  end.

(** *** append_to_codepoint, append_codepoint, append_second_codepoint *)

Definition append_to_codepoint (cp c : Z) : M Z :=
  let cp := wrap_uint32 (cp * 16) in
  if (c >=? ch_0) && (c <=? ch_9) then ret (wrap_uint32 (cp + (c - ch_0)))
  else if (c >=? ch_a) && (c <=? ch_f) then ret (wrap_uint32 (cp + (c - ch_a + 10)))
  else if (c >=? ch_A) && (c <=? ch_F) then ret (wrap_uint32 (cp + (c - ch_A + 10)))
  else
    error_or_return json_parser_errc.invalid_hex_escape_sequence (ret tt) ;;
    ret cp.

Definition append_codepoint (c : Z) : M unit :=
  if is_hex_digit c then
    cp <- gets cp_ ;;
    cp' <- append_to_codepoint cp c ;;
    modify (set_cp_ cp')
  else
    error_or_return json_parser_errc.expected_value (ret tt).

Definition append_second_codepoint (c : Z) : M unit :=
  if is_hex_digit c then
    cp <- gets cp2_ ;;
    cp' <- append_to_codepoint cp c ;;
    modify (set_cp2_ cp')
  else
    error_or_return json_parser_errc.expected_value (ret tt).

(** *** translate_conv_errc *)

Definition translate_conv_errc (result : unicons.conv_errc) : M unit :=
  let report k := error_or_return k (ret tt) in
  match result with
  | unicons.ok => ret tt
  | unicons.over_long_utf8_sequence =>
      report json_parser_errc.over_long_utf8_sequence
  | unicons.unpaired_high_surrogate =>
      report json_parser_errc.unpaired_high_surrogate
  | unicons.expected_continuation_byte =>
      report json_parser_errc.expected_continuation_byte
  | unicons.illegal_surrogate_value =>
      report json_parser_errc.illegal_surrogate_value
  | unicons.other => report json_parser_errc.illegal_codepoint
  end.


(** *** parse_true, parse_null, parse_false

    Each is entered with [p_] on the first letter; [rest] is the input
    after that letter, so [end_input_ - p_ >= 4] says that [rest] has three
    elements or more. *)

Definition parse_true (rest : list Z) : M unit :=
  match rest with
  | c1 :: c2 :: c3 :: rest' =>
      if (c1 =? ch_r) && (c2 =? ch_u) && (c3 =? ch_e) then
        handler (bool_value true) ;;
        advance_p rest' ;;
        add_column 4 ;;
        end_json_or_expect_comma_or_end
      else
        error_and_return json_parser_errc.invalid_value
  | _ =>
      advance_p rest ;;
      incr_column ;;
      assign_state parse_state.t
  end.

Definition parse_null (rest : list Z) : M unit :=
  match rest with
  | c1 :: c2 :: c3 :: rest' =>
      if (c1 =? ch_u) && (c2 =? ch_l) && (c3 =? ch_l) then
        handler null_value ;;
        advance_p rest' ;;
        add_column 4 ;;
        end_json_or_expect_comma_or_end
      else
        error_and_return json_parser_errc.invalid_value
  | _ =>
      advance_p rest ;;
      incr_column ;;
      assign_state parse_state.n
  end.

Definition parse_false (rest : list Z) : M unit :=
  match rest with
  | c1 :: c2 :: c3 :: c4 :: rest' =>
      if (c1 =? ch_a) && (c2 =? ch_l) && (c3 =? ch_s) && (c4 =? ch_e) then
        handler (bool_value false) ;;
        advance_p rest' ;;
        add_column 5 ;;
        end_json_or_expect_comma_or_end
      else
        error_and_return json_parser_errc.invalid_value
  | _ =>
      advance_p rest ;;
      incr_column ;;
      assign_state parse_state.f
  end.

(** *** parse_number

    [parse_number_from label input] is the code from the label [label]
    on, with [p_] in front of [input]; every [goto] follows a [++p_]. *)

(** [string_buffer_.push_back(c); ++p_; ++column_;] for the character [c]
    under [p_] *)
Definition take_char (c : Z) (rest : list Z) : M unit :=
  string_buffer_push_back c ;; advance_p rest ;; incr_column.

(** [err_handler_.error(kind, *this); ec = kind; state_ = st; return;] *)
Definition number_error (k : json_parser_errc.enum) (st : parse_state.enum)
  : M unit :=
  error_and_return k ;; assign_state st.

Fixpoint parse_number_from (label : parse_state.enum) (input : list Z)
  {struct input} : M unit :=
  match label with
  | parse_state.minus =>
      match input with
      | [] => assign_state parse_state.minus
      | c :: rest =>
          if c =? ch_0 then
            take_char c rest ;; parse_number_from parse_state.zero rest
          else if is_digit19 c then
            take_char c rest ;; parse_number_from parse_state.integer rest
          else number_error json_parser_errc.expected_value parse_state.minus
      end
  | parse_state.zero =>
      match input with
      | [] => assign_state parse_state.zero
      | c :: rest =>
          if c =? ch_cr then
            end_integer_value ;;
            unless_ec (advance_p rest ;; incr_column ;; push_current_state ;;
                       assign_state parse_state.cr)
          else if c =? ch_lf then
            end_integer_value ;;
            unless_ec (push_current_state ;; advance_p rest ;; incr_column ;;
                       assign_state parse_state.lf)
          else if (c =? ch_space) || (c =? ch_tab) then
            end_integer_value ;; unless_ec skip_whitespace
          else if c =? ch_slash then
            end_integer_value ;;
            unless_ec (advance_p rest ;; incr_column ;; push_current_state ;;
                       assign_state parse_state.slash)
          else if c =? ch_rbrace then
            end_integer_value ;;
            unless_ec (do_end_object ;; advance_p rest ;; incr_column)
          else if c =? ch_rbracket then
            end_integer_value ;;
            unless_ec (do_end_array ;; advance_p rest ;; incr_column)
          else if c =? ch_dot then
            precision_from_buffer ;; take_char c rest ;;
            parse_number_from parse_state.fraction1 rest
          else if (c =? ch_e) || (c =? ch_E) then
            precision_from_buffer ;; take_char c rest ;;
            parse_number_from parse_state.exp1 rest
          else if c =? ch_comma then
            end_integer_value ;;
            unless_ec (begin_member_or_element ;;
                       unless_ec (advance_p rest ;; incr_column))
          else if is_digit c then
            number_error json_parser_errc.leading_zero parse_state.zero
          else number_error json_parser_errc.invalid_number parse_state.zero
      end
  | parse_state.integer =>
      match input with
      | [] => assign_state parse_state.integer
      | c :: rest =>
          if c =? ch_cr then
            end_integer_value ;;
            unless_ec (push_current_state ;; advance_p rest ;; incr_column ;;
                       assign_state parse_state.cr)
          else if c =? ch_lf then
            end_integer_value ;;
            unless_ec (push_current_state ;; advance_p rest ;; incr_column ;;
                       assign_state parse_state.lf)
          else if (c =? ch_space) || (c =? ch_tab) then
            end_integer_value ;; unless_ec skip_whitespace
          else if c =? ch_slash then
            end_integer_value ;;
            unless_ec (push_current_state ;; advance_p rest ;; incr_column ;;
                       assign_state parse_state.slash)
          else if c =? ch_rbrace then
            end_integer_value ;;
            unless_ec (do_end_object ;;
                       unless_ec (advance_p rest ;; incr_column))
          else if c =? ch_rbracket then
            end_integer_value ;;
            unless_ec (do_end_array ;;
                       unless_ec (advance_p rest ;; incr_column))
          else if is_digit c then
            take_char c rest ;; parse_number_from parse_state.integer rest
          else if c =? ch_dot then
            precision_from_buffer ;; take_char c rest ;;
            parse_number_from parse_state.fraction1 rest
          else if c =? ch_comma then
            end_integer_value ;;
            unless_ec (begin_member_or_element ;;
                       unless_ec (advance_p rest ;; incr_column))
          else if (c =? ch_e) || (c =? ch_E) then
            precision_from_buffer ;; take_char c rest ;;
            parse_number_from parse_state.exp1 rest
          else number_error json_parser_errc.invalid_number parse_state.integer
      end
  | parse_state.fraction1 =>
      match input with
      | [] => assign_state parse_state.fraction1
      | c :: rest =>
          if is_digit c then
            incr_precision ;; take_char c rest ;;
            parse_number_from parse_state.fraction2 rest
          else number_error json_parser_errc.invalid_number
                 parse_state.fraction1
      end
  | parse_state.fraction2 =>
      match input with
      | [] => assign_state parse_state.fraction2
      | c :: rest =>
          if c =? ch_cr then
            end_fraction_value ;;
            unless_ec (push_current_state ;; advance_p rest ;; incr_column ;;
                       assign_state parse_state.cr)
          else if c =? ch_lf then
            end_fraction_value ;;
            unless_ec (push_current_state ;; advance_p rest ;; incr_column ;;
                       assign_state parse_state.lf)
          else if (c =? ch_space) || (c =? ch_tab) then
            end_fraction_value ;; unless_ec skip_whitespace
          else if c =? ch_slash then
            end_fraction_value ;;
            unless_ec (push_current_state ;; advance_p rest ;; incr_column ;;
                       assign_state parse_state.slash)
          else if c =? ch_rbrace then
            end_fraction_value ;;
            unless_ec (do_end_object ;;
                       unless_ec (advance_p rest ;; incr_column))
          else if c =? ch_rbracket then
            end_fraction_value ;;
            unless_ec (do_end_array ;;
                       unless_ec (advance_p rest ;; incr_column))
          else if is_digit c then
            incr_precision ;; take_char c rest ;;
            parse_number_from parse_state.fraction2 rest
          else if c =? ch_comma then
            end_fraction_value ;;
            unless_ec (begin_member_or_element ;;
                       unless_ec (advance_p rest ;; incr_column))
          else if (c =? ch_e) || (c =? ch_E) then
            take_char c rest ;; parse_number_from parse_state.exp1 rest
          else number_error json_parser_errc.invalid_number
                 parse_state.fraction2
      end
  | parse_state.exp1 =>
      match input with
      | [] => assign_state parse_state.exp1
      | c :: rest =>
          if c =? ch_plus then
            advance_p rest ;; incr_column ;;
            parse_number_from parse_state.exp2 rest
          else if c =? ch_minus then
            take_char c rest ;; parse_number_from parse_state.exp2 rest
          else if is_digit c then
            take_char c rest ;; parse_number_from parse_state.exp3 rest
          else number_error json_parser_errc.expected_value parse_state.exp1
      end
  | parse_state.exp2 =>
      match input with
      | [] => assign_state parse_state.exp2
      | c :: rest =>
          if is_digit c then
            take_char c rest ;; parse_number_from parse_state.exp3 rest
          else number_error json_parser_errc.expected_value parse_state.exp2
      end
  | parse_state.exp3 =>
      match input with
      | [] => assign_state parse_state.exp3
      | c :: rest =>
          if c =? ch_cr then
            end_fraction_value ;;
            unless_ec (advance_p rest ;; incr_column ;; push_current_state ;;
                       assign_state parse_state.cr)
          else if c =? ch_lf then
            end_fraction_value ;;
            unless_ec (advance_p rest ;; incr_column ;; push_current_state ;;
                       assign_state parse_state.lf)
          else if (c =? ch_space) || (c =? ch_tab) then
            end_fraction_value ;; unless_ec skip_whitespace
          else if c =? ch_slash then
            end_fraction_value ;;
            unless_ec (push_current_state ;; advance_p rest ;; incr_column ;;
                       assign_state parse_state.slash)
          else if c =? ch_rbrace then
            end_fraction_value ;;
            unless_ec (do_end_object ;;
                       unless_ec (advance_p rest ;; incr_column))
          else if c =? ch_rbracket then
            end_fraction_value ;;
            unless_ec (do_end_array ;;
                       unless_ec (advance_p rest ;; incr_column))
          else if c =? ch_comma then
            end_fraction_value ;;
            unless_ec (begin_member_or_element ;;
                       unless_ec (advance_p rest ;; incr_column))
          else if is_digit c then
            take_char c rest ;; parse_number_from parse_state.exp3 rest
          else number_error json_parser_errc.invalid_number parse_state.exp3
      end
  | _ => JSONCONS_ASSERT_false
  end.

Definition parse_number : M unit :=
  label <- gets state_ ;;
  input <- gets p_ ;;
  parse_number_from label input.


(** *** parse_string

    [parse_string_from label span input] is the code from the label
    [label] on, with [p_] in front of [input] and with [span] the
    elements from the local pointer [sb] up to [p_]. *)

(** [auto result = unicons::validate(sb,p_);
     if (result.ec != unicons::conv_errc())
     { translate_conv_errc(result.ec,ec); column_ += (result.it - sb); return; }]
    in front of [rest]. *)
Definition validated (span : list Z) (rest : M unit) : M unit :=
  match validate span with
  | (unicons.ok, _) => rest
  | (result_ec, result_it) =>
      translate_conv_errc result_ec ;; add_column result_it
  end.

(** The three recoveries that keep the character: ['\r'], ['\n'], ['\t'].
    [next] is what follows [++p_]. *)
Definition illegal_character_in_string_case
  (span : list Z) (c : Z) (rest : list Z) (next : M unit) : M unit :=
  add_column (Z.of_nat (length span) + 1) ;;
  error_or_return_at json_parser_errc.illegal_character_in_string
    parse_state.string_u1
    (validated span
       (string_buffer_append (span ++ [c]) ;; advance_p rest ;; next)).

(** A simple escape: [string_buffer_.push_back(x); sb = ++p_; ++column_;] *)
Definition escaped (x : Z) (rest : list Z) : M unit :=
  string_buffer_push_back x ;; advance_p rest ;; incr_column.

(** [err_handler_.error(kind, *this); ec = kind; state_ = st; return;] *)
Definition string_error (k : json_parser_errc.enum) (st : parse_state.enum)
  : M unit :=
  error_and_return k ;; assign_state st.

(** One hex digit of the first or second escape:
    [append(c, ec); if (ec) { state_ = st; return; } ++p_; ++column_;]
    in front of [next]. *)
Definition hex_digit (append : Z -> M unit) (st : parse_state.enum)
  (c : Z) (rest : list Z) (next : M unit) : M unit :=
  append c ;;
  e <- gets ec ;;
  match e with
  | Some _ => assign_state st
  | None => advance_p rest ;; incr_column ;; next
  end.

Fixpoint parse_string_from (label : parse_state.enum) (span input : list Z)
  {struct input} : M unit :=
  match label with
  | parse_state.string_u1 =>
      match input with
      | [] =>
          validated span
            (string_buffer_append span ;;
             add_column (Z.of_nat (length span) + 1) ;;
             assign_state parse_state.string_u1)
      | c :: rest =>
          if JSONCONS_ILLEGAL_CONTROL_CHARACTER c then
            add_column (Z.of_nat (length span) + 1) ;;
            error_or_return_at json_parser_errc.illegal_control_character
              parse_state.string_u1
              (validated span
                 (string_buffer_append span ;; advance_p rest ;;
                  assign_state parse_state.string_u1))
          else if c =? ch_cr then
            illegal_character_in_string_case span c rest
              (push_current_state ;; assign_state parse_state.cr)
          else if c =? ch_lf then
            illegal_character_in_string_case span c rest
              (push_current_state ;; assign_state parse_state.lf)
          else if c =? ch_tab then
            illegal_character_in_string_case span c rest
              (assign_state parse_state.string_u1)
          else if c =? ch_backslash then
            validated span
              (string_buffer_append span ;;
               add_column (Z.of_nat (length span) + 1) ;;
               advance_p rest ;;
               parse_string_from parse_state.escape (span ++ [c]) rest)
          else if c =? ch_dquote then
            validated span
              (buffer <- gets string_buffer_ ;;
               (match buffer with
                | [] => end_string_value span
                | _ =>
                    string_buffer_append span ;;
                    text <- gets string_buffer_ ;;
                    end_string_value text ;;
                    string_buffer_clear
                end) ;;
               unless_ec
                 (add_column (Z.of_nat (length span) + 1) ;;
                  advance_p rest))
          else
            advance_p rest ;;
            parse_string_from parse_state.string_u1 (span ++ [c]) rest
      end
  | parse_state.escape =>
      match input with
      | [] => assign_state parse_state.escape
      | c :: rest =>
          let simple x :=
            escaped x rest ;;
            parse_string_from parse_state.string_u1 [] rest in
          if c =? ch_dquote then simple ch_dquote
          else if c =? ch_backslash then simple ch_backslash
          else if c =? ch_slash then simple ch_slash
          else if c =? ch_b then simple 8
          else if c =? ch_f then simple 12
          else if c =? ch_n then simple ch_lf
          else if c =? ch_r then simple ch_cr
          else if c =? ch_t then simple ch_tab
          else if c =? ch_u then
            modify (set_cp_ 0) ;; advance_p rest ;; incr_column ;;
            parse_string_from parse_state.escape_u1 (span ++ [c]) rest
          else string_error json_parser_errc.illegal_escaped_character
                 parse_state.escape
      end
  | parse_state.escape_u1 =>
      match input with
      | [] => assign_state parse_state.escape_u1
      | c :: rest =>
          hex_digit append_codepoint parse_state.escape_u1 c rest
            (parse_string_from parse_state.escape_u2 (span ++ [c]) rest)
      end
  | parse_state.escape_u2 =>
      match input with
      | [] => assign_state parse_state.escape_u2
      | c :: rest =>
          hex_digit append_codepoint parse_state.escape_u2 c rest
            (parse_string_from parse_state.escape_u3 (span ++ [c]) rest)
      end
  | parse_state.escape_u3 =>
      match input with
      | [] => assign_state parse_state.escape_u3
      | c :: rest =>
          hex_digit append_codepoint parse_state.escape_u3 c rest
            (parse_string_from parse_state.escape_u4 (span ++ [c]) rest)
      end
  | parse_state.escape_u4 =>
      match input with
      | [] => assign_state parse_state.escape_u4
      | c :: rest =>
          append_codepoint c ;;
          e <- gets ec ;;
          match e with
          | Some _ => assign_state parse_state.escape_u4
          | None =>
              cp <- gets cp_ ;;
              if unicons.is_high_surrogate cp then
                advance_p rest ;; incr_column ;;
                parse_string_from parse_state.escape_expect_surrogate_pair1
                  (span ++ [c]) rest
              else
                string_buffer_append (convert cp) ;;
                advance_p rest ;; incr_column ;;
                assign_state parse_state.string_u1
          end
      end
  | parse_state.escape_expect_surrogate_pair1 =>
      match input with
      | [] => assign_state parse_state.escape_expect_surrogate_pair1
      | c :: rest =>
          if c =? ch_backslash then
            modify (set_cp2_ 0) ;; advance_p rest ;; incr_column ;;
            parse_string_from parse_state.escape_expect_surrogate_pair2
              (span ++ [c]) rest
          else string_error json_parser_errc.expected_codepoint_surrogate_pair
                 parse_state.escape_expect_surrogate_pair1
      end
  | parse_state.escape_expect_surrogate_pair2 =>
      match input with
      | [] => assign_state parse_state.escape_expect_surrogate_pair2
      | c :: rest =>
          if c =? ch_u then
            advance_p rest ;; incr_column ;;
            parse_string_from parse_state.escape_u6 (span ++ [c]) rest
          else string_error json_parser_errc.expected_codepoint_surrogate_pair
                 parse_state.escape_expect_surrogate_pair2
      end
  | parse_state.escape_u6 =>
      match input with
      | [] => assign_state parse_state.escape_u6
      | c :: rest =>
          hex_digit append_second_codepoint parse_state.escape_u6 c rest
            (parse_string_from parse_state.escape_u7 (span ++ [c]) rest)
      end
  | parse_state.escape_u7 =>
      match input with
      | [] => assign_state parse_state.escape_u7
      | c :: rest =>
          hex_digit append_second_codepoint parse_state.escape_u7 c rest
            (parse_string_from parse_state.escape_u8 (span ++ [c]) rest)
      end
  | parse_state.escape_u8 =>
      match input with
      | [] => assign_state parse_state.escape_u8
      | c :: rest =>
          hex_digit append_second_codepoint parse_state.escape_u8 c rest
            (parse_string_from parse_state.escape_u9 (span ++ [c]) rest)
      end
  | parse_state.escape_u9 =>
      match input with
      | [] => assign_state parse_state.escape_u9
      | c :: rest =>
          append_second_codepoint c ;;
          e <- gets ec ;;
          match e with
          | Some _ => assign_state parse_state.escape_u9
          | None =>
              cp <- gets cp_ ;;
              cp2 <- gets cp2_ ;;
              string_buffer_append
                (convert
                   (wrap_uint32
                      (65536 + Z.shiftl (Z.land cp 1023) 10 + Z.land cp2 1023))) ;;
              advance_p rest ;; incr_column ;;
              parse_string_from parse_state.string_u1 [] rest
          end
      end
  | _ => JSONCONS_ASSERT_false
  end.

Definition parse_string : M unit :=
  label <- gets state_ ;;
  input <- gets p_ ;;
  parse_string_from label [] input.


(** *** parse: the cases of [switch (state_)]

    Each case is entered with [c] the character under [p_] and [rest] the
    input after it. *)

Definition case_cr (c : Z) (rest : list Z) : M unit :=
  incr_line ;;
  modify (set_column_ 1) ;;
  if c =? ch_lf then assign_state_pop ;; advance_p rest
  else assign_state_pop.

Definition case_lf : M unit :=
  incr_line ;;
  modify (set_column_ 1) ;;
  assign_state_pop.

Definition case_start (c : Z) (rest : list Z) : M unit :=
  handler begin_json ;;
  if JSONCONS_ILLEGAL_CONTROL_CHARACTER c then
    error_or_return json_parser_errc.illegal_control_character (ret tt)
  else if c =? ch_cr then
    push_current_state ;; consume rest ;; assign_state parse_state.cr
  else if c =? ch_lf then
    consume rest ;; push_current_state ;; assign_state parse_state.lf
  else if (c =? ch_space) || (c =? ch_tab) then skip_whitespace
  else if c =? ch_slash then
    consume rest ;; push_current_state ;; assign_state parse_state.slash
  else if c =? ch_lbrace then do_begin_object ;; unless_ec (consume rest)
  else if c =? ch_lbracket then do_begin_array ;; unless_ec (consume rest)
  else if c =? ch_dquote then
    assign_state parse_state.string_u1 ;; consume rest
  else if c =? ch_minus then
    modify (set_is_negative_ true) ;;
    assign_state parse_state.minus ;; consume rest
  else if c =? ch_0 then
    string_buffer_push_back c ;;
    assign_state parse_state.zero ;; consume rest
  else if is_digit19 c then
    string_buffer_push_back c ;;
    assign_state parse_state.integer ;; consume rest
  else if c =? ch_n then parse_null rest
  else if c =? ch_t then parse_true rest
  else if c =? ch_f then parse_false rest
  else if c =? ch_rbrace then fatal_and_return json_parser_errc.unexpected_right_brace
  else if c =? ch_rbracket then fatal_and_return json_parser_errc.unexpected_right_bracket
  else fatal_and_return json_parser_errc.invalid_json_text.

Definition case_expect_comma_or_end (c : Z) (rest : list Z) : M unit :=
  if JSONCONS_ILLEGAL_CONTROL_CHARACTER c then
    error_or_return json_parser_errc.illegal_control_character (consume rest)
  else if c =? ch_cr then
    consume rest ;; push_current_state ;; assign_state parse_state.cr
  else if c =? ch_lf then
    consume rest ;; push_current_state ;; assign_state parse_state.lf
  else if (c =? ch_space) || (c =? ch_tab) then skip_whitespace
  else if c =? ch_slash then
    consume rest ;; push_current_state ;; assign_state parse_state.slash
  else if c =? ch_rbrace then do_end_object ;; unless_ec (consume rest)
  else if c =? ch_rbracket then do_end_array ;; unless_ec (consume rest)
  else if c =? ch_comma then
    begin_member_or_element ;; unless_ec (consume rest)
  else
    pa <- parent ;;
    match pa with
    | parse_state.array =>
        error_or_return json_parser_errc.expected_comma_or_right_bracket
          (consume rest)
    | parse_state.object =>
        error_or_return json_parser_errc.expected_comma_or_right_brace
          (consume rest)
    | _ => consume rest
    end.

Definition case_expect_member_name_or_end (c : Z) (rest : list Z) : M unit :=
  if JSONCONS_ILLEGAL_CONTROL_CHARACTER c then
    error_or_return json_parser_errc.illegal_control_character (consume rest)
  else if c =? ch_cr then
    consume rest ;; push_current_state ;; assign_state parse_state.cr
  else if c =? ch_lf then
    consume rest ;; push_current_state ;; assign_state parse_state.lf
  else if (c =? ch_space) || (c =? ch_tab) then skip_whitespace
  else if c =? ch_slash then
    consume rest ;; push_current_state ;; assign_state parse_state.slash
  else if c =? ch_rbrace then do_end_object ;; unless_ec (consume rest)
  else if c =? ch_dquote then
    consume rest ;;
    push_state parse_state.member_name ;;
    assign_state parse_state.string_u1
  else if c =? ch_quote then
    error_or_return json_parser_errc.single_quote (consume rest)
  else error_or_return json_parser_errc.expected_name (consume rest).

Definition case_expect_member_name (c : Z) (rest : list Z) : M unit :=
  if JSONCONS_ILLEGAL_CONTROL_CHARACTER c then
    error_or_return json_parser_errc.illegal_control_character (consume rest)
  else if c =? ch_cr then
    consume rest ;; push_current_state ;; assign_state parse_state.cr
  else if c =? ch_lf then
    consume rest ;; push_current_state ;; assign_state parse_state.lf
  else if (c =? ch_space) || (c =? ch_tab) then skip_whitespace
  else if c =? ch_slash then
    consume rest ;; push_current_state ;; assign_state parse_state.slash
  else if c =? ch_dquote then
    consume rest ;;
    push_state parse_state.member_name ;;
    assign_state parse_state.string_u1
  else if c =? ch_rbrace then
    error_or_return json_parser_errc.extra_comma
      (do_end_object ;; unless_ec (consume rest))
  else if c =? ch_quote then
    error_or_return json_parser_errc.single_quote (consume rest)
  else error_or_return json_parser_errc.expected_name (consume rest).

Definition case_expect_colon (c : Z) (rest : list Z) : M unit :=
  if JSONCONS_ILLEGAL_CONTROL_CHARACTER c then
    error_or_return json_parser_errc.illegal_control_character (consume rest)
  else if c =? ch_cr then
    push_current_state ;; assign_state parse_state.cr ;; consume rest
  else if c =? ch_lf then
    push_current_state ;; assign_state parse_state.lf ;; consume rest
  else if (c =? ch_space) || (c =? ch_tab) then skip_whitespace
  else if c =? ch_slash then
    push_current_state ;; assign_state parse_state.slash ;; consume rest
  else if c =? ch_colon then
    assign_state parse_state.expect_value ;; consume rest
  else error_or_return json_parser_errc.expected_colon (consume rest).

Definition case_expect_value (c : Z) (rest : list Z) : M unit :=
  if JSONCONS_ILLEGAL_CONTROL_CHARACTER c then
    error_or_return json_parser_errc.illegal_control_character (consume rest)
  else if c =? ch_cr then
    push_current_state ;; consume rest ;; assign_state parse_state.cr
  else if c =? ch_lf then
    push_current_state ;; consume rest ;; assign_state parse_state.lf
  else if (c =? ch_space) || (c =? ch_tab) then skip_whitespace
  else if c =? ch_slash then
    push_current_state ;; consume rest ;; assign_state parse_state.slash
  else if c =? ch_lbrace then do_begin_object ;; unless_ec (consume rest)
  else if c =? ch_lbracket then do_begin_array ;; unless_ec (consume rest)
  else if c =? ch_dquote then
    consume rest ;; assign_state parse_state.string_u1
  else if c =? ch_minus then
    modify (set_is_negative_ true) ;;
    consume rest ;; assign_state parse_state.minus
  else if c =? ch_0 then
    string_buffer_push_back c ;;
    consume rest ;; assign_state parse_state.zero
  else if is_digit19 c then
    string_buffer_push_back c ;;
    consume rest ;; assign_state parse_state.integer
  else if c =? ch_n then parse_null rest
  else if c =? ch_t then parse_true rest
  else if c =? ch_f then parse_false rest
  else if c =? ch_rbracket then
    pa <- parent ;;
    match pa with
    | parse_state.array =>
        error_or_return json_parser_errc.extra_comma
          (do_end_array ;; unless_ec (consume rest))
    | _ =>
        error_or_return json_parser_errc.expected_value (consume rest)
    end
  else if c =? ch_quote then
    error_or_return json_parser_errc.single_quote (consume rest)
  else error_or_return json_parser_errc.expected_value (consume rest).

Definition case_expect_value_or_end (c : Z) (rest : list Z) : M unit :=
  if JSONCONS_ILLEGAL_CONTROL_CHARACTER c then
    error_or_return json_parser_errc.illegal_control_character (consume rest)
  else if c =? ch_cr then
    consume rest ;; push_current_state ;; assign_state parse_state.cr
  else if c =? ch_lf then
    consume rest ;; push_current_state ;; assign_state parse_state.lf
  else if (c =? ch_space) || (c =? ch_tab) then skip_whitespace
  else if c =? ch_slash then
    consume rest ;; push_current_state ;; assign_state parse_state.slash
  else if c =? ch_lbrace then do_begin_object ;; unless_ec (consume rest)
  else if c =? ch_lbracket then do_begin_array ;; unless_ec (consume rest)
  else if c =? ch_rbracket then do_end_array ;; unless_ec (consume rest)
  else if c =? ch_dquote then
    consume rest ;; assign_state parse_state.string_u1
  else if c =? ch_minus then
    modify (set_is_negative_ true) ;;
    consume rest ;; assign_state parse_state.minus
  else if c =? ch_0 then
    string_buffer_push_back c ;;
    consume rest ;; assign_state parse_state.zero
  else if is_digit19 c then
    string_buffer_push_back c ;;
    consume rest ;; assign_state parse_state.integer
  else if c =? ch_n then parse_null rest
  else if c =? ch_t then parse_true rest
  else if c =? ch_f then parse_false rest
  else if c =? ch_quote then
    error_or_return json_parser_errc.single_quote (consume rest)
  else error_or_return json_parser_errc.expected_value (consume rest).


(** The keyword states: [expected] is the letter of the only [case]. *)

(** [case x: ++p_; ++column_; state_ = next; break; default: ...] *)
Definition case_keyword_first (expected : Z) (next : parse_state.enum)
  (c : Z) (rest : list Z) : M unit :=
  if c =? expected then consume rest ;; assign_state next
  else error_and_return json_parser_errc.invalid_value.

(** [case x: state_ = next; break; default: ...] and then [++p_; ++column_;] *)
Definition case_keyword_middle (expected : Z) (next : parse_state.enum)
  (c : Z) (rest : list Z) : M unit :=
  if c =? expected then assign_state next ;; consume rest
  else error_and_return json_parser_errc.invalid_value.

(** The last letter of a keyword, [value] being the call of the sink. *)
Definition case_keyword_last (expected : Z) (value : event)
  (c : Z) (rest : list Z) : M unit :=
  if c =? expected then
    handler value ;; done_or_expect_comma_or_end ;; consume rest
  else error_and_return json_parser_errc.invalid_value.

Definition case_slash (c : Z) (rest : list Z) : M unit :=
  if c =? ch_star then
    assign_state parse_state.slash_star ;;
    error_or_return json_parser_errc.illegal_comment (consume rest)
  else if c =? ch_slash then
    assign_state parse_state.slash_slash ;;
    error_or_return json_parser_errc.illegal_comment (consume rest)
  else error_or_return json_parser_errc.invalid_json_text (consume rest).

Definition case_slash_star (c : Z) (rest : list Z) : M unit :=
  (if c =? ch_cr then push_current_state ;; assign_state parse_state.cr
   else if c =? ch_lf then push_current_state ;; assign_state parse_state.lf
   else if c =? ch_star then assign_state parse_state.slash_star_star
   else ret tt) ;;
  consume rest.

Definition case_slash_slash (c : Z) (rest : list Z) : M unit :=
  if c =? ch_cr then assign_state_pop
  else if c =? ch_lf then assign_state_pop
  else consume rest.

Definition case_slash_star_star (c : Z) (rest : list Z) : M unit :=
  (if c =? ch_slash then assign_state_pop
   else assign_state parse_state.slash_star) ;;
  consume rest.

(** The body of the loop of [parse]: [switch (state_)]. *)
Definition parse_switch (c : Z) (rest : list Z) : M unit :=
  st <- gets state_ ;;
  match st with
  | parse_state.cr => case_cr c rest
  | parse_state.lf => case_lf
  | parse_state.start => case_start c rest
  | parse_state.expect_comma_or_end => case_expect_comma_or_end c rest
  | parse_state.expect_member_name_or_end =>
      case_expect_member_name_or_end c rest
  | parse_state.expect_member_name => case_expect_member_name c rest
  | parse_state.expect_colon => case_expect_colon c rest
  | parse_state.expect_value => case_expect_value c rest
  | parse_state.expect_value_or_end => case_expect_value_or_end c rest
  | parse_state.string_u1 | parse_state.escape
  | parse_state.escape_u1 | parse_state.escape_u2
  | parse_state.escape_u3 | parse_state.escape_u4
  | parse_state.escape_expect_surrogate_pair1
  | parse_state.escape_expect_surrogate_pair2
  | parse_state.escape_u6 | parse_state.escape_u7
  | parse_state.escape_u8 | parse_state.escape_u9 => parse_string
  | parse_state.minus | parse_state.zero | parse_state.integer
  | parse_state.fraction1 | parse_state.fraction2
  | parse_state.exp1 | parse_state.exp2 | parse_state.exp3 => parse_number
  | parse_state.t => case_keyword_first ch_r parse_state.tr c rest
  | parse_state.tr => case_keyword_middle ch_u parse_state.tru c rest
  | parse_state.tru => case_keyword_last ch_e (bool_value true) c rest
  | parse_state.f => case_keyword_first ch_a parse_state.fa c rest
  | parse_state.fa => case_keyword_middle ch_l parse_state.fal c rest
  | parse_state.fal => case_keyword_middle ch_s parse_state.fals c rest
  | parse_state.fals => case_keyword_last ch_e (bool_value false) c rest
  | parse_state.n => case_keyword_first ch_u parse_state.nu c rest
  | parse_state.nu => case_keyword_middle ch_l parse_state.nul c rest
  | parse_state.nul => case_keyword_last ch_l null_value c rest
  | parse_state.slash => case_slash c rest
  | parse_state.slash_star => case_slash_star c rest
  | parse_state.slash_slash => case_slash_slash c rest
  | parse_state.slash_star_star => case_slash_star_star c rest
  | _ => JSONCONS_ASSERT_false
  end.

(** [while ((p_ < local_end_input) && (state_ != parse_state::done))]:
    every [return] of the body follows an assignment to [ec], and every
    assignment to [ec] is followed by a [return], so a turn of the loop is
    the last one exactly when it leaves [ec] set. *)
Fixpoint parse_loop (fuel : nat) : M unit :=
  fun s =>
    match p_ s with
    | [] => Returned tt s
    | c :: rest =>
        match state_ s with
        | parse_state.done => Returned tt s
        | _ =>
            match fuel with
            | O => Out_of_fuel
            | S fuel' =>
                (parse_switch c rest ;; unless_ec (parse_loop fuel')) s
            end
        end
    end.

(** [parse(ec)], with the number of turns the loop may take. *)
Definition parse (fuel : nat) : M unit :=
  modify (set_ec None) ;; parse_loop fuel.

(** *** end_parse *)

Definition end_parse : M unit :=
  modify (set_ec None) ;;
  pa <- parent ;;
  st <- gets state_ ;;
  (if parse_state.eqb pa parse_state.root then
     match st with
     | parse_state.zero | parse_state.integer => end_integer_value
     | parse_state.fraction2 | parse_state.exp3 => end_fraction_value
     | _ => ret tt
     end
   else ret tt) ;;
  unless_ec
    (st <- gets state_ ;;
     (if parse_state.eqb st parse_state.lf || parse_state.eqb st parse_state.cr
      then assign_state_pop
      else ret tt) ;;
     st <- gets state_ ;;
     if negb (parse_state.eqb st parse_state.done
              || parse_state.eqb st parse_state.start)
     then error_or_return json_parser_errc.unexpected_eof (ret tt)
     else ret tt).

(** *** check_done *)

(** The [for] loop of [check_done], with [p_] in front of [input]. *)
Fixpoint check_done_from (input : list Z) : M unit :=
  match input with
  | [] => ret tt
  | c :: rest =>
      if (c =? ch_lf) || (c =? ch_cr) || (c =? ch_tab) || (c =? ch_space)
      then advance_p rest ;; check_done_from rest
      else
        error_or_return json_parser_errc.extra_character
          (advance_p rest ;; check_done_from rest)
  end.

Definition check_done : M unit :=
  modify (set_ec None) ;;
  st <- gets state_ ;;
  let rest := input <- gets p_ ;; check_done_from input in
  match st with
  | parse_state.done => rest
  | _ => error_or_return json_parser_errc.unexpected_eof rest
  end.

(** *** Feeding a text

    [feed] is [set_source] followed by [parse]; [parse_chunks] feeds the
    chunks one after the other, stops at the first one that leaves [ec]
    set, and finishes with [end_parse]. *)

Definition feed (fuel : nat) (chunk : list Z) : M unit :=
  set_source chunk ;; parse fuel.

Fixpoint parse_chunks (fuel : nat) (chunks : list (list Z)) : M unit :=
  match chunks with
  | [] => end_parse
  | chunk :: chunks' =>
      feed fuel chunk ;; unless_ec (parse_chunks fuel chunks')
  end.

Definition parse_document (fuel : nat) (text : list Z) : M unit :=
  parse_chunks fuel [text].

(** The calls that the event sink has received when a run returns. *)
Definition events_of {A : Type} (r : result A) : option (list event) :=
  match r with
  | Returned _ s => Some (handler_ s)
  | _ => None
  end.

End Parser.

(** * Vocabulary of the properties *)

(** ** Integer literals *)

(** The value of a string of decimal digits that follows the value [n]. *)
Definition decimal_value_from (n : Z) (digits : list Z) : Z :=
  fold_left (fun acc c => acc * 10 + (c - ch_0)) digits n.

Definition decimal_value (digits : list Z) : Z := decimal_value_from 0 digits.

Definition all_digits (digits : list Z) : Prop :=
  Forall (fun c => is_digit c = true) digits.

(** The integer part of the number grammar: the digit 0 alone, or a digit
    from 1 to 9 followed by digits. *)
Definition integer_literal (digits : list Z) : Prop :=
  digits = [ch_0] \/
  exists c rest, digits = c :: rest /\ is_digit19 c = true /\ all_digits rest.

(** ** A caller

    The calls of a caller that feeds chunks, ends the input and checks for
    trailing characters. *)

Module call.
Inductive t : Type :=
| parse (chunk : list Z)
| end_parse
| check_done.
End call.

(** ** skip_whitespace *)

(** The number of spaces and tabs in front of the input. *)
Fixpoint leading_blanks (input : list Z) : nat :=
  match input with
  | c :: rest =>
      if (c =? ch_space) || (c =? ch_tab) then S (leading_blanks rest) else O
  | [] => O
  end.

Section Vocabulary.

Context {collaborators : Collaborators}.

(** ** What a call added to the two logs *)

Definition new_reports (s s' : basic_json_parser) : list report :=
  skipn (length (err_handler_ s)) (err_handler_ s').

Definition new_events (s s' : basic_json_parser) : list event :=
  skipn (length (handler_ s)) (handler_ s').

Definition is_number_event (e : event) : bool :=
  match e with
  | integer_value _ | uinteger_value _ | double_value _ _ => true
  | _ => false
  end.

(** ** The error code and the policy *)

(** The kinds that some place of the parser reports with
    [err_handler_.error(kind, *this); ec = kind; return;], the answer of
    the policy being dropped. *)
Definition written_regardless (k : json_parser_errc.enum) : bool :=
  match k with
  | json_parser_errc.invalid_value
  | json_parser_errc.leading_zero
  | json_parser_errc.invalid_number
  | json_parser_errc.expected_value
  | json_parser_errc.illegal_escaped_character
  | json_parser_errc.expected_codepoint_surrogate_pair => true
  | _ => false
  end.

(** A report accounts for an error code when it was made with
    [fatal_error], or the policy answered abort to it, or its kind is one
    of the above. *)
Definition justified (r : report) : Prop :=
  fatal r = true \/
  policy (kind r) (line_number r) (column_number r) = true \/
  written_regardless (kind r) = true.

(** From [s] to [s'] reports were only added, and [ec] is as before or is
    the kind of an added report that accounts for it. *)
Definition accounted (s s' : basic_json_parser) : Prop :=
  exists news : list report,
    err_handler_ s' = err_handler_ s ++ news /\
    (ec s' = ec s \/
     exists r, In r news /\ ec s' = Some (kind r) /\ justified r).

Definition accounts {A : Type} (m : M A) : Prop :=
  forall s, match m s with
            | Returned _ s' => accounted s s'
            | _ => True
            end.


(** ** The recoveries

    Each is stated for a policy that answers continue at the place where
    the parser asks. *)











(** ** end_parse *)

Definition pending_number (st : parse_state.enum) : bool :=
  match st with
  | parse_state.zero | parse_state.integer
  | parse_state.fraction2 | parse_state.exp3 => true
  | _ => false
  end.

Definition is_root (st : parse_state.enum) : bool :=
  parse_state.eqb st parse_state.root.

(** The state that the last test of [end_parse] looks at when the state
    was [st] and the top of the stack [pa]: a [cr] or [lf] has been
    replaced by the state saved under it. *)
Definition resumed_state (st pa : parse_state.enum) : parse_state.enum :=
  match st with
  | parse_state.cr | parse_state.lf => pa
  | _ => st
  end.

Definition done_or_start (st : parse_state.enum) : bool :=
  parse_state.eqb st parse_state.done || parse_state.eqb st parse_state.start.

(** The event that goes with the number in the buffer: for the states
    [zero] and [integer] what [end_integer_value] gives, an integer if the
    conversion to an integer succeeds and else a [double] with the length
    of the buffer as precision; for the states [fraction2] and [exp3] what
    [end_fraction_value] gives, a [double] with [precision_]. [None] when
    the conversion to [double] throws. *)
Definition pending_value (s : basic_json_parser) : option event :=
  let buffer := string_buffer_ s in
  let signed d := if is_negative_ s then neg_double d else d in
  match state_ s with
  | parse_state.zero | parse_state.integer =>
      let len := Z.of_nat (length buffer) in
      match (if is_negative_ s
             then option_map integer_value
                    (try_string_to_integer true buffer)
             else option_map uinteger_value
                    (try_string_to_uinteger buffer)) with
      | Some e => Some e
      | None =>
          option_map (fun d => double_value (signed d) (wrap_uint8 len))
            (str_to_double buffer len)
      end
  | parse_state.fraction2 | parse_state.exp3 =>
      option_map (fun d => double_value (signed d) (precision_ s))
        (str_to_double buffer (precision_ s))
  | _ => None
  end.

(** The stack after the last test of [end_parse]: a [cr] or [lf] has been
    replaced by the state saved on top, which is popped. *)
Definition resumed_stack (st : parse_state.enum)
  (stack : list parse_state.enum) : list parse_state.enum :=
  match st with
  | parse_state.cr | parse_state.lf => tl stack
  | _ => stack
  end.

(** ** The stack between two turns of the loop *)

Definition is_container (st : parse_state.enum) : bool :=
  match st with
  | parse_state.object | parse_state.array => true
  | _ => false
  end.

(** The containers that are open, innermost first. *)
Definition containers (stack : list parse_state.enum)
  : list parse_state.enum :=
  filter is_container stack.

(** [root] at the bottom and nothing but containers above it. *)
Fixpoint frames (stack : list parse_state.enum) : bool :=
  match stack with
  | parse_state.root :: [] => true
  | parse_state.object :: stack' | parse_state.array :: stack' =>
      frames stack'
  | _ => false
  end.

(** The states that are left by [state_ = pop_state()]: a line break or a
    comment in front of the state saved on the stack. *)
Definition is_detour (st : parse_state.enum) : bool :=
  match st with
  | parse_state.cr | parse_state.lf | parse_state.slash
  | parse_state.slash_slash | parse_state.slash_star
  | parse_state.slash_star_star => true
  | _ => false
  end.

(** The stacks that a state is found with: what the cases of [parse] and
    the functions they call expect of [parent()] and of [pop_state()]. *)
Fixpoint well_formed (st : parse_state.enum) (stack : list parse_state.enum)
  {struct stack} : bool :=
  match st with
  | parse_state.start | parse_state.done =>
      match stack with
      | parse_state.root :: [] => true
      | _ => false
      end
  | parse_state.expect_comma_or_end | parse_state.expect_value =>
      match stack with
      | parse_state.object :: stack' | parse_state.array :: stack' =>
          frames stack'
      | _ => false
      end
  | parse_state.expect_member_name_or_end | parse_state.expect_member_name
  | parse_state.expect_colon =>
      match stack with
      | parse_state.object :: stack' => frames stack'
      | _ => false
      end
  | parse_state.expect_value_or_end =>
      match stack with
      | parse_state.array :: stack' => frames stack'
      | _ => false
      end
  | parse_state.string_u1 | parse_state.escape
  | parse_state.escape_u1 | parse_state.escape_u2
  | parse_state.escape_u3 | parse_state.escape_u4
  | parse_state.escape_expect_surrogate_pair1
  | parse_state.escape_expect_surrogate_pair2
  | parse_state.escape_u6 | parse_state.escape_u7
  | parse_state.escape_u8 | parse_state.escape_u9 =>
      match stack with
      | parse_state.member_name :: parse_state.object :: stack' =>
          frames stack'
      | _ => frames stack
      end
  | parse_state.minus | parse_state.zero | parse_state.integer
  | parse_state.fraction1 | parse_state.fraction2
  | parse_state.exp1 | parse_state.exp2 | parse_state.exp3
  | parse_state.n | parse_state.nu | parse_state.nul
  | parse_state.t | parse_state.tr | parse_state.tru
  | parse_state.f | parse_state.fa | parse_state.fal | parse_state.fals =>
      frames stack
  | parse_state.cr | parse_state.lf | parse_state.slash
  | parse_state.slash_slash | parse_state.slash_star
  | parse_state.slash_star_star =>
      match stack with
      | saved :: stack' => well_formed saved stack'
      | [] => false
      end
  | parse_state.root | parse_state.object | parse_state.array
  | parse_state.member_name => false
  end.

(** The state that is resumed once the line breaks and comments on top of
    the stack are over. *)
Fixpoint resumes (st : parse_state.enum) (stack : list parse_state.enum)
  {struct stack} : parse_state.enum :=
  if is_detour st then
    match stack with
    | saved :: stack' => resumes saved stack'
    | [] => st
    end
  else st.

Definition finished (st : parse_state.enum) (stack : list parse_state.enum)
  : bool :=
  parse_state.eqb (resumes st stack) parse_state.done.

(** ** The calls that an event sink can make sense of

    [begin_json] comes first, and may come again as long as nothing else
    has come; a container is closed by the event of its own kind,
    innermost first; [end_json] comes after a value, when no container is
    open, and nothing comes after it. *)

Inductive phase : Set := not_begun | begun | inside | ended.

Record sink : Type := mk_sink {
  sink_phase : phase;
  open : list parse_state.enum
}.

(** [begin_json] has come and [end_json] has not. *)
Definition after_begin (ph : phase) : bool :=
  match ph with
  | begun | inside => true
  | _ => false
  end.

(** An event other than [begin_json] and [end_json], after [begin_json]. *)
Definition document_step (open : list parse_state.enum) (e : event)
  : option sink :=
  match e with
  | begin_json | end_json => None
  | begin_object => Some (mk_sink inside (parse_state.object :: open))
  | begin_array => Some (mk_sink inside (parse_state.array :: open))
  | end_object =>
      match open with
      | parse_state.object :: rest => Some (mk_sink inside rest)
      | _ => None
      end
  | end_array =>
      match open with
      | parse_state.array :: rest => Some (mk_sink inside rest)
      | _ => None
      end
  | _ => Some (mk_sink inside open)
  end.

Definition sink_step (acc : option sink) (e : event) : option sink :=
  match acc with
  | None => None
  | Some k =>
      match e with
      | begin_json =>
          match sink_phase k with
          | not_begun | begun => Some (mk_sink begun (open k))
          | _ => None
          end
      | end_json =>
          match sink_phase k, open k with
          | inside, [] => Some (mk_sink ended [])
          | _, _ => None
          end
      | _ =>
          if after_begin (sink_phase k) then document_step (open k) e
          else None
      end
  end.

Definition sink_after (events : list event) : option sink :=
  fold_left sink_step events (Some (mk_sink not_begun [])).

(** The calls are in order so far. *)
Definition in_order (events : list event) : Prop :=
  exists k, sink_after events = Some k.

(** The calls are in order and [end_json] has come: it is the last call,
    and every container that was opened has been closed. *)
Definition complete (events : list event) : Prop :=
  sink_after events = Some (mk_sink ended []).

(** The phase of the sink that goes with the state to resume. *)
Definition phase_fits (ph : phase) (st : parse_state.enum) : bool :=
  match st with
  | parse_state.start =>
      match ph with
      | not_begun | begun => true
      | _ => false
      end
  | parse_state.done =>
      match ph with
      | ended => true
      | _ => false
      end
  | _ => after_begin ph
  end.

(** ** The buffer between two values

    [string_buffer_] and [is_negative_] are shared by the numbers and the
    strings: a number starts from what they hold. *)

Definition is_number (st : parse_state.enum) : bool :=
  match st with
  | parse_state.minus | parse_state.zero | parse_state.integer
  | parse_state.fraction1 | parse_state.fraction2
  | parse_state.exp1 | parse_state.exp2 | parse_state.exp3 => true
  | _ => false
  end.

Definition is_string (st : parse_state.enum) : bool :=
  match st with
  | parse_state.string_u1 | parse_state.escape
  | parse_state.escape_u1 | parse_state.escape_u2
  | parse_state.escape_u3 | parse_state.escape_u4
  | parse_state.escape_expect_surrogate_pair1
  | parse_state.escape_expect_surrogate_pair2
  | parse_state.escape_u6 | parse_state.escape_u7
  | parse_state.escape_u8 | parse_state.escape_u9 => true
  | _ => false
  end.

(** In the state [st]: inside a string the sign is clear; inside a number
    the buffer and the sign are those of the number; elsewhere the buffer
    is empty and the sign is clear. *)
Definition tidy (st : parse_state.enum) (buffer : list Z) (negative : bool)
  : bool :=
  if is_string st then negb negative
  else if is_number st then true
  else negb negative && match buffer with [] => true | _ => false end.

Definition idle (s : basic_json_parser) : Prop :=
  tidy (resumes (state_ s) (state_stack_ s)) (string_buffer_ s)
    (is_negative_ s) = true.

(** ** The parser between two calls

    The stack fits the state, [nesting_depth_] counts the open containers,
    the buffer is idle, the sink has been told of exactly these
    containers, and it is in the phase that goes with the state to
    resume. *)
Definition consistent (s : basic_json_parser) : Prop :=
  well_formed (state_ s) (state_stack_ s) = true /\
  nesting_depth_ s = Z.of_nat (length (containers (state_stack_ s))) /\
  idle s /\
  exists ph,
    sink_after (handler_ s) =
    Some (mk_sink ph (containers (state_stack_ s))) /\
    phase_fits ph (resumes (state_ s) (state_stack_ s)) = true.

(** What a turn of the loop uses up: an element of the input counts twice
    and an entry of the stack once, so that a turn that pushes a state
    without reading, or pops one, still counts. *)
Definition turns_left (s : basic_json_parser) : nat :=
  (2 * length (p_ s) + length (state_stack_ s))%nat.

(** The answers of the collaborators under which every turn of the loop
    uses something up: the policy aborts on an illegal control character,
    and an empty span is valid. *)
Definition makes_progress : Prop :=
  (forall line column,
     policy json_parser_errc.illegal_control_character line column = true) /\
  fst (validate []) = unicons.ok.

(** A caller stops at the first call that leaves the error code set. *)

Definition do_call (fuel : nat) (c : call.t) : M unit :=
  match c with
  | call.parse chunk => feed fuel chunk
  | call.end_parse => end_parse
  | call.check_done => check_done
  end.

Fixpoint do_calls (fuel : nat) (calls : list call.t) : M unit :=
  match calls with
  | [] => ret tt
  | c :: calls' => do_call fuel c ;; unless_ec (do_calls fuel calls')
  end.

(** ** The states by the case of [parse] that handles them *)

Definition is_expect (st : parse_state.enum) : bool :=
  match st with
  | parse_state.expect_comma_or_end | parse_state.expect_member_name_or_end
  | parse_state.expect_member_name | parse_state.expect_colon
  | parse_state.expect_value | parse_state.expect_value_or_end => true
  | _ => false
  end.

Definition is_keyword (st : parse_state.enum) : bool :=
  match st with
  | parse_state.n | parse_state.nu | parse_state.nul
  | parse_state.t | parse_state.tr | parse_state.tru
  | parse_state.f | parse_state.fa | parse_state.fal | parse_state.fals =>
      true
  | _ => false
  end.

(** ** What is proved of a turn and of a call *)

(** What is proved of a turn, and of the functions that make one up, for a
    parser [s] that becomes [s']: the calls of the sink are in order; and
    when the error code is clear, [s'] is consistent and [left] is above
    what is left to do. *)
Definition turn_ok (left : nat) (s' : basic_json_parser) : Prop :=
  in_order (handler_ s') /\
  (ec s' = None ->
   consistent s' /\ ((makes_progress -> turns_left s' < left)%nat)).

(** What is proved of a call from a consistent parser. *)
Definition call_ok (r : result unit) : Prop :=
  match r with
  | Returned _ s' => in_order (handler_ s') /\ (ec s' = None -> consistent s')
  | Assertion_failed => False
  | Out_of_fuel => True
  end.

(** [check_done] reads the input and asks the policy; it leaves the rest
    of the parser alone. *)
Definition same_parse (s s' : basic_json_parser) : Prop :=
  handler_ s' = handler_ s /\ state_ s' = state_ s /\
  state_stack_ s' = state_stack_ s /\ nesting_depth_ s' = nesting_depth_ s /\
  string_buffer_ s' = string_buffer_ s /\ is_negative_ s' = is_negative_ s.

(** The state after a value below the frame [top], and the phase of the
    sink then. *)
Definition state_after_value (top : parse_state.enum) : parse_state.enum :=
  match top with
  | parse_state.root => parse_state.done
  | _ => parse_state.expect_comma_or_end
  end.

Definition phase_after_value (top : parse_state.enum) : phase :=
  match top with
  | parse_state.root => ended
  | _ => inside
  end.

(** [end_integer_value] and [end_fraction_value] below a frame: the sink
    is given the value, and [end_json] after it below [root]; the state is
    the one after a value; the buffer is empty and the sign clear; the
    position, the stack and the depth stay. *)
Definition value_given (m : M unit) : Prop :=
  forall s ph,
    frames (state_stack_ s) = true ->
    sink_after (handler_ s) =
    Some (mk_sink ph (containers (state_stack_ s))) ->
    after_begin ph = true ->
    exists h1 e1 buf1 neg1 st1 ec1,
      m s =
      Returned tt
        (mk_parser h1 e1 (cp_ s) (cp2_ s) buf1 neg1 (line_ s) (column_ s)
           (nesting_depth_ s) (max_depth_ s) (precision_ s) (begin_input_ s)
           (p_ s) st1 (state_stack_ s) ec1) /\
      in_order h1 /\
      (ec1 = None ->
       st1 = state_after_value (hd parse_state.root (state_stack_ s)) /\
       sink_after h1 =
       Some (mk_sink
               (phase_after_value (hd parse_state.root (state_stack_ s)))
               (containers (state_stack_ s))) /\
       buf1 = [] /\ neg1 = false).

(** ** check_done *)

(** The characters that [check_done] passes over. *)
Definition is_trailing_space (c : Z) : bool :=
  (c =? ch_lf) || (c =? ch_cr) || (c =? ch_tab) || (c =? ch_space).

(** The input from its first character that is none of them. *)
Fixpoint first_extra_character (input : list Z) : list Z :=
  match input with
  | [] => []
  | c :: rest =>
      if is_trailing_space c then first_extra_character rest else input
  end.

Definition extra_characters (input : list Z) : list Z :=
  filter (fun c => negb (is_trailing_space c)) input.

(** ** Escapes *)

(** The value of a hexadecimal digit, and of a string of them. *)
Definition hex_digit_value (c : Z) : Z :=
  if is_digit c then c - ch_0
  else if (ch_a <=? c) && (c <=? ch_f) then c - ch_a + 10
  else c - ch_A + 10.

Definition hex_value (digits : list Z) : Z :=
  fold_left (fun acc c => acc * 16 + hex_digit_value c) digits 0.

(** The code point that a high surrogate [cp] and the value [cp2] of the
    escape after it stand for. *)
Definition surrogate_pair (cp cp2 : Z) : Z :=
  65536 + (cp - 55296) * 1024 + cp2 mod 1024.

(** ** Line breaks *)

(** The states between tokens and in a block comment, where a line break
    is passed over. *)
Definition passes_line_breaks (st : parse_state.enum) : bool :=
  is_expect st || parse_state.eqb st parse_state.slash_star.

(** The parser at the start of the next line. *)
Definition next_line (s : basic_json_parser) : basic_json_parser :=
  set_column_ 1 (set_line_ (wrap_size_t (line_ s + 1)) s).

(** ** The characters of a number

    What [parse_number] does with a character that goes on with the
    number, as a function of the label it is at, of the buffer and of
    [precision_]: the next label, and the buffer and the precision then.
    [None] where the character ends the number or is an error. *)

Definition scan : Type := (parse_state.enum * list Z * Z)%type.

Definition number_step (n : scan) (c : Z) : option scan :=
  let '(label, buffer, precision) := n in
  (* string_buffer_.push_back(c) *)
  let take l := Some (l, buffer ++ [c], precision) in
  (* ++precision_; string_buffer_.push_back(c) *)
  let take_counted l := Some (l, buffer ++ [c], wrap_uint8 (precision + 1)) in
  (* precision_ = string_buffer_.length(); string_buffer_.push_back(c) *)
  let take_from_buffer l :=
    Some (l, buffer ++ [c], wrap_uint8 (Z.of_nat (length buffer))) in
  match label with
  | parse_state.minus =>
      if c =? ch_0 then take parse_state.zero
      else if is_digit19 c then take parse_state.integer
      else None
  | parse_state.zero =>
      if c =? ch_dot then take_from_buffer parse_state.fraction1
      else if (c =? ch_e) || (c =? ch_E)
      then take_from_buffer parse_state.exp1
      else None
  | parse_state.integer =>
      if is_digit c then take parse_state.integer
      else if c =? ch_dot then take_from_buffer parse_state.fraction1
      else if (c =? ch_e) || (c =? ch_E)
      then take_from_buffer parse_state.exp1
      else None
  | parse_state.fraction1 =>
      if is_digit c then take_counted parse_state.fraction2 else None
  | parse_state.fraction2 =>
      if is_digit c then take_counted parse_state.fraction2
      else if (c =? ch_e) || (c =? ch_E) then take parse_state.exp1
      else None
  | parse_state.exp1 =>
      if c =? ch_plus then Some (parse_state.exp2, buffer, precision)
      else if c =? ch_minus then take parse_state.exp2
      else if is_digit c then take parse_state.exp3
      else None
  | parse_state.exp2 =>
      if is_digit c then take parse_state.exp3 else None
  | parse_state.exp3 =>
      if is_digit c then take parse_state.exp3 else None
  | _ => None
  end.

Fixpoint number_scan (n : scan) (text : list Z) : option scan :=
  match text with
  | [] => Some n
  | c :: rest =>
      match number_step n c with
      | Some n' => number_scan n' rest
      | None => None
      end
  end.

(** [column_] after [k] times [++column_]. *)
Definition column_after (k : nat) (column : Z) : Z :=
  Nat.iter k (fun col => wrap_size_t (col + 1)) column.

(** The parser after the scan of [text] has come to [n], with [rest] left
    of the input. *)
Definition scanned (n : scan) (text rest : list Z) (s : basic_json_parser)
  : basic_json_parser :=
  let '(_, buffer, precision) := n in
  set_column_ (column_after (length text) (column_ s))
    (set_p_ rest (set_precision_ precision (set_string_buffer_ buffer s))).

(** The parser after [set_source] and [parse] have scanned the chunk
    [text], all of it part of a number, and have come to [n]. *)
Definition scanned_chunk (n : scan) (text : list Z) (s : basic_json_parser)
  : basic_json_parser :=
  set_state_ (fst (fst n))
    (scanned n text [] (set_ec None (set_begin_input_ text s))).

(** ** The keywords *)

(** The states in which the letter [t], [f] or [n] begins [true], [false]
    or [null]. *)
Definition expects_value (st : parse_state.enum) : bool :=
  match st with
  | parse_state.start | parse_state.expect_value
  | parse_state.expect_value_or_end => true
  | _ => false
  end.

Definition keyword_text (text : list Z) : Prop :=
  text = [ch_t; ch_r; ch_u; ch_e] \/
  text = [ch_f; ch_a; ch_l; ch_s; ch_e] \/
  text = [ch_n; ch_u; ch_l; ch_l].

(** ** Plain characters of a string *)

(** The characters that the loop of [parse_string] passes over: all but
    the control characters, the backslash and the quote. *)
Definition plain_character (c : Z) : bool :=
  negb (JSONCONS_ILLEGAL_CONTROL_CHARACTER c || (c =? ch_cr) || (c =? ch_lf)
        || (c =? ch_tab) || (c =? ch_backslash) || (c =? ch_dquote)).

(** ** Integer literals where a value is expected *)










End Vocabulary.

(** * Properties *)

Section Properties.

Context {collaborators : Collaborators}.

(** ** The loop of [parse] and the two logs *)

Lemma is_digit_range c : is_digit c = true <-> 48 <= c <= 57.
Proof. unfold is_digit. rewrite andb_true_iff, !Z.leb_le. tauto. Qed.

Lemma is_digit19_range c : is_digit19 c = true <-> 49 <= c <= 57.
Proof. unfold is_digit19. rewrite andb_true_iff, !Z.leb_le. tauto. Qed.

Lemma parse_loop_nil fuel s : p_ s = [] -> parse_loop fuel s = Returned tt s.
Proof. intro H. destruct fuel; cbn [parse_loop]; rewrite H; reflexivity. Qed.

Lemma parse_loop_turn fuel s c rest :
  p_ s = c :: rest -> state_ s <> parse_state.done ->
  parse_loop (S fuel) s = (parse_switch c rest ;; unless_ec (parse_loop fuel)) s.
Proof.
  intros Hp Hs. cbn [parse_loop]. rewrite Hp.
  destruct (state_ s); try reflexivity. congruence.
Qed.

(** Feeding the digits of an integer literal to a new parser leaves them in
    the buffer, in state [zero] or [integer], below [root]. *)
Lemma unless_ec_set m s k : ec s = Some k -> unless_ec m s = Returned tt s.
Proof. intro H. unfold unless_ec. rewrite H. reflexivity. Qed.

Lemma unless_ec_clear m s : ec s = None -> unless_ec m s = m s.
Proof. intro H. unfold unless_ec. rewrite H. reflexivity. Qed.

Lemma skipn_app_exact {A} (l l' : list A) : skipn (length l) (l ++ l') = l'.
Proof. induction l; cbn; auto. Qed.

Lemma skipn_exact {A} (l : list A) : skipn (length l) l = [].
Proof. induction l; cbn; auto. Qed.


(** One turn of the loop on a parser whose fields are known, for a turn
    that asks nothing of the collaborators. *)
Ltac turn :=
  erewrite parse_loop_turn by (reflexivity || discriminate);
  unfold bind at 1;
  match goal with
  | |- context [parse_switch ?c ?r ?s] =>
      let v := eval cbv -[validate policy str_to_double neg_double convert
                          parse_loop]
               in (parse_switch c r s) in
      change (parse_switch c r s) with v
  end;
  cbv beta iota.

(** ** Tactics *)

(** Running the straight-line code of the model on a parser given by its
    fields. *)
Ltac exec :=
  cbv beta iota zeta delta
    [bind ret gets modify unless_ec assign_ec err_handler_error
     err_handler_fatal_error handler assign_state advance_p incr_column
     add_column incr_line string_buffer_push_back string_buffer_append
     string_buffer_clear precision_from_buffer incr_precision
     error_or_return error_or_return_at fatal_and_return error_and_return
     consume push_state pop_state parent push_current_state assign_state_pop
     incr_nesting_depth decr_nesting_depth done_or_expect_comma_or_end
     end_json_or_expect_comma_or_end switch_parent_after_number clear_number
     end_fraction_value integer_as_double end_integer_value take_char
     number_error string_error
     set_source parse end_parse feed parse_document parse_chunks
     new_parser events_of
     set_handler_ set_err_handler_ set_cp_ set_cp2_ set_string_buffer_
     set_is_negative_ set_line_ set_column_ set_nesting_depth_ set_max_depth_
     set_precision_ set_begin_input_ set_p_ set_state_ set_state_stack_ set_ec
     handler_ err_handler_ cp_ cp2_ string_buffer_ is_negative_ line_ column_
     nesting_depth_ max_depth_ precision_ begin_input_ p_ state_ state_stack_
     ec].

Ltac eval_eqb :=
  cbv beta iota delta [parse_state.eqb parse_state.enum_beq orb negb andb].

Ltac digit_cases c H :=
  apply is_digit_range in H;
  assert (c = 48 \/ c = 49 \/ c = 50 \/ c = 51 \/ c = 52 \/ c = 53 \/
          c = 54 \/ c = 55 \/ c = 56 \/ c = 57) as Hcases by lia;
  clear H;
  repeat (destruct Hcases as [Hcases | Hcases]); subst c.

Ltac digit19_cases c H :=
  apply is_digit19_range in H;
  assert (c = 49 \/ c = 50 \/ c = 51 \/ c = 52 \/ c = 53 \/
          c = 54 \/ c = 55 \/ c = 56 \/ c = 57) as Hcases by lia;
  clear H;
  repeat (destruct Hcases as [Hcases | Hcases]); subst c.

(** ** Integer literals: the conversions, and the literal as a document *)

Lemma decimal_value_from_ge n digits :
  0 <= n -> all_digits digits -> n <= decimal_value_from n digits.
Proof.
  intros Hn H. revert n Hn. induction H as [| c ds Hc _ IH]; intros n Hn; cbn.
  - lia.
  - apply is_digit_range in Hc. etransitivity; [| apply IH]; lia.
Qed.

Lemma try_string_to_uinteger_loop_spec digits :
  all_digits digits ->
  forall n, 0 <= n <= uint64_max ->
    try_string_to_uinteger_loop digits n =
    if decimal_value_from n digits <=? uint64_max
    then Some (decimal_value_from n digits) else None.
Proof.
  induction 1 as [| c ds Hc Hds IH]; intros n Hn; cbn [try_string_to_uinteger_loop decimal_value_from fold_left].
  - destruct (Z.leb_spec n uint64_max); [reflexivity | lia].
  - apply is_digit_range in Hc.
    assert (Hx : wrap_uint64 (c - 48) = c - 48).
    { unfold wrap_uint64. apply Z.mod_small. lia. }
    rewrite Hx.
    pose proof (decimal_value_from_ge (n * 10 + (c - 48)) ds ltac:(lia) Hds) as Hge.
    fold (decimal_value_from (n * 10 + (c - 48)) ds).
    unfold uint64_max in *.
    change (18446744073709551615 / 10) with 1844674407370955161.
    destruct (Z.gtb_spec n 1844674407370955161).
    { destruct (Z.leb_spec (decimal_value_from (n * 10 + (c - 48)) ds) 18446744073709551615); [lia | reflexivity]. }
    destruct (Z.gtb_spec (n * 10) (18446744073709551615 - (c - 48))).
    { destruct (Z.leb_spec (decimal_value_from (n * 10 + (c - 48)) ds) 18446744073709551615); [lia | reflexivity]. }
    apply IH. lia.
Qed.

Lemma try_string_to_uinteger_spec digits :
  all_digits digits ->
  try_string_to_uinteger digits =
  if decimal_value digits <=? uint64_max then Some (decimal_value digits) else None.
Proof.
  intro H. apply try_string_to_uinteger_loop_spec; [exact H | unfold uint64_max; lia].
Qed.

Lemma try_string_to_integer_neg_loop_spec digits :
  all_digits digits ->
  forall n, int64_min <= n <= 0 ->
    try_string_to_integer_neg_loop digits n =
    if decimal_value_from (- n) digits <=? - int64_min
    then Some (- decimal_value_from (- n) digits) else None.
Proof.
  induction 1 as [| c ds Hc Hds IH]; intros n Hn; cbn [try_string_to_integer_neg_loop decimal_value_from fold_left].
  - destruct (Z.leb_spec (- n) (- int64_min)); [f_equal; lia | lia].
  - apply is_digit_range in Hc.
    pose proof (decimal_value_from_ge (- n * 10 + (c - 48)) ds ltac:(lia) Hds) as Hge.
    fold (decimal_value_from (- n * 10 + (c - 48)) ds).
    unfold int64_min in *.
    change (Z.quot (-9223372036854775808) 10) with (-922337203685477580).
    destruct (Z.ltb_spec n (-922337203685477580)).
    { destruct (Z.leb_spec (decimal_value_from (- n * 10 + (c - 48)) ds) (- -9223372036854775808)); [lia | reflexivity]. }
    destruct (Z.ltb_spec (n * 10) (-9223372036854775808 + (c - 48))).
    { destruct (Z.leb_spec (decimal_value_from (- n * 10 + (c - 48)) ds) (- -9223372036854775808)); [lia | reflexivity]. }
    rewrite IH by lia.
    replace (- (n * 10 - (c - 48))) with (- n * 10 + (c - 48)) by lia.
    reflexivity.
Qed.

Lemma try_string_to_integer_neg_spec digits :
  all_digits digits ->
  try_string_to_integer true digits =
  if decimal_value digits <=? - int64_min then Some (- decimal_value digits) else None.
Proof.
  intro H. unfold try_string_to_integer.
  rewrite try_string_to_integer_neg_loop_spec by (auto; unfold int64_min; lia).
  reflexivity.
Qed.

Lemma case_start_digit19 c rest s :
  is_digit19 c = true ->
  case_start c rest s =
  (handler begin_json ;; string_buffer_push_back c ;;
   assign_state parse_state.integer ;; consume rest) s.
Proof. intro H. digit19_cases c H; reflexivity. Qed.

Lemma parse_number_from_integer_digit c rest s :
  is_digit c = true ->
  parse_number_from parse_state.integer (c :: rest) s =
  (take_char c rest ;; parse_number_from parse_state.integer rest) s.
Proof. intro H. digit_cases c H; reflexivity. Qed.

(** The label [integer] takes every digit of the input and stops at its end. *)
Lemma parse_number_from_integer_digits digits :
  all_digits digits ->
  forall s, exists s',
    parse_number_from parse_state.integer digits s = Returned tt s' /\
    string_buffer_ s' = string_buffer_ s ++ digits /\
    state_ s' = parse_state.integer /\
    p_ s' = match digits with [] => p_ s | _ => [] end /\
    handler_ s' = handler_ s /\
    err_handler_ s' = err_handler_ s /\
    is_negative_ s' = is_negative_ s /\
    state_stack_ s' = state_stack_ s /\
    ec s' = ec s.
Proof.
  induction 1 as [| c ds Hc Hds IH]; intro s.
  - eexists. split; [reflexivity|]. cbn. rewrite app_nil_r. repeat split.
  - rewrite parse_number_from_integer_digit by exact Hc.
    unfold bind at 1.
    destruct (IH (set_column_ (wrap_size_t (column_ s + 1)) (set_p_ ds (set_string_buffer_ (string_buffer_ s ++ [c]) s))))
      as (s' & E & Hb & Hst & Hp & Hh & He & Hn & Hk & Hec).
    exists s'. split.
    { exact E. }
    cbn in Hb, Hp, Hh, He, Hn, Hk, Hec.
    rewrite Hb, <- app_assoc. repeat split; auto.
    destruct ds; auto.
Qed.

Lemma case_start_zero rest s :
  case_start ch_0 rest s =
  (handler begin_json ;; string_buffer_push_back ch_0 ;;
   assign_state parse_state.zero ;; consume rest) s.
Proof. reflexivity. Qed.

Lemma case_start_minus rest s :
  case_start ch_minus rest s =
  (handler begin_json ;; modify (set_is_negative_ true) ;;
   assign_state parse_state.minus ;; consume rest) s.
Proof. reflexivity. Qed.

(** The first turn of the loop of [parse] in state [start]. *)
Lemma feed_first_turn fuel c rest s :
  state_ s = parse_state.start ->
  feed (S fuel) (c :: rest) s =
  (case_start c rest ;; unless_ec (parse_loop fuel))
    (set_ec None (set_p_ (c :: rest) (set_begin_input_ (c :: rest) s))).
Proof.
  intro Hst. unfold feed, parse, bind at 1 2, set_source, modify.
  rewrite parse_loop_turn with (c := c) (rest := rest);
    [| reflexivity | cbn; rewrite Hst; discriminate].
  destruct s as [h e cp cp2 buf neg ln col depth maxd prec bi p st stk err].
  cbn [state_] in Hst. subst st. reflexivity.
Qed.

(** Feeding the digits of an integer literal to a parser in state [start]
    appends them to the buffer and leaves the state [zero] or [integer]. *)
Lemma feed_integer_literal digits fuel s0 :
  integer_literal digits -> (2 <= fuel)%nat ->
  state_ s0 = parse_state.start ->
  exists s,
    feed fuel digits s0 = Returned tt s /\
    handler_ s = handler_ s0 ++ [begin_json] /\
    err_handler_ s = err_handler_ s0 /\
    string_buffer_ s = string_buffer_ s0 ++ digits /\
    is_negative_ s = is_negative_ s0 /\
    (state_ s = parse_state.zero \/ state_ s = parse_state.integer) /\
    state_stack_ s = state_stack_ s0 /\ ec s = None /\ p_ s = [].
Proof.
  intros Hlit Hfuel Hst. destruct fuel as [| [| fuel]]; try lia.
  destruct Hlit as [-> | (c & rest & -> & Hc & Hrest)];
    rewrite feed_first_turn by exact Hst; unfold bind at 1;
    destruct s0 as [h e cp cp2 buf neg ln col depth maxd prec bi p st stk err];
    cbn [state_] in Hst; subst st.
  - rewrite case_start_zero. exec.
    eexists. split; [apply parse_loop_nil; reflexivity|].
    cbn. repeat split; auto.
  - rewrite case_start_digit19 by exact Hc.
    exec.
    destruct rest as [| c' rest'].
    + eexists. split; [apply parse_loop_nil; reflexivity|]. cbn. repeat split; auto.
    + rewrite parse_loop_turn with (c := c') (rest := rest') by (reflexivity || discriminate).
      unfold bind at 1, parse_switch, bind at 1, gets.
      cbn [state_]. unfold parse_number, bind at 1 2, gets. cbn [state_ p_].
      match goal with |- context [parse_number_from _ _ ?s0] =>
        destruct (parse_number_from_integer_digits (c' :: rest') Hrest s0)
          as (s' & E & Hb & Hst & Hp & Hh & He & Hn & Hk & Hec) end.
      rewrite E. unfold unless_ec. rewrite Hec. cbn [ec].
      rewrite parse_loop_nil by exact Hp.
      exists s'. split; [reflexivity|].
      cbn in Hb, Hh, He, Hn, Hk, Hec. rewrite <- app_assoc in Hb.
      repeat split; auto.
Qed.

(** What [end_parse] does with a buffered integer below [root]. *)
Lemma end_parse_integer s stack :
  state_stack_ s = parse_state.root :: stack ->
  state_ s = parse_state.zero \/ state_ s = parse_state.integer ->
  end_parse s =
  match (if is_negative_ s
         then try_string_to_integer true (string_buffer_ s)
         else try_string_to_uinteger (string_buffer_ s)),
        str_to_double (string_buffer_ s) (Z.of_nat (length (string_buffer_ s)))
  with
  | Some v, _ =>
      (modify (set_ec None) ;;
       handler (if is_negative_ s then integer_value v else uinteger_value v) ;;
       assign_state parse_state.done ;; handler end_json ;; clear_number) s
  | None, Some d =>
      (modify (set_ec None) ;;
       handler (double_value (if is_negative_ s then neg_double d else d)
                  (wrap_uint8 (Z.of_nat (length (string_buffer_ s))))) ;;
       assign_state parse_state.done ;; handler end_json ;; clear_number) s
  | None, None =>
      if policy json_parser_errc.invalid_number (line_ s) (column_ s)
      then (modify (set_ec None) ;;
            error_and_return json_parser_errc.invalid_number) s
      else (modify (set_ec None) ;;
            err_handler_error json_parser_errc.invalid_number ;;
            handler null_value ;;
            assign_state parse_state.done ;; handler end_json ;; clear_number) s
  end.
Proof.
  destruct s as [h e cp cp2 buf neg ln col depth maxd prec bi p st stk err].
  cbn [state_stack_ state_ is_negative_ string_buffer_ line_ column_].
  intros -> [-> | ->]; destruct neg; exec; eval_eqb;
    repeat match goal with
           | |- context [match ?x with _ => _ end] =>
               lazymatch x with
               | try_string_to_integer _ _ => destruct x
               | try_string_to_uinteger _ => destruct x
               | str_to_double _ _ => destruct x
               | policy _ _ _ => destruct x
               end
           end; reflexivity.
Qed.

Lemma integer_literal_all_digits digits :
  integer_literal digits -> all_digits digits.
Proof.
  intros [-> | (c & rest & -> & Hc & Hrest)].
  - repeat constructor.
  - constructor; [| exact Hrest].
    apply is_digit_range. apply is_digit19_range in Hc. lia.
Qed.

Lemma parse_document_after_feed fuel text s0 s :
  feed fuel text s0 = Returned tt s -> ec s = None ->
  parse_document fuel text s0 = end_parse s.
Proof.
  intros E Hec. unfold parse_document, parse_chunks, bind. rewrite E.
  unfold unless_ec. rewrite Hec. reflexivity.
Qed.

(** ** C4: the error code and the answers of the policy *)

Lemma accounted_refl s : accounted s s.
Proof. exists []. rewrite app_nil_r. auto. Qed.

Lemma accounted_trans s1 s2 s3 :
  accounted s1 s2 -> accounted s2 s3 -> accounted s1 s3.
Proof.
  intros (n1 & E1 & H1) (n2 & E2 & H2).
  exists (n1 ++ n2). split.
  - rewrite E2, E1, app_assoc. reflexivity.
  - destruct H2 as [H2 | (r & Hr & He & Hj)].
    + destruct H1 as [H1 | (r & Hr & He & Hj)].
      * left. congruence.
      * right. exists r. repeat split; auto.
        -- apply in_or_app. auto.
        -- congruence.
    + right. exists r. repeat split; auto. apply in_or_app. auto.
Qed.

Lemma accounted_frame s s' :
  err_handler_ s' = err_handler_ s -> ec s' = ec s -> accounted s s'.
Proof. intros E1 E2. exists []. rewrite app_nil_r. auto. Qed.

Lemma accounts_ret {A} (a : A) : accounts (ret a).
Proof. intro s. apply accounted_refl. Qed.

Lemma accounts_bind {A B} (m : M A) (k : A -> M B) :
  accounts m -> (forall a, accounts (k a)) -> accounts (bind m k).
Proof.
  intros Hm Hk s. unfold bind. specialize (Hm s).
  destruct (m s) as [a s1 | | ]; auto.
  specialize (Hk a s1). destruct (k a s1); auto.
  eapply accounted_trans; eauto.
Qed.

Lemma accounts_gets {A} (proj : basic_json_parser -> A) : accounts (gets proj).
Proof. intro s. apply accounted_refl. Qed.

Lemma accounts_modify upd :
  (forall s, err_handler_ (upd s) = err_handler_ s /\ ec (upd s) = ec s) ->
  accounts (modify upd).
Proof. intros H s. apply accounted_frame; apply H. Qed.

Lemma accounts_assert_false {A} : accounts (@JSONCONS_ASSERT_false _ A).
Proof. intro s. exact I. Qed.

Lemma accounts_unless_ec m : accounts m -> accounts (unless_ec m).
Proof.
  intros H s. unfold unless_ec. destruct (ec s); [apply accounted_refl | apply H].
Qed.

Lemma accounts_err_handler_error k : accounts (err_handler_error k).
Proof. intro s. exists [mk_report false k (line_ s) (column_ s)]. auto. Qed.

Lemma accounts_error_or_return k rest :
  accounts rest -> accounts (error_or_return k rest).
Proof.
  intros H s. unfold error_or_return, bind, err_handler_error.
  destruct (policy k (line_ s) (column_ s)) eqn:E.
  - exists [mk_report false k (line_ s) (column_ s)]. split; [reflexivity|].
    right. eexists. split; [left; reflexivity|]. split; [reflexivity|].
    right. left. exact E.
  - match goal with |- match rest ?x with _ => _ end => specialize (H x); destruct (rest x); auto;
      eapply accounted_trans; [|exact H] end.
    exists [mk_report false k (line_ s) (column_ s)]. auto.
Qed.

Lemma accounts_error_or_return_at k st rest :
  accounts rest -> accounts (error_or_return_at k st rest).
Proof.
  intros H s. unfold error_or_return_at, bind, err_handler_error.
  destruct (policy k (line_ s) (column_ s)) eqn:E.
  - exists [mk_report false k (line_ s) (column_ s)]. split; [reflexivity|].
    right. eexists. split; [left; reflexivity|]. split; [reflexivity|].
    right. left. exact E.
  - match goal with |- match rest ?x with _ => _ end => specialize (H x); destruct (rest x); auto;
      eapply accounted_trans; [|exact H] end.
    exists [mk_report false k (line_ s) (column_ s)]. auto.
Qed.

Lemma accounts_fatal_and_return k : accounts (fatal_and_return k).
Proof.
  intro s. exists [mk_report true k (line_ s) (column_ s)]. split; [reflexivity|].
  right. eexists. split; [left; reflexivity|]. split; [reflexivity|]. left. reflexivity.
Qed.

Lemma accounts_error_and_return k :
  written_regardless k = true -> accounts (error_and_return k).
Proof.
  intros Hk s. exists [mk_report false k (line_ s) (column_ s)]. split; [reflexivity|].
  right. eexists. split; [left; reflexivity|]. split; [reflexivity|]. right. right. exact Hk.
Qed.


Create HintDb accounts discriminated.

Ltac head_of t :=
  lazymatch t with
  | ?g _ => head_of g
  | _ => t
  end.

Ltac accounts_step :=
  cbv beta iota zeta;
  lazymatch goal with
  | |- accounts (ret _) => apply accounts_ret
  | |- accounts (bind _ _) => apply accounts_bind; [ | intro ]
  | |- accounts (gets _) => apply accounts_gets
  | |- accounts (modify _) =>
      apply accounts_modify; intro; split; reflexivity
  | |- accounts JSONCONS_ASSERT_false => apply accounts_assert_false
  | |- accounts (unless_ec _) => apply accounts_unless_ec
  | |- accounts (err_handler_error _) => apply accounts_err_handler_error
  | |- accounts (error_or_return _ _) => apply accounts_error_or_return
  | |- accounts (error_or_return_at _ _ _) =>
      apply accounts_error_or_return_at
  | |- accounts (fatal_and_return _) => apply accounts_fatal_and_return
  | |- accounts (error_and_return _) =>
      apply accounts_error_and_return; reflexivity
  | |- accounts (match ?x with _ => _ end) => destruct x
  | |- accounts ?m =>
      first [ assumption
            | solve [ auto 1 with accounts nocore ]
            | let h := head_of m in unfold h ]
  end.

Ltac accounts_auto := repeat accounts_step.

Lemma accounts_handler e : accounts (handler e).
Proof. accounts_auto. Qed.
Lemma accounts_pop_state : accounts pop_state.
Proof. intro s. unfold pop_state. destruct (state_stack_ s); auto. apply accounted_frame; reflexivity. Qed.
Lemma accounts_parent : accounts parent.
Proof. intro s. unfold parent. destruct (state_stack_ s); auto. apply accounted_refl. Qed.
Lemma accounts_err_handler_fatal_error k : accounts (err_handler_fatal_error k).
Proof. intro s. exists [mk_report true k (line_ s) (column_ s)]. auto. Qed.
#[local] Hint Resolve accounts_handler accounts_pop_state accounts_parent accounts_err_handler_fatal_error : accounts.

Lemma accounts_skip_whitespace_from input : accounts (skip_whitespace_from input).
Proof. induction input; cbn [skip_whitespace_from]; accounts_auto. Qed.
#[local] Hint Resolve accounts_skip_whitespace_from : accounts.

Lemma accounts_skip_whitespace : accounts skip_whitespace.
Proof. accounts_auto. Qed.
Lemma accounts_do_begin_object : accounts do_begin_object.
Proof. accounts_auto. Qed.
Lemma accounts_do_end_object : accounts do_end_object.
Proof. accounts_auto. Qed.
Lemma accounts_do_begin_array : accounts do_begin_array.
Proof. accounts_auto. Qed.
Lemma accounts_do_end_array : accounts do_end_array.
Proof. accounts_auto. Qed.
#[local] Hint Resolve accounts_skip_whitespace accounts_do_begin_object accounts_do_end_object accounts_do_begin_array accounts_do_end_array : accounts.

Lemma accounts_end_fraction_value : accounts end_fraction_value.
Proof. accounts_auto. Qed.
Lemma accounts_end_integer_value : accounts end_integer_value.
Proof. accounts_auto. Qed.
Lemma accounts_end_string_value text : accounts (end_string_value text).
Proof. accounts_auto. Qed.
Lemma accounts_begin_member_or_element : accounts begin_member_or_element.
Proof. accounts_auto. Qed.
Lemma accounts_append_codepoint c : accounts (append_codepoint c).
Proof. accounts_auto. Qed.
Lemma accounts_append_second_codepoint c : accounts (append_second_codepoint c).
Proof. accounts_auto. Qed.
Lemma accounts_translate_conv_errc e : accounts (translate_conv_errc e).
Proof. accounts_auto. Qed.
#[local] Hint Resolve accounts_end_fraction_value accounts_end_integer_value accounts_end_string_value
  accounts_begin_member_or_element accounts_append_codepoint accounts_append_second_codepoint accounts_translate_conv_errc : accounts.

Lemma accounts_parse_true rest : accounts (parse_true rest).
Proof. accounts_auto. Qed.
Lemma accounts_parse_null rest : accounts (parse_null rest).
Proof. accounts_auto. Qed.
Lemma accounts_parse_false rest : accounts (parse_false rest).
Proof. accounts_auto. Qed.
#[local] Hint Resolve accounts_parse_true accounts_parse_null accounts_parse_false : accounts.

Lemma accounts_parse_number_from input : forall label, accounts (parse_number_from label input).
Proof.
  induction input as [| c rest IH]; intro label; destruct label; cbn [parse_number_from];
    accounts_auto.
Qed.

#[local] Hint Resolve accounts_parse_number_from : accounts.

Lemma accounts_parse_number : accounts parse_number.
Proof. accounts_auto. Qed.

Lemma accounts_validated span rest : accounts rest -> accounts (validated span rest).
Proof. intro H. accounts_auto. Qed.

Lemma accounts_parse_string_from input :
  forall label span, accounts (parse_string_from label span input).
Proof.
  induction input as [| c rest IH]; intros label span; destruct label;
    cbn [parse_string_from]; accounts_auto.
Qed.
#[local] Hint Resolve accounts_parse_number accounts_parse_string_from : accounts.

Lemma accounts_parse_string : accounts parse_string.
Proof. accounts_auto. Qed.
#[local] Hint Resolve accounts_parse_string : accounts.

Lemma accounts_parse_switch c rest : accounts (parse_switch c rest).
Proof. unfold parse_switch. accounts_auto. Qed.
#[local] Hint Resolve accounts_parse_switch : accounts.

Lemma accounts_parse_loop fuel : accounts (parse_loop fuel).
Proof.
  induction fuel as [| fuel IH]; intro s; cbn [parse_loop];
    destruct (p_ s) as [| c rest]; try apply accounted_refl;
    destruct (state_ s); try apply accounted_refl; try exact I;
    (assert (H : accounts (parse_switch c rest ;; unless_ec (parse_loop fuel)))
       by accounts_auto; exact (H s)).
Qed.

Lemma accounts_check_done_from input : accounts (check_done_from input).
Proof. induction input; cbn [check_done_from]; accounts_auto. Qed.
#[local] Hint Resolve accounts_parse_loop accounts_check_done_from : accounts.





(** *** The recoveries *)






(** ** C1 and C2: the state [start] *)

Lemma skip_whitespace_from_events input :
  forall s, exists s',
    skip_whitespace_from input s = Returned tt s' /\ handler_ s' = handler_ s.
Proof.
  induction input as [| c rest IH]; intro s; cbn [skip_whitespace_from].
  - eexists. split; reflexivity.
  - destruct ((c =? 32) || (c =? 9)).
    + unfold bind, advance_p, incr_column, modify.
      match goal with |- context [skip_whitespace_from rest ?s0] =>
        destruct (IH s0) as (s' & E & H) end.
      exists s'. split; [exact E | exact H].
    + eexists. split; reflexivity.
Qed.

(** A turn of the loop in state [start] calls [begin_json] before anything
    else, whatever the character is. *)
Lemma start_turn_gives_begin_json c rest s s' :
  state_ s = parse_state.start ->
  parse_switch c rest s = Returned tt s' ->
  exists more, handler_ s' = handler_ s ++ begin_json :: more.
Proof.
  destruct s as [h e cp cp2 buf neg ln col depth maxd prec bi p st stk err].
  cbn [state_ handler_]. intros ->.
  unfold parse_switch, bind at 1, gets. cbn [state_].
  unfold case_start, bind at 1, handler at 1, modify.
  cbn [handler_ set_handler_ err_handler_ cp_ cp2_ string_buffer_ is_negative_ line_ column_
       nesting_depth_ max_depth_ precision_ begin_input_ p_ state_ state_stack_ ec].
  repeat match goal with
         | |- context [if ?b then _ else _] =>
             lazymatch b with
             | context [c] => destruct b
             end
         end.
  all: try (unfold skip_whitespace, bind, gets; cbn [p_];
            match goal with |- context [skip_whitespace_from ?i ?s0] =>
              destruct (skip_whitespace_from_events i s0) as (s1 & E & H) end;
            rewrite E; intros [= <-]; rewrite H; cbn [handler_];
            eexists; reflexivity).
  all: unfold do_begin_object, do_begin_array, parse_null, parse_true, parse_false.
  all: try (destruct rest as [| c1 [| c2 [| c3 [| c4 rest]]]]).
  all: exec.
  all: repeat match goal with
         | |- context [if ?b then _ else _] => destruct b
         | |- context [match ?b with _ => _ end] =>
             lazymatch b with
             | policy _ _ _ => destruct b
             | _ => is_var b; destruct b
             end
         end.
  all: try discriminate.
  all: intros [= <-]; cbn [handler_]; rewrite <- ?app_assoc; cbn [app]; eexists; reflexivity.
Qed.

(** ** C5: end_parse *)

(** C5, as amended. [end_parse] flushes a pending number exactly when the
    state is [zero], [integer], [fraction2] or [exp3] and the top of the
    stack is [root]. Then the sink receives the value of the buffer, as
    [end_integer_value] gives it for [zero] and [integer] and
    [end_fraction_value] for [fraction2] and [exp3], and [end_json]; the
    state becomes [done], the buffer is cleared, and nothing is reported.
    When the conversion fails the policy is asked about [invalid_number]:
    on abort the error code is written, the sink receives nothing and the
    state and the buffer stay; on continue the sink receives [null_value]
    and [end_json] and the state becomes [done]. In no case of a flush is
    [unexpected_eof] reported. In every other case, in particular below
    an array or an object, the sink receives nothing and the buffer is
    kept, a state [cr] or [lf] is replaced by the state saved on top of
    the stack, and [unexpected_eof] is reported exactly when the state
    then is neither [done] nor [start]; it is written when the policy
    answers abort. *)
Theorem end_parse_spec s pa stack :
  state_stack_ s = pa :: stack ->
  exists s',
    end_parse s = Returned tt s' /\
    if pending_number (state_ s) && is_root pa then
      ~ In json_parser_errc.unexpected_eof (map kind (new_reports s s')) /\
      state_stack_ s' = pa :: stack /\
      match pending_value s with
      | Some e =>
          new_events s s' = [e; end_json] /\ new_reports s s' = [] /\
          ec s' = None /\ state_ s' = parse_state.done /\
          string_buffer_ s' = [] /\ is_negative_ s' = false
      | None =>
          new_reports s s' =
            [mk_report false json_parser_errc.invalid_number
               (line_ s) (column_ s)] /\
          if policy json_parser_errc.invalid_number (line_ s) (column_ s)
          then
            ec s' = Some json_parser_errc.invalid_number /\
            new_events s s' = [] /\ state_ s' = state_ s /\
            string_buffer_ s' = string_buffer_ s
          else
            ec s' = None /\ new_events s s' = [null_value; end_json] /\
            state_ s' = parse_state.done /\
            string_buffer_ s' = [] /\ is_negative_ s' = false
      end
    else
      new_events s s' = [] /\ string_buffer_ s' = string_buffer_ s /\
      state_ s' = resumed_state (state_ s) pa /\
      state_stack_ s' = resumed_stack (state_ s) (pa :: stack) /\
      new_reports s s' =
        (if done_or_start (resumed_state (state_ s) pa) then []
         else [mk_report false json_parser_errc.unexpected_eof (line_ s) (column_ s)]) /\
      ec s' =
        (if done_or_start (resumed_state (state_ s) pa) then None
         else if policy json_parser_errc.unexpected_eof (line_ s) (column_ s)
              then Some json_parser_errc.unexpected_eof else None).
Proof.
  destruct s as [h e cp cp2 buf neg ln col depth maxd prec bi p st stk err].
  cbn [state_stack_ state_ is_negative_ string_buffer_ line_ column_].
  intros ->.
  unfold new_reports, new_events, is_root, done_or_start, resumed_state,
    resumed_stack, pending_value.
  cbn [state_stack_ state_ is_negative_ string_buffer_ precision_ line_
       column_].
  unfold end_parse. exec.
  destruct (parse_state.eqb pa parse_state.root) eqn:Hroot;
    [apply parse_state.internal_enum_dec_bl in Hroot; subst pa; destruct st
    |destruct st; cbv beta iota;
     try match goal with
         | |- context [parse_state.eqb pa parse_state.done] =>
             destruct pa; try discriminate Hroot
         end];
    cbv beta iota delta [pending_number andb]; eval_eqb;
    try destruct neg;
    repeat (match goal with
            | |- context [match ?x with _ => _ end] =>
                lazymatch x with
                | try_string_to_integer _ _ => destruct x
                | try_string_to_uinteger _ => destruct x
                | str_to_double _ _ => destruct x
                | policy _ _ _ => destruct x
                end
            end; cbv beta iota; cbn [option_map]);
    (eexists; split; [reflexivity|]);
    cbn [state_stack_ state_ is_negative_ string_buffer_ handler_
         err_handler_ ec tl];
    rewrite <- ?app_assoc; cbn [app];
    rewrite ?skipn_app_exact, ?skipn_exact;
    cbn [map In];
    repeat split; auto; try tauto; try (intros [H|[]]; discriminate H).
Qed.

(** ** C7: a leading zero *)

(** The closing quote after a span that the validation accepts. *)
Lemma parse_string_from_closing_quote span rest s :
  fst (validate span) = unicons.ok ->
  parse_string_from parse_state.string_u1 span (ch_dquote :: rest) s =
  (buffer <- gets string_buffer_ ;;
   (match buffer with
    | [] => end_string_value span
    | _ =>
        string_buffer_append span ;;
        text <- gets string_buffer_ ;;
        end_string_value text ;;
        string_buffer_clear
    end) ;;
   unless_ec (add_column (Z.of_nat (length span) + 1) ;; advance_p rest)) s.
Proof.
  intro H. cbn [parse_string_from].
  change (JSONCONS_ILLEGAL_CONTROL_CHARACTER 34) with false.
  change (34 =? 13) with false. change (34 =? 10) with false.
  change (34 =? 9) with false. change (34 =? 92) with false.
  change (34 =? 34) with true. cbv iota.
  unfold validated. destruct (validate span) as [e n]. cbn [fst] in H. subst e.
  reflexivity.
Qed.

(** A character of a string that is none of the special ones. *)
Lemma parse_string_from_plain span c rest s :
  JSONCONS_ILLEGAL_CONTROL_CHARACTER c = false ->
  (c =? ch_cr) = false -> (c =? ch_lf) = false -> (c =? ch_tab) = false ->
  (c =? ch_backslash) = false -> (c =? ch_dquote) = false ->
  parse_string_from parse_state.string_u1 span (c :: rest) s =
  (advance_p rest ;;
   parse_string_from parse_state.string_u1 (span ++ [c]) rest) s.
Proof.
  intros H1 H2 H3 H4 H5 H6.
  destruct rest; cbn [parse_string_from];
    rewrite H1, H2, H3, H4, H5, H6; reflexivity.
Qed.

(** C7: the text [{"a":01}], that is the code units 123 34 97 34 58 48 49
    125, given to a new parser whose validation accepts the span [a]. The
    parser calls the policy with [leading_zero] at line 1, column 7, writes
    [leading_zero] whatever the answer is, so also when the policy aborts
    on every error, and returns; the sink has been told the start of the
    document, the start of the object and the name, and no number. *)
Theorem leading_zero_scenario (fuel : nat) :
  fst (validate [ch_a]) = unicons.ok ->
  (6 <= fuel)%nat ->
  exists s,
    feed fuel
      [ch_lbrace; ch_dquote; ch_a; ch_dquote; ch_colon; ch_0; 49; ch_rbrace]
      new_parser = Returned tt s /\
    ec s = Some json_parser_errc.leading_zero /\
    err_handler_ s = [mk_report false json_parser_errc.leading_zero 1 7] /\
    line_ s = 1 /\ column_ s = 7 /\
    handler_ s = [begin_json; begin_object; name [ch_a]] /\
    Forall (fun e => is_number_event e = false) (handler_ s).
Proof.
  intros Hvalid Hfuel.
  do 6 (destruct fuel as [| fuel]; [lia |]). clear Hfuel.
  unfold feed, parse, bind at 1 2.
  unfold set_source, modify.
  turn. rewrite unless_ec_clear by reflexivity.
  turn. rewrite unless_ec_clear by reflexivity.
  erewrite parse_loop_turn by (reflexivity || discriminate).
  unfold bind at 1, parse_switch, bind at 1, gets. cbn [state_].
  unfold parse_string, bind at 1 2, gets. cbn [state_ p_].
  rewrite parse_string_from_plain by reflexivity.
  unfold bind at 1, advance_p at 1, modify at 1. cbn [app].
  rewrite parse_string_from_closing_quote by exact Hvalid.
  exec. cbv beta iota delta [end_string_value]. exec.
  turn. rewrite unless_ec_clear by reflexivity.
  turn. rewrite unless_ec_clear by reflexivity.
  turn. erewrite unless_ec_set by reflexivity.
  eexists. split; [reflexivity|].
  cbn. repeat split; auto.
Qed.

(** ** C9: empty input *)

(** C9, as amended: after empty input the state is still [start], which
    the last test of [end_parse] exempts: [end_parse] calls neither the
    sink nor the policy and leaves the error code clear. It is
    [check_done], called next, that reports [unexpected_eof], at line 1,
    column 1, and writes it when the policy answers abort. *)
Theorem empty_input_spec (fuel : nat) :
  exists s1 s2 s3,
    feed fuel [] new_parser = Returned tt s1 /\
    state_ s1 = parse_state.start /\
    end_parse s1 = Returned tt s2 /\
    handler_ s2 = [] /\ err_handler_ s2 = [] /\ ec s2 = None /\
    check_done s2 = Returned tt s3 /\
    err_handler_ s3 =
      [mk_report false json_parser_errc.unexpected_eof 1 1] /\
    ec s3 = (if policy json_parser_errc.unexpected_eof 1 1
             then Some json_parser_errc.unexpected_eof else None).
Proof.
  destruct (policy json_parser_errc.unexpected_eof 1 1) eqn:Hpolicy;
    (eexists; eexists; eexists;
     split;
     [unfold feed, bind, set_source, modify, parse;
      apply parse_loop_nil; reflexivity|];
     split; [reflexivity|];
     split; [reflexivity|];
     split; [reflexivity|]; split; [reflexivity|]; split; [reflexivity|];
     unfold check_done; exec; cbv beta iota delta [check_done_from];
     rewrite Hpolicy;
     split; [reflexivity|]; split; reflexivity).
Qed.

(** ** C6 and C8: what the depth test and the hex digits report *)

(** [do_begin_array] and [do_begin_object] call the policy exactly when
    the depth they have just incremented has reached [max_depth_]. *)
Lemma do_begin_reports_at_cap (s : basic_json_parser) :
  (exists s', do_begin_array s = Returned tt s' /\
     new_reports s s' =
     if nesting_depth_ s + 1 >=? max_depth_ s
     then [mk_report false json_parser_errc.max_depth_exceeded
             (line_ s) (column_ s)]
     else []) /\
  (exists s', do_begin_object s = Returned tt s' /\
     new_reports s s' =
     if nesting_depth_ s + 1 >=? max_depth_ s
     then [mk_report false json_parser_errc.max_depth_exceeded
             (line_ s) (column_ s)]
     else []).
Proof.
  destruct s as [h e cp cp2 buf neg ln col depth maxd prec bi p st stk err].
  unfold new_reports, do_begin_array, do_begin_object. exec.
  split; destruct (depth + 1 >=? maxd); try destruct (policy _ ln col);
    (eexists; split; [reflexivity|]); cbn [err_handler_];
    rewrite ?skipn_app_exact, ?skipn_exact; reflexivity.
Qed.

(** A character that is no hex digit is reported by [append_codepoint] and
    by [append_second_codepoint] as [expected_value]; the report of
    [invalid_hex_escape_sequence] in [append_to_codepoint] is never
    reached from them. *)
Lemma append_codepoint_reports (c : Z) (s : basic_json_parser) :
  (exists s',
     append_codepoint c s = Returned tt s' /\
     new_reports s s' =
     if is_hex_digit c then []
     else [mk_report false json_parser_errc.expected_value
             (line_ s) (column_ s)]) /\
  (exists s',
     append_second_codepoint c s = Returned tt s' /\
     new_reports s s' =
     if is_hex_digit c then []
     else [mk_report false json_parser_errc.expected_value
             (line_ s) (column_ s)]).
Proof.
  destruct s as [h e cp cp2 buf neg ln col depth maxd prec bi p st stk err].
  unfold new_reports, append_codepoint, append_second_codepoint,
    append_to_codepoint, is_hex_digit, is_digit.
  rewrite !Z.geb_leb.
  split;
    (destruct (48 <=? c) eqn:H1, (c <=? 57) eqn:H2; cbn [andb orb]; exec;
     try (eexists; split; [reflexivity|]; cbn [err_handler_];
          rewrite ?skipn_exact; reflexivity);
     destruct (97 <=? c) eqn:H3, (c <=? 102) eqn:H4; cbn [andb orb]; exec;
     try (eexists; split; [reflexivity|]; cbn [err_handler_];
          rewrite ?skipn_exact; reflexivity);
     destruct (65 <=? c) eqn:H5, (c <=? 70) eqn:H6; cbn [andb orb]; exec;
     try (eexists; split; [reflexivity|]; cbn [err_handler_];
          rewrite ?skipn_exact; reflexivity);
     destruct (policy _ ln col);
     (eexists; split; [reflexivity|]); cbn [err_handler_];
     rewrite ?skipn_app_exact; reflexivity).
Qed.

(** ** C10: reset *)

(** C10: [reset] leaves the stack with the [root] sentinel alone, the state
    [start], line and column 1 and depth 0, and touches nothing else: the
    buffer, the sign, the precision, the two code points and the input span
    are those from before. So the digits of a number that was in progress
    are still in the buffer when the next document is parsed, and the
    number that this document gives starts with them. *)
Theorem reset_spec (s : basic_json_parser) :
  exists s1,
    reset s = Returned tt s1 /\
    state_stack_ s1 = [parse_state.root] /\
    state_ s1 = parse_state.start /\
    line_ s1 = 1 /\ column_ s1 = 1 /\ nesting_depth_ s1 = 0 /\
    string_buffer_ s1 = string_buffer_ s /\
    is_negative_ s1 = is_negative_ s /\
    precision_ s1 = precision_ s /\
    cp_ s1 = cp_ s /\ cp2_ s1 = cp2_ s /\
    begin_input_ s1 = begin_input_ s /\ p_ s1 = p_ s /\
    (forall digits fuel,
       integer_literal digits -> (2 <= fuel)%nat ->
       all_digits (string_buffer_ s) -> is_negative_ s = false ->
       decimal_value (string_buffer_ s ++ digits) <= uint64_max ->
       events_of (parse_document fuel digits s1) =
       Some (handler_ s ++
             [begin_json;
              uinteger_value (decimal_value (string_buffer_ s ++ digits));
              end_json])).
Proof.
  destruct s as [h e cp cp2 buf neg ln col depth maxd prec bi p st stk err].
  eexists. split; [reflexivity|].
  repeat (split; [reflexivity|]).
  cbn [string_buffer_ is_negative_ handler_].
  intros digits fuel Hlit Hfuel Hbuf Hneg Hv.
  match goal with |- context [parse_document _ _ ?s1] =>
    destruct (feed_integer_literal digits fuel s1 Hlit Hfuel eq_refl)
      as (s2 & E & Hh & He & Hb & Hn & Hst & Hk & Hec & Hp) end.
  cbn in Hh, He, Hb, Hn, Hk.
  rewrite (parse_document_after_feed _ _ _ _ E Hec), (end_parse_integer s2 _ Hk Hst).
  rewrite Hn, Hneg, Hb.
  rewrite try_string_to_uinteger_spec
    by (apply Forall_app; split; [exact Hbuf | apply integer_literal_all_digits; exact Hlit]).
  destruct (Z.leb_spec (decimal_value (buf ++ digits)) uint64_max); [| lia].
  exec. cbv beta iota.
  destruct s2 as [h' e' cp' cp2' buf' neg' ln' col' depth' maxd' prec' bi' p' st' stk' err'].
  cbn in Hh. subst h'. cbn. rewrite <- !app_assoc. reflexivity.
Qed.

(** ** skip_whitespace *)

Lemma wrap_size_t_add_l a b :
  wrap_size_t (wrap_size_t a + b) = wrap_size_t (a + b).
Proof. unfold wrap_size_t. apply Zplus_mod_idemp_l. Qed.

Lemma skip_whitespace_from_spec input :
  forall s,
    skip_whitespace_from input s =
    Returned tt
      (match leading_blanks input with
       | O => s
       | n => set_column_ (wrap_size_t (column_ s + Z.of_nat n))
                (set_p_ (skipn n input) s)
       end).
Proof.
  induction input as [| c rest IH]; intro s;
    cbn [skip_whitespace_from leading_blanks].
  - reflexivity.
  - destruct ((c =? 32) || (c =? 9)); [| reflexivity].
    unfold bind, advance_p, incr_column, modify. rewrite IH.
    destruct s as [h e cp cp2 buf neg ln col depth maxd prec bi p st stk err].
    destruct (leading_blanks rest) as [| n];
      cbv beta iota delta [set_column_ set_p_ handler_ err_handler_ cp_ cp2_
        string_buffer_ is_negative_ line_ column_ nesting_depth_ max_depth_
        precision_ begin_input_ p_ state_ state_stack_ ec];
      cbn [skipn]; [reflexivity |].
    rewrite wrap_size_t_add_l.
    do 2 f_equal. f_equal. lia.
Qed.

Lemma skipn_leading_blanks_length input :
  (length (skipn (leading_blanks input) input) <= length input)%nat.
Proof.
  rewrite length_skipn. lia.
Qed.

Lemma skip_whitespace_blank c rest s :
  p_ s = c :: rest -> (c =? ch_space) || (c =? ch_tab) = true ->
  skip_whitespace s =
  Returned tt
    (set_column_
       (wrap_size_t (column_ s + Z.of_nat (S (leading_blanks rest))))
       (set_p_ (skipn (leading_blanks rest) rest) s)).
Proof.
  intros Hp Hc. unfold skip_whitespace, bind, gets.
  rewrite Hp, skip_whitespace_from_spec. cbn [leading_blanks].
  rewrite Hc. reflexivity.
Qed.


Lemma leading_blanks_skipn input :
  leading_blanks (skipn (leading_blanks input) input) = O.
Proof.
  induction input as [| c rest IH]; [reflexivity |].
  cbn [leading_blanks].
  destruct ((c =? 32) || (c =? 9)) eqn:Hc; cbn [skipn]; [exact IH |].
  cbn [leading_blanks]. rewrite Hc. reflexivity.
Qed.

(** X10. [skip_whitespace] moves [p_] over the spaces and tabs in front of
    the input, and over nothing else, adds their number to [column_], and
    leaves the rest of the parser as it is: no event, no report, no
    change of state or line. *)
Theorem skip_whitespace_spec s :
  skip_whitespace s =
  Returned tt
    (match leading_blanks (p_ s) with
     | O => s
     | n => set_column_ (wrap_size_t (column_ s + Z.of_nat n))
              (set_p_ (skipn n (p_ s)) s)
     end) /\
  leading_blanks (skipn (leading_blanks (p_ s)) (p_ s)) = O.
Proof.
  split.
  - unfold skip_whitespace, bind, gets. apply skip_whitespace_from_spec.
  - apply leading_blanks_skipn.
Qed.

(** ** The invariant of the loop *)

Lemma sink_after_app h l :
  sink_after (h ++ l) = fold_left sink_step l (sink_after h).
Proof. apply fold_left_app. Qed.

Lemma length_skipn_blanks (c : Z) (rest : list Z) n :
  (length (skipn (S n) (c :: rest)) <= length rest)%nat.
Proof. cbn [skipn]. rewrite length_skipn. lia. Qed.

Lemma turn_ok_le (n m : nat) s' : (n <= m)%nat -> turn_ok n s' -> turn_ok m s'.
Proof.
  intros Hle (Ho & H). split; [exact Ho |].
  intro Hec. destruct (H Hec) as (Hc & Hp). split; [exact Hc |].
  intro Hm. specialize (Hp Hm). lia.
Qed.


Lemma tidy_string st buffer :
  is_string st = true -> tidy st buffer false = true.
Proof. intro H. unfold tidy. rewrite H. reflexivity. Qed.

Ltac split_ifs_on c :=
  repeat match goal with
         | |- context [if ?b then _ else _] =>
             lazymatch b with
             | context [c] => destruct b eqn:?
             end
         end.

Ltac split_rest :=
  repeat match goal with
         | |- context [if ?b then _ else _] => destruct b eqn:?
         | |- context [match ?b with _ => _ end] =>
             lazymatch b with
             | policy _ _ _ => destruct b eqn:?
             | str_to_double _ _ => destruct b eqn:?
             | try_string_to_integer _ _ => destruct b eqn:?
             | try_string_to_uinteger _ => destruct b eqn:?
             | _ =>
                 is_var b;
                 lazymatch type of b with
                 | list Z => destruct b
                 end
             end
         end.

Ltac projections :=
  cbn [handler_ err_handler_ cp_ cp2_ string_buffer_ is_negative_ line_
       column_ nesting_depth_ max_depth_ precision_ begin_input_ p_ state_
       state_stack_ ec].

Ltac use_facts :=
  repeat match goal with
         | H : is_container ?x = false |- context [is_container ?x] =>
             rewrite H
         | H : is_detour ?x = false |- context [is_detour ?x] =>
             rewrite H
         | H : forall ph, phase_fits ph ?x = after_begin ph
           |- context [phase_fits _ ?x] =>
             rewrite H
         | H : after_begin ?ph = true |- context [after_begin ?ph] =>
             rewrite H
         | H : is_string ?x = true |- context [is_string ?x] =>
             rewrite H
         end.

Ltac norm_stack :=
  unfold containers;
  cbn [resumes is_detour filter is_container well_formed frames phase_fits
       after_begin tidy is_string is_number negb andb];
  use_facts;
  cbn [phase_fits after_begin tidy is_string is_number negb andb].

Ltac norm_stack_in H :=
  unfold containers in H;
  cbn [resumes is_detour filter is_container well_formed frames phase_fits
       after_begin tidy is_string is_number negb andb] in H;
  repeat match goal with
         | H' : is_container ?x = false |- _ =>
             match type of H with
             | context [is_container x] => rewrite H' in H
             end
         end.

Ltac solve_sink Hsink :=
  unfold sink_after in *;
  rewrite ?fold_left_app, Hsink;
  cbn [fold_left sink_step document_step sink_phase open after_begin];
  use_facts;
  cbn [fold_left sink_step document_step sink_phase open after_begin].

Ltac solve_progress :=
  first
    [ intros _; cbn [length]; rewrite ?length_skipn; lia
    | let Hpolicy := fresh "Hpolicy" in
      let Hvalid := fresh "Hvalid" in
      intros [Hpolicy Hvalid];
      repeat match goal with
             | H : policy json_parser_errc.illegal_control_character _ _ = false
               |- _ => rewrite Hpolicy in H; discriminate H
             | H : validate [] = _ |- _ =>
                 rewrite H in Hvalid; discriminate Hvalid
             end ].

Ltac finish_turn Hsink :=
  eexists; split; [reflexivity |];
  unfold turn_ok, in_order, consistent, idle, turns_left;
  projections;
  split;
  [ norm_stack; solve_sink Hsink; eexists; reflexivity
  | let Hec := fresh "Hec" in
    intro Hec;
    first
      [ discriminate Hec
      | split;
        [ split; [ norm_stack; try reflexivity; try assumption
                 | split; [ norm_stack; cbn [length]; try lia
                          | split;
                            [ norm_stack; try reflexivity; try assumption;
                              try (apply tidy_string; assumption)
                            | eexists; split;
                              [ norm_stack; solve_sink Hsink; reflexivity
                              | norm_stack; try reflexivity;
                                try assumption ] ] ] ]
        | solve_progress ] ] ].

Ltac shape_more Hwf :=
  cbn [well_formed frames] in Hwf; try discriminate Hwf;
  repeat match type of Hwf with
         | context [match ?x with _ => _ end] =>
             is_var x; destruct x; try discriminate Hwf;
             cbn [well_formed frames] in Hwf
         end.

(** The stack of a state, as far as [well_formed] tells. *)
Ltac shape Hwf :=
  match type of Hwf with
  | well_formed _ ?stk = true =>
      is_var stk;
      let top := fresh "top" in
      destruct stk as [| top stk]
  end;
  shape_more Hwf.

(** The top of a stack of frames. *)
Ltac top_of_frames Hwf :=
  match type of Hwf with
  | frames ?stk = true =>
      is_var stk;
      let top := fresh "top" in
      destruct stk as [| top stk]; [discriminate Hwf |];
      destruct top; try discriminate Hwf; shape_more Hwf
  end.

Ltac open_consistent s :=
  destruct s as [h e cp cp2 buf neg ln col depth maxd prec bi p st stk err];
  unfold consistent, idle;
  cbn [state_ handler_ state_stack_ nesting_depth_ p_ ec string_buffer_
       is_negative_].

(** What [idle] says of the buffer and of the sign, once the state and the
    top of the stack are known. *)
Ltac use_idle Hidle :=
  norm_stack_in Hidle;
  try match type of Hidle with
      | negb ?n = true => destruct n; [discriminate Hidle | clear Hidle]
      | negb ?n && _ = true =>
          destruct n; [discriminate Hidle |];
          cbn [negb andb] in Hidle;
          match type of Hidle with
          | match ?b with [] => _ | _ :: _ => _ end = true =>
              destruct b; [clear Hidle | discriminate Hidle]
          end
      end.

(** Looking below the top of the stack where the code does. *)
Ltac look_below Hsink :=
  repeat match goal with
         | H : frames ?stk = true
           |- context [match ?stk with [] => _ | _ :: _ => _ end] =>
             top_of_frames H; cbn [filter is_container] in Hsink;
             cbv beta iota
         end.

Ltac run_straight Hsink :=
  try unfold do_begin_object, do_begin_array, do_end_object, do_end_array,
    begin_member_or_element;
  exec;
  split_rest;
  try (erewrite skip_whitespace_blank by (reflexivity || eassumption); exec);
  look_below Hsink;
  exec;
  split_rest;
  try finish_turn Hsink.

Ltac run_turn c rest Hsink :=
  split_ifs_on c;
  try (first [ progress unfold parse_null
             | progress unfold parse_true
             | progress unfold parse_false ];
       destruct rest as [| ? [| ? [| ? [| ? rest]]]]);
  run_straight Hsink.

Lemma start_turn_ok c rest s :
  consistent s -> state_ s = parse_state.start -> p_ s = c :: rest ->
  ec s = None ->
  exists s', parse_switch c rest s = Returned tt s' /\
             turn_ok (turns_left s) s'.
Proof.
  open_consistent s.
  intros (Hwf & Hdepth & Hidle & b & Hsink & Hb) -> -> ->.
  shape Hwf. clear Hwf.
  cbn in Hdepth. subst depth.
  norm_stack_in Hsink. norm_stack_in Hb. use_idle Hidle.
  destruct b; try discriminate Hb; clear Hb.
  all: unfold parse_switch, bind at 1, gets; cbn [state_].
  all: unfold case_start.
  all: run_turn c rest Hsink.
Qed.

Lemma expect_turn_ok c rest s :
  consistent s -> is_expect (state_ s) = true -> p_ s = c :: rest ->
  ec s = None ->
  exists s', parse_switch c rest s = Returned tt s' /\
             turn_ok (turns_left s) s'.
Proof.
  open_consistent s.
  intros (Hwf & Hdepth & Hidle & b & Hsink & Hb) Hst -> ->.
  destruct st; try discriminate Hst; clear Hst.
  all: shape Hwf.
  all: norm_stack_in Hsink; norm_stack_in Hb; norm_stack_in Hdepth.
  all: use_idle Hidle.

  all: cbn [length] in Hdepth; subst depth.
  all: unfold parse_switch, bind at 1, gets; cbn [state_].
  all: unfold case_expect_comma_or_end, case_expect_member_name_or_end,
         case_expect_member_name, case_expect_colon, case_expect_value,
         case_expect_value_or_end.
  all: top_of_frames Hwf.
  all: cbn [filter is_container] in Hsink.
  all: run_turn c rest Hsink.
Qed.

Lemma well_formed_not_container st stack :
  well_formed st stack = true -> is_container st = false.
Proof. destruct st, stack; cbn; congruence. Qed.

Lemma detour_turn_ok c rest s :
  consistent s -> is_detour (state_ s) = true -> p_ s = c :: rest ->
  ec s = None ->
  exists s', parse_switch c rest s = Returned tt s' /\
             turn_ok (turns_left s) s'.
Proof.
  open_consistent s.
  intros (Hwf & Hdepth & Hidle & b & Hsink & Hb) Hst -> ->.
  destruct st; try discriminate Hst; clear Hst.
  all: destruct stk as [| saved stk]; [discriminate Hwf |].
  all: cbn [well_formed] in Hwf.
  all: pose proof (well_formed_not_container _ _ Hwf) as Hsaved.
  all: norm_stack_in Hsink; norm_stack_in Hb; norm_stack_in Hdepth.
  all: use_idle Hidle.
  all: subst depth.
  all: unfold parse_switch, bind at 1, gets; cbn [state_].
  all: unfold case_cr, case_lf, case_slash, case_slash_star, case_slash_slash,
         case_slash_star_star.
  all: run_turn c rest Hsink.
Qed.

Lemma keyword_turn_ok c rest s :
  consistent s -> is_keyword (state_ s) = true -> p_ s = c :: rest ->
  ec s = None ->
  exists s', parse_switch c rest s = Returned tt s' /\
             turn_ok (turns_left s) s'.
Proof.
  open_consistent s.
  intros (Hwf & Hdepth & Hidle & b & Hsink & Hb) Hst -> ->.
  destruct st; try discriminate Hst; clear Hst.
  all: destruct stk as [| top stk]; [discriminate Hwf |].
  all: cbn [well_formed] in Hwf.
  all: destruct top; try discriminate Hwf; shape_more Hwf.
  all: norm_stack_in Hsink; norm_stack_in Hb; norm_stack_in Hdepth.
  all: use_idle Hidle.

  all: cbn [length] in Hdepth; subst depth.
  all: unfold parse_switch, bind at 1, gets; cbn [state_].
  all: unfold case_keyword_first, case_keyword_middle, case_keyword_last.
  all: run_turn c rest Hsink.
Qed.

(** The step of an induction on the input: the rest of the input is
    scanned from a parser that the induction hypothesis applies to. *)
Ltac use_IH f IH rest :=
  match goal with
  | |- context [f ?l rest ?s1] =>
      let s' := fresh "s'" in
      let E := fresh "E" in
      let Hok := fresh "Hok" in
      edestruct (IH l s1 eq_refl) as (s' & E & Hok);
      [ eassumption || reflexivity .. |];
      rewrite E; exists s'; split; [reflexivity |];
      revert Hok; apply turn_ok_le;
      unfold turns_left; cbn [p_ state_stack_ length];
      destruct rest; cbn [length]; lia
  end.

Ltac value_given_leaf Hsink :=
  do 6 eexists; split; [reflexivity |];
  unfold in_order; split;
  [ solve_sink Hsink; eexists; reflexivity
  | let Hec := fresh "Hec" in
    intro Hec;
    first [ discriminate Hec
          | split; [reflexivity |];
            split; [solve_sink Hsink; reflexivity |];
            split; reflexivity ] ].

Lemma end_integer_value_given : value_given end_integer_value.
Proof.
  intros s ph.
  destruct s as [h e cp cp2 buf neg ln col depth maxd prec bi p st stk err].
  cbn [state_stack_ handler_]. intros Hwf Hsink Hph.
  unfold containers in *.
  top_of_frames Hwf; cbn [filter is_container] in Hsink.
  all: exec; split_rest.
  all: cbn [hd state_after_value phase_after_value filter is_container].
  all: value_given_leaf Hsink.
Qed.

Lemma end_fraction_value_given : value_given end_fraction_value.
Proof.
  intros s ph.
  destruct s as [h e cp cp2 buf neg ln col depth maxd prec bi p st stk err].
  cbn [state_stack_ handler_]. intros Hwf Hsink Hph.
  unfold containers in *.
  top_of_frames Hwf; cbn [filter is_container] in Hsink.
  all: exec; split_rest.
  all: cbn [hd state_after_value phase_after_value filter is_container].
  all: value_given_leaf Hsink.
Qed.

(** A terminator of a number: the value is given, and unless that sets the
    error code the rest of the case runs from a parser whose sink is in
    the phase after a value. *)
Ltac after_value Hsink1 :=
  unfold bind at 1;
  let h1 := fresh "h" in
  let e1 := fresh "e" in
  let buf1 := fresh "buf" in
  let neg1 := fresh "neg" in
  let st1 := fresh "st" in
  let ec1 := fresh "err" in
  let E := fresh "E" in
  let Hord := fresh "Hord" in
  let Hnone := fresh "Hnone" in
  first
    [ match goal with
      | |- context [end_integer_value ?s0] =>
          edestruct (end_integer_value_given s0)
            as (h1 & e1 & buf1 & neg1 & st1 & ec1 & E & Hord & Hnone);
          [ eassumption | eassumption | eassumption |]
      end
    | match goal with
      | |- context [end_fraction_value ?s0] =>
          edestruct (end_fraction_value_given s0)
            as (h1 & e1 & buf1 & neg1 & st1 & ec1 & E & Hord & Hnone);
          [ eassumption | eassumption | eassumption |]
      end ];
  rewrite E; clear E; projections;
  destruct ec1;
  [ cbv beta iota delta [unless_ec ec];
    eexists; split; [reflexivity |];
    split; [exact Hord | let Hx := fresh in intro Hx; discriminate Hx]
  | destruct (Hnone eq_refl) as (-> & Hsink1 & -> & ->); clear Hnone Hord;
    cbn [hd state_after_value phase_after_value state_stack_ containers
         filter is_container] in * ].

Lemma parse_number_from_ok input :
  forall label s,
    is_number label = true ->
    frames (state_stack_ s) = true ->
    nesting_depth_ s = Z.of_nat (length (containers (state_stack_ s))) ->
    forall ph,
    sink_after (handler_ s) =
    Some (mk_sink ph (containers (state_stack_ s))) ->
    after_begin ph = true ->
    p_ s = input -> ec s = None ->
    exists s',
      parse_number_from label input s = Returned tt s' /\
      turn_ok (match input with
               | [] => S (turns_left s)
               | _ => turns_left s
               end) s'.
Proof.
  induction input as [| c rest IH].
  - intros label s Hlabel.
    open_consistent s; intros Hwf Hdepth ph Hsink Hph -> ->.
    destruct label; try discriminate Hlabel; clear Hlabel.
    all: cbn [parse_number_from].
    all: unfold containers in *; subst depth.
    all: top_of_frames Hwf; cbn [filter is_container] in Hsink.
    all: exec; finish_turn Hsink.
  - intros label s Hlabel.
    open_consistent s; intros Hwf Hdepth ph Hsink Hph -> ->.
    destruct label; try discriminate Hlabel; clear Hlabel.
    all: cbn [parse_number_from].
    all: unfold containers in *; subst depth.
    all: top_of_frames Hwf; cbn [filter is_container] in Hsink.
    all: split_ifs_on c.
    all: try (exec; use_IH parse_number_from IH rest).
    all: try (after_value Hsink1; clear Hsink Hph; run_straight Hsink1).
    all: try run_straight Hsink.
Qed.

Lemma is_string_facts st :
  is_string st = true ->
  is_container st = false /\ is_detour st = false /\
  forall ph, phase_fits ph st = after_begin ph.
Proof. destruct st; try discriminate; intros _; repeat split. Qed.

Lemma well_formed_string st stack :
  is_string st = true ->
  well_formed st stack = well_formed parse_state.string_u1 stack.
Proof. destruct st; try discriminate; intros _; destruct stack; reflexivity. Qed.

Ltac use_string_IH IH rest :=
  match goal with
  | |- context [parse_string_from ?l ?sp rest ?s1] =>
      let s' := fresh "s'" in
      let E := fresh "E" in
      let Hok := fresh "Hok" in
      edestruct (IH l sp s1 true eq_refl) as (s' & E & Hok);
      [ eassumption || reflexivity || discriminate .. |];
      rewrite E; exists s'; split; [reflexivity |];
      revert Hok; apply turn_ok_le;
      unfold turns_left; cbn [p_ state_stack_ length];
      destruct rest; cbn [length]; lia
  end.

Lemma parse_string_from_ok input :
  forall label span s (consumed : bool),
    is_string label = true ->
    is_string (state_ s) = true ->
    well_formed (state_ s) (state_stack_ s) = true ->
    nesting_depth_ s = Z.of_nat (length (containers (state_stack_ s))) ->
    is_negative_ s = false ->
    forall ph,
    sink_after (handler_ s) =
    Some (mk_sink ph (containers (state_stack_ s))) ->
    after_begin ph = true ->
    p_ s = input -> ec s = None ->
    (consumed = false -> span = []) ->
    exists s',
      parse_string_from label span input s = Returned tt s' /\
      turn_ok (match consumed, input with
               | false, _ :: _ => turns_left s
               | _, _ => S (turns_left s)
               end) s'.
Proof.
  induction input as [| c rest IH].
  - intros label span s consumed Hlabel.
    open_consistent s; intros Hst Hwf Hdepth -> ph Hsink Hph -> -> Hspan.
    destruct (is_string_facts st Hst) as (Hnc & Hdet & Hfits).
    pose proof Hwf as Hstack.
    rewrite (well_formed_string st stk Hst) in Hstack.
    destruct label; try discriminate Hlabel; clear Hlabel.
    all: cbn [parse_string_from].
    all: unfold containers in *; subst depth.
    all: shape Hstack; cbn [filter is_container] in Hsink.
    all: try (unfold validated; destruct (validate span) as [[] it] eqn:Hv;
              unfold translate_conv_errc).
    all: exec; split_rest.
    all: finish_turn Hsink.
  - intros label span s consumed Hlabel.
    open_consistent s; intros Hst Hwf Hdepth -> ph Hsink Hph -> -> Hspan.
    destruct (is_string_facts st Hst) as (Hnc & Hdet & Hfits).
    pose proof Hwf as Hstack.
    rewrite (well_formed_string st stk Hst) in Hstack.
    destruct consumed; [clear Hspan | specialize (Hspan eq_refl); subst span].
    all: destruct label; try discriminate Hlabel; clear Hlabel.
    all: cbn [parse_string_from].
    all: unfold containers in *; subst depth.
    all: shape Hstack; cbn [filter is_container] in Hsink.
    all: unfold illegal_character_in_string_case, hex_digit, escaped,
           append_codepoint, append_second_codepoint, append_to_codepoint.
    all: split_ifs_on c.
    all: try (progress unfold validated;
              match goal with
              | |- context [validate ?sp] =>
                  destruct (validate sp) as [[] it] eqn:Hv
              end;
              unfold translate_conv_errc).
    all: unfold end_string_value.
    all: exec; split_rest.
    all: try use_string_IH IH rest.
    all: finish_turn Hsink.
Qed.

Lemma resumes_other st stack :
  is_detour st = false -> resumes st stack = st.
Proof. intro H. destruct stack; cbn [resumes]; rewrite H; reflexivity. Qed.

(** What [consistent] says of the sink in a state that is neither a line
    break nor a comment, nor [start] nor [done]. *)
Lemma consistent_inside s :
  consistent s ->
  is_detour (state_ s) = false ->
  (forall ph, phase_fits ph (state_ s) = after_begin ph) ->
  exists ph,
    sink_after (handler_ s) =
    Some (mk_sink ph (containers (state_stack_ s))) /\
    after_begin ph = true.
Proof.
  intros (_ & _ & _ & ph & Hsink & Hph) Hdet Hin.
  rewrite resumes_other in Hph by exact Hdet.
  exists ph. split; [exact Hsink |]. rewrite <- Hin. exact Hph.
Qed.

(** Inside a string the sign is clear. *)
Lemma consistent_string_sign s :
  consistent s -> is_string (state_ s) = true -> is_negative_ s = false.
Proof.
  intros (_ & _ & Hidle & _) Hst. unfold idle in Hidle.
  rewrite resumes_other in Hidle
    by (destruct (state_ s); try discriminate Hst; reflexivity).
  unfold tidy in Hidle. rewrite Hst in Hidle.
  destruct (is_negative_ s); [discriminate Hidle | reflexivity].
Qed.

Lemma number_turn_ok c rest s :
  consistent s -> is_number (state_ s) = true -> p_ s = c :: rest ->
  ec s = None ->
  exists s', parse_switch c rest s = Returned tt s' /\
             turn_ok (turns_left s) s'.
Proof.
  intros Hc Hst Hp Hec.
  assert (E : parse_switch c rest s =
              parse_number_from (state_ s) (c :: rest) s).
  { unfold parse_switch, bind at 1, gets.
    destruct (state_ s) eqn:Hs; try discriminate Hst;
      unfold parse_number, bind, gets; rewrite Hp, Hs; reflexivity. }
  rewrite E.
  destruct (consistent_inside s Hc) as (ph & Hsink & Hph);
    try (destruct (state_ s); try discriminate Hst; reflexivity).
  apply (parse_number_from_ok (c :: rest) (state_ s) s Hst) with (ph := ph);
    auto.
  - destruct Hc as (Hwf & _).
    destruct (state_ s); try discriminate Hst;
      destruct (state_stack_ s); exact Hwf.
  - apply Hc.
Qed.

Lemma string_turn_ok c rest s :
  consistent s -> is_string (state_ s) = true -> p_ s = c :: rest ->
  ec s = None ->
  exists s', parse_switch c rest s = Returned tt s' /\
             turn_ok (turns_left s) s'.
Proof.
  intros Hc Hst Hp Hec.
  assert (E : parse_switch c rest s =
              parse_string_from (state_ s) [] (c :: rest) s).
  { unfold parse_switch, bind at 1, gets.
    destruct (state_ s) eqn:Hs; try discriminate Hst;
      unfold parse_string, bind, gets; rewrite Hp, Hs; reflexivity. }
  rewrite E.
  destruct (consistent_inside s Hc) as (ph & Hsink & Hph);
    try (destruct (state_ s); try discriminate Hst; reflexivity).
  apply (parse_string_from_ok (c :: rest) (state_ s) [] s false Hst)
    with (ph := ph); auto.
  - apply Hc.
  - apply Hc.
  - apply consistent_string_sign; assumption.
Qed.

(** A turn of the loop of [parse], from a consistent parser: no assertion
    fails, the calls of the sink stay in order, and unless the error code
    is set the parser is consistent again and has used something up. *)
Lemma turn_spec c rest s :
  consistent s -> p_ s = c :: rest -> ec s = None ->
  state_ s <> parse_state.done ->
  exists s', parse_switch c rest s = Returned tt s' /\
             turn_ok (turns_left s) s'.
Proof.
  intros Hc Hp Hec Hnd.
  destruct (state_ s) eqn:Hst; try congruence.
  all: try (apply detour_turn_ok; auto; rewrite Hst; reflexivity).
  all: try (apply start_turn_ok; auto; rewrite Hst; reflexivity).
  all: try (apply expect_turn_ok; auto; rewrite Hst; reflexivity).
  all: try (apply keyword_turn_ok; auto; rewrite Hst; reflexivity).
  all: try (apply number_turn_ok; auto; rewrite Hst; reflexivity).
  all: try (apply string_turn_ok; auto; rewrite Hst; reflexivity).
  all: destruct Hc as (Hwf & _); rewrite Hst in Hwf;
    destruct (state_stack_ s); discriminate Hwf.
Qed.

Lemma consistent_in_order s : consistent s -> in_order (handler_ s).
Proof. intros (_ & _ & _ & b & H & _). eexists. exact H. Qed.

(** [consistent] does not depend on the input, nor on the error code. *)
Lemma consistent_set_ec v s : consistent s -> consistent (set_ec v s).
Proof. destruct s. exact (fun H => H). Qed.

Lemma consistent_set_source input s :
  consistent s -> consistent (set_p_ input (set_begin_input_ input s)).
Proof. destruct s. exact (fun H => H). Qed.

(** The loop of [parse]. *)
Lemma parse_loop_ok fuel :
  forall s,
    consistent s -> ec s = None ->
    match parse_loop fuel s with
    | Returned _ s' =>
        in_order (handler_ s') /\ (ec s' = None -> consistent s')
    | Assertion_failed => False
    | Out_of_fuel => ~ (makes_progress /\ (turns_left s <= fuel)%nat)
    end.
Proof.
  induction fuel as [| fuel IH]; intros s Hc Hec.
  - cbn [parse_loop]. destruct (p_ s) as [| c rest] eqn:Hp.
    { split; [apply consistent_in_order; exact Hc | auto]. }
    destruct (state_ s);
      try (split; [apply consistent_in_order; exact Hc | auto]).
    all: intros [_ Hle]; unfold turns_left in Hle; rewrite Hp in Hle;
      cbn [length] in Hle; lia.
  - destruct (p_ s) as [| c rest] eqn:Hp.
    { rewrite parse_loop_nil by exact Hp.
      split; [apply consistent_in_order; exact Hc | auto]. }
    destruct (parse_state.eqb (state_ s) parse_state.done) eqn:Hd.
    { assert (state_ s = parse_state.done) as Hst
        by (destruct (state_ s); try discriminate Hd; reflexivity).
      cbn [parse_loop]. rewrite Hp, Hst.
      split; [apply consistent_in_order; exact Hc | auto]. }
    assert (state_ s <> parse_state.done) as Hnd
      by (intro Hst; rewrite Hst in Hd; discriminate Hd).
    rewrite (parse_loop_turn fuel s c rest Hp Hnd).
    destruct (turn_spec c rest s Hc Hp Hec Hnd) as (s' & E & Ho & Hok).
    unfold bind. rewrite E. unfold unless_ec.
    destruct (ec s') eqn:Hec'.
    + split; [exact Ho | congruence].
    + destruct (Hok eq_refl) as (Hc' & Hprog).
      specialize (IH s' Hc' Hec').
      destruct (parse_loop fuel s'); auto.
      intros [Hm Hle]. apply IH. split; [exact Hm |].
      specialize (Hprog Hm). lia.
Qed.

Lemma well_formed_not_root st stack :
  well_formed st stack = true ->
  parse_state.eqb st parse_state.root = false.
Proof. destruct st, stack; cbn; congruence. Qed.

Lemma turn_ok_call_ok n s' : turn_ok n s' -> call_ok (Returned tt s').
Proof.
  intros (Ho & H). split; [exact Ho |]. intro Hec. apply (H Hec).
Qed.

Lemma end_parse_ok s : consistent s -> call_ok (end_parse s).
Proof.
  open_consistent s.
  intros (Hwf & Hdepth & Hidle & b & Hsink & Hb).
  assert (exists s', end_parse
            {| handler_ := h; err_handler_ := e; cp_ := cp; cp2_ := cp2;
               string_buffer_ := buf; is_negative_ := neg; line_ := ln;
               column_ := col; nesting_depth_ := depth; max_depth_ := maxd;
               precision_ := prec; begin_input_ := bi; p_ := p; state_ := st;
               state_stack_ := stk; ec := err |} = Returned tt s' /\
            turn_ok (S (2 * length p + length stk)) s') as (s' & E & Hok);
    [| rewrite E; exact (turn_ok_call_ok _ _ Hok)].
  destruct (is_detour st) eqn:Hdet.
  - destruct stk as [| saved stk]; [destruct st; discriminate |].
    assert (Hwf' : well_formed saved stk = true)
      by (destruct st; try discriminate Hdet; exact Hwf).
    pose proof (well_formed_not_container _ _ Hwf') as Hsaved.
    pose proof (well_formed_not_root _ _ Hwf') as Hroot.
    clear Hwf.
    destruct st; try discriminate Hdet; clear Hdet.
    all: norm_stack_in Hsink; norm_stack_in Hb; norm_stack_in Hdepth.
    all: use_idle Hidle.
    all: subst depth.
    all: exec; rewrite Hroot; eval_eqb; exec.
    all: split_rest.
    all: finish_turn Hsink.
  - destruct st; try discriminate Hdet; clear Hdet.
    all: shape Hwf.
    all: norm_stack_in Hsink; norm_stack_in Hb; norm_stack_in Hdepth.
    all: use_idle Hidle.
    all: try (destruct b; try discriminate Hb; clear Hb).
    all: cbn [length] in Hdepth; subst depth.
    all: try top_of_frames Hwf; cbn [filter is_container] in Hsink.
    all: exec; eval_eqb; exec.
    all: split_rest.
    all: finish_turn Hsink.
Qed.

Lemma consistent_same s s' : same_parse s s' -> consistent s -> consistent s'.
Proof.
  intros (Hh & Hst & Hstk & Hd & Hbuf & Hneg). unfold consistent, idle.
  rewrite Hh, Hst, Hstk, Hd, Hbuf, Hneg. auto.
Qed.

Lemma check_done_from_same input :
  forall s, exists s',
    check_done_from input s = Returned tt s' /\ same_parse s s'.
Proof.
  induction input as [| c rest IH]; intro s; cbn [check_done_from].
  - exists s. repeat split.
  - destruct s as [h e cp cp2 buf neg ln col depth maxd prec bi p st stk err].
    destruct ((c =? 10) || (c =? 13) || (c =? 9) || (c =? 32)); exec;
      [| destruct (policy _ ln col);
         [eexists; split; [reflexivity | repeat split] |]].
    all: match goal with
         | |- context [check_done_from _ ?s1] =>
             destruct (IH s1) as (s' & E & H); exists s'; split; [exact E |];
             exact H
         end.
Qed.

Lemma check_done_ok s : consistent s -> call_ok (check_done s).
Proof.
  intro Hc.
  assert (exists s', check_done s = Returned tt s' /\ same_parse s s')
    as (s' & E & Hsame).
  { unfold check_done, bind at 1, modify, bind at 1, gets.
    destruct s as [h e cp cp2 buf neg ln col depth maxd prec bi p st stk err].
    cbn [state_ set_ec handler_ err_handler_ cp_ cp2_ string_buffer_
         is_negative_ line_ column_ nesting_depth_ max_depth_ precision_
         begin_input_ p_ state_stack_ ec].
    destruct st; exec; try destruct (policy _ ln col);
      try (eexists; split; [reflexivity | repeat split]).
    all: match goal with
         | |- context [check_done_from ?i ?s1] =>
             destruct (check_done_from_same i s1) as (s' & E & H);
             exists s'; split; [exact E |]; exact H
         end. }
  rewrite E. pose proof (consistent_same s s' Hsame Hc) as Hc'.
  split; [apply consistent_in_order; exact Hc' | auto].
Qed.

Lemma feed_ok fuel chunk s : consistent s -> call_ok (feed fuel chunk s).
Proof.
  intro Hc. unfold feed, bind at 1, set_source, modify, parse, bind, modify.
  pose proof (parse_loop_ok fuel
                (set_ec None (set_p_ chunk (set_begin_input_ chunk s)))
                (consistent_set_ec _ _ (consistent_set_source chunk s Hc))) as H.
  destruct s as [h e cp cp2 buf neg ln col depth maxd prec bi p st stk err].
  specialize (H eq_refl).
  cbn [set_ec set_p_ set_begin_input_ handler_ err_handler_ cp_ cp2_
       string_buffer_ is_negative_ line_ column_ nesting_depth_ max_depth_
       precision_ begin_input_ p_ state_ state_stack_ ec] in *.
  unfold call_ok.
  match goal with
  | |- match ?r with _ => _ end =>
      destruct r; auto
  end.
Qed.

Lemma do_calls_ok fuel calls :
  forall s, consistent s -> call_ok (do_calls fuel calls s).
Proof.
  induction calls as [| c calls IH]; intros s Hc; cbn [do_calls].
  - split; [apply consistent_in_order; exact Hc | auto].
  - unfold bind.
    assert (Hcall : call_ok (do_call fuel c s)).
    { destruct c; cbn [do_call];
        [apply feed_ok | apply end_parse_ok | apply check_done_ok]; exact Hc. }
    destruct (do_call fuel c s) as [[] s' | |]; auto.
    destruct Hcall as (Ho & Hcons). unfold unless_ec.
    destruct (ec s') eqn:Hec.
    + split; [exact Ho | congruence].
    + apply IH. auto.
Qed.

Lemma consistent_new_parser : consistent new_parser.
Proof.
  split; [reflexivity |]. split; [reflexivity |]. split; [reflexivity |].
  exists not_begun. split; reflexivity.
Qed.

(** ** The parser from its construction on *)

Lemma well_formed_finished_closed stack :
  forall st,
    well_formed st stack = true ->
    resumes st stack = parse_state.done ->
    containers stack = [].
Proof.
  induction stack as [| x stack IH]; intros st Hwf Hres.
  - destruct st; discriminate Hwf.
  - destruct (is_detour st) eqn:Hdet.
    + cbn [resumes] in Hres. rewrite Hdet in Hres.
      assert (Hwf' : well_formed x stack = true)
        by (destruct st; try discriminate Hdet; exact Hwf).
      unfold containers in *. cbn [filter].
      rewrite (well_formed_not_container _ _ Hwf'). exact (IH x Hwf' Hres).
    + rewrite resumes_other in Hres by exact Hdet. subst st.
      cbn [well_formed] in Hwf.
      destruct x; try discriminate Hwf. destruct stack; [reflexivity |].
      discriminate Hwf.
Qed.

Lemma do_calls_new_parser fuel calls s :
  do_calls fuel calls new_parser = Returned tt s ->
  in_order (handler_ s) /\ (ec s = None -> consistent s).
Proof.
  intro E.
  pose proof (do_calls_ok fuel calls new_parser consistent_new_parser) as H.
  rewrite E in H. exact H.
Qed.

(** X1. From its construction on, whatever is fed to the parser in
    whatever chunks, and whatever the policy answers, no [JSONCONS_ASSERT]
    fails, for a caller that stops at the first call that leaves the
    error code set: [parent()] and [pop_state()] never find the stack
    empty, and the loop of [parse] never finds a state without a case. *)
Theorem no_assertion_fails fuel calls :
  do_calls fuel calls new_parser <> Assertion_failed.
Proof.
  intro E.
  pose proof (do_calls_ok fuel calls new_parser consistent_new_parser) as H.
  rewrite E in H. exact H.
Qed.

(** X2. Between two calls, with the error code clear, the stack fits the
    state and [nesting_depth_] is the number of containers on the stack;
    when the parser is done, the stack holds [root] alone and the depth
    is 0. *)
Theorem nesting_depth_counts_containers fuel calls s :
  do_calls fuel calls new_parser = Returned tt s -> ec s = None ->
  well_formed (state_ s) (state_stack_ s) = true /\
  nesting_depth_ s = Z.of_nat (length (containers (state_stack_ s))) /\
  (done s = true ->
   state_stack_ s = [parse_state.root] /\ nesting_depth_ s = 0).
Proof.
  intros E Hec.
  destruct (do_calls_new_parser fuel calls s E) as (_ & H).
  destruct (H Hec) as (Hwf & Hdepth & _).
  split; [exact Hwf |]. split; [exact Hdepth |].
  unfold done. intro Hdone.
  destruct (state_ s); try discriminate Hdone.
  cbn [well_formed] in Hwf.
  destruct (state_stack_ s) as [| [] [|]]; try discriminate Hwf.
  split; [reflexivity | exact Hdepth].
Qed.

(** X3. The calls of the sink are in order at every return, also at one
    that leaves the error code set: [begin_json] has come first and not
    again after another event, every [end_object] and [end_array] closes
    the innermost open container, of its own kind, and [end_json], if it
    has come, has come after a value with no container open and is the
    last call. *)
Theorem events_in_order fuel calls s :
  do_calls fuel calls new_parser = Returned tt s ->
  in_order (handler_ s).
Proof.
  intro E. apply (do_calls_new_parser fuel calls s E).
Qed.

(** X4. With the error code clear, the sink has received [end_json]
    exactly when the state to resume after the pending line breaks and
    comments is [done], so whenever [done()] holds, and not while a value
    is expected or in progress. The calls then are in order as in X3:
    [begin_json] first, once or more, then at least one other event,
    every container closed by the end of its kind and none left open, and
    [end_json] as the last call. That one value only comes at the root,
    and that names and values alternate in an object, is not part of
    [complete]. *)
Theorem complete_when_done fuel calls s :
  do_calls fuel calls new_parser = Returned tt s -> ec s = None ->
  (complete (handler_ s) <-> finished (state_ s) (state_stack_ s) = true) /\
  (done s = true -> complete (handler_ s)).
Proof.
  intros E Hec.
  destruct (do_calls_new_parser fuel calls s E) as (_ & H).
  destruct (H Hec) as (Hwf & _ & _ & ph & Hsink & Hph).
  assert (Hiff : complete (handler_ s) <->
                 finished (state_ s) (state_stack_ s) = true).
  { unfold complete, finished. split.
    - intro Hc. rewrite Hc in Hsink. injection Hsink as <- _.
      destruct (resumes (state_ s) (state_stack_ s));
        try discriminate Hph; reflexivity.
    - intro Hf.
      assert (Hres : resumes (state_ s) (state_stack_ s) = parse_state.done)
        by (destruct (resumes (state_ s) (state_stack_ s));
            try discriminate Hf; reflexivity).
      rewrite Hres in Hph.
      rewrite (well_formed_finished_closed _ _ Hwf Hres) in Hsink.
      destruct ph; try discriminate Hph. exact Hsink. }
  split; [exact Hiff |].
  intro Hdone. apply Hiff. unfold finished, done in *.
  destruct (state_ s); try discriminate Hdone.
  rewrite resumes_other by reflexivity. reflexivity.
Qed.

(** X5. When the policy aborts on an illegal control character and the
    empty span is valid, the loop of [parse] takes at most twice the
    length of the chunk plus the height of the stack turns: with that
    much fuel, [set_source] and [parse] return. *)
Theorem parse_terminates fuel0 calls s fuel chunk :
  makes_progress ->
  do_calls fuel0 calls new_parser = Returned tt s -> ec s = None ->
  (2 * length chunk + length (state_stack_ s) <= fuel)%nat ->
  exists s', feed fuel chunk s = Returned tt s'.
Proof.
  intros Hm E Hec Hfuel.
  destruct (do_calls_new_parser fuel0 calls s E) as (_ & H).
  specialize (H Hec).
  pose proof (parse_loop_ok fuel
                (set_ec None (set_p_ chunk (set_begin_input_ chunk s)))
                (consistent_set_ec _ _ (consistent_set_source chunk s H)))
    as Hloop.
  unfold feed, bind at 1, set_source, modify, parse, bind, modify.
  destruct s as [h e cp cp2 buf neg ln col depth maxd prec bi p st stk err].
  specialize (Hloop eq_refl).
  cbn [set_ec set_p_ set_begin_input_ handler_ err_handler_ cp_ cp2_
       string_buffer_ is_negative_ line_ column_ nesting_depth_ max_depth_
       precision_ begin_input_ p_ state_ state_stack_ ec] in *.
  match goal with
  | |- exists s', ?r = _ => destruct r as [[] s' | |]
  end.
  - exists s'. reflexivity.
  - contradiction.
  - exfalso. apply Hloop. split; [exact Hm | exact Hfuel].
Qed.

(** X6. In state [start], an illegal control character to which the policy
    answers continue is not consumed: the loop of [parse] comes back to it
    at every turn and does not end, whatever fuel it is given. *)
Theorem control_character_at_start_hangs c rest s fuel :
  JSONCONS_ILLEGAL_CONTROL_CHARACTER c = true ->
  state_ s = parse_state.start ->
  policy json_parser_errc.illegal_control_character (line_ s) (column_ s)
  = false ->
  feed fuel (c :: rest) s = Out_of_fuel.
Proof.
  intros Hc Hst Hpol.
  destruct s as [h e cp cp2 buf neg ln col depth maxd prec bi p st stk err].
  cbn [state_ line_ column_] in Hst, Hpol. subst st.
  unfold feed, bind at 1, set_source, modify, parse, bind at 1, modify.
  cbn [set_ec set_p_ set_begin_input_ handler_ err_handler_ cp_ cp2_
       string_buffer_ is_negative_ line_ column_ nesting_depth_ max_depth_
       precision_ begin_input_ p_ state_ state_stack_ ec].
  assert (Hloop : forall fuel h e,
            parse_loop fuel
              {| handler_ := h; err_handler_ := e; cp_ := cp; cp2_ := cp2;
                 string_buffer_ := buf; is_negative_ := neg; line_ := ln;
                 column_ := col; nesting_depth_ := depth; max_depth_ := maxd;
                 precision_ := prec; begin_input_ := c :: rest;
                 p_ := c :: rest; state_ := parse_state.start;
                 state_stack_ := stk; ec := None |} = Out_of_fuel);
    [| apply Hloop].
  clear fuel h e. induction fuel as [| fuel IH]; intros h e.
  - reflexivity.
  - rewrite parse_loop_turn with (c := c) (rest := rest)
      by (reflexivity || discriminate).
    unfold bind at 1, parse_switch, bind at 1, gets. cbn [state_].
    unfold case_start. rewrite Hc. exec. rewrite Hpol. exec.
    apply IH.
Qed.

Lemma parse_loop_stops fuel :
  forall s s',
    parse_loop fuel s = Returned tt s' -> ec s' = None ->
    p_ s' = [] \/ state_ s' = parse_state.done.
Proof.
  induction fuel as [| fuel IH]; intros s s'; cbn [parse_loop];
    destruct (p_ s) as [| c rest] eqn:Hp;
    try (intros [= <-]; left; exact Hp).
  - destruct (state_ s) eqn:Hst; try discriminate;
      intros [= <-]; right; exact Hst.
  - destruct (state_ s) eqn:Hst;
      try (intros [= <-]; right; exact Hst).
    all: unfold bind;
      destruct (parse_switch c rest s) as [[] s1 | |]; try discriminate;
      unfold unless_ec; destruct (ec s1) eqn:Hec1;
      [ intros [= <-] Hec; congruence | apply IH ].
Qed.

(** X7. [parse] returns with the error code clear only when the chunk is
    used up or the parser is done. *)
Theorem parse_stops fuel s s' :
  parse fuel s = Returned tt s' -> ec s' = None ->
  source_exhausted s' = true \/ done s' = true.
Proof.
  unfold parse, bind, modify. intros E Hec.
  destruct (parse_loop_stops fuel _ s' E Hec) as [H | H];
    unfold source_exhausted, done; rewrite H; auto.
Qed.

(** ** Stepping through the loop *)

(** Deciding the tests of a case on a character that is given. *)
Ltac eval_bool t :=
  let v := eval vm_compute in t in
  lazymatch v with
  | true => change t with true
  | false => change t with false
  end.

Ltac eval_tests :=
  repeat match goal with
         | |- context [if ?b then _ else _] => eval_bool b; cbv iota
         end.

Ltac unfold_cases :=
  unfold case_cr, case_lf, case_start, case_expect_comma_or_end,
    case_expect_member_name_or_end, case_expect_member_name,
    case_expect_colon, case_expect_value, case_expect_value_or_end,
    case_keyword_first, case_keyword_middle, case_keyword_last,
    case_slash, case_slash_star, case_slash_slash, case_slash_star_star.

(** A turn of the loop on a parser whose state is given. *)
Ltac turn_in_state :=
  erewrite parse_loop_turn by (reflexivity || discriminate);
  unfold bind at 1, parse_switch, bind at 1, gets; cbn [state_];
  unfold_cases; eval_tests; exec.

(** Sums of increments of [column_]. *)
Ltac flatten_wraps :=
  repeat (rewrite wrap_size_t_add_l, <- ?Z.add_assoc);
  cbn [Z.add Pos.add Pos.succ Pos.add_carry].

(** ** try_string_to_uinteger, try_string_to_integer *)

Lemma try_string_to_integer_pos_loop_spec digits :
  all_digits digits ->
  forall n, 0 <= n <= int64_max ->
    try_string_to_integer_pos_loop digits n =
    if decimal_value_from n digits <=? int64_max
    then Some (decimal_value_from n digits) else None.
Proof.
  induction 1 as [| c ds Hc Hds IH]; intros n Hn;
    cbn [try_string_to_integer_pos_loop decimal_value_from fold_left].
  - destruct (Z.leb_spec n int64_max); [reflexivity | lia].
  - apply is_digit_range in Hc.
    pose proof (decimal_value_from_ge (n * 10 + (c - 48)) ds ltac:(lia) Hds)
      as Hge.
    fold (decimal_value_from (n * 10 + (c - 48)) ds).
    unfold int64_max in *.
    change (Z.quot 9223372036854775807 10) with 922337203685477580.
    destruct (Z.gtb_spec n 922337203685477580).
    { destruct (Z.leb_spec (decimal_value_from (n * 10 + (c - 48)) ds)
                  9223372036854775807); [lia | reflexivity]. }
    destruct (Z.gtb_spec (n * 10) (9223372036854775807 - (c - 48))).
    { destruct (Z.leb_spec (decimal_value_from (n * 10 + (c - 48)) ds)
                  9223372036854775807); [lia | reflexivity]. }
    apply IH. lia.
Qed.

Lemma try_string_to_uinteger_loop_range s :
  forall n0 n,
    0 <= n0 <= uint64_max ->
    try_string_to_uinteger_loop s n0 = Some n -> 0 <= n <= uint64_max.
Proof.
  induction s as [| c s IH]; intros n0 n Hn0;
    cbn [try_string_to_uinteger_loop].
  - intros [= <-]. exact Hn0.
  - assert (Hx : 0 <= wrap_uint64 (c - 48) < 2 ^ 64)
      by (apply Z.mod_pos_bound; lia).
    unfold uint64_max in *.
    change (18446744073709551615 / 10) with 1844674407370955161.
    destruct (Z.gtb_spec n0 1844674407370955161); [discriminate |].
    destruct (Z.gtb_spec (n0 * 10)
                (18446744073709551615 - wrap_uint64 (c - 48)));
      [discriminate |].
    apply IH. lia.
Qed.

(** X8. On a string of decimal digits, [try_string_to_uinteger] returns
    the value of the string when it is at most 2^64-1 and fails otherwise;
    on any string at all, what it returns lies between 0 and 2^64-1, so
    its unsigned arithmetic never wraps around. *)
Theorem try_string_to_uinteger_correct (s : list Z) :
  (all_digits s ->
   try_string_to_uinteger s =
   if decimal_value s <=? uint64_max then Some (decimal_value s) else None) /\
  (forall n, try_string_to_uinteger s = Some n -> 0 <= n <= uint64_max).
Proof.
  split.
  - apply try_string_to_uinteger_spec.
  - intros n. apply try_string_to_uinteger_loop_range.
    unfold uint64_max. lia.
Qed.

(** X9. On a string of decimal digits, [try_string_to_integer] with
    [has_neg] returns minus the value of the string when that is at least
    -2^63 and fails otherwise; without [has_neg] it returns the value when
    it is at most 2^63-1 and fails otherwise. *)
Theorem try_string_to_integer_correct (digits : list Z) :
  all_digits digits ->
  try_string_to_integer true digits =
  (if int64_min <=? - decimal_value digits
   then Some (- decimal_value digits) else None) /\
  try_string_to_integer false digits =
  (if decimal_value digits <=? int64_max
   then Some (decimal_value digits) else None).
Proof.
  intro H. split.
  - rewrite (try_string_to_integer_neg_spec digits H).
    destruct (Z.leb_spec (decimal_value digits) (- int64_min)),
      (Z.leb_spec int64_min (- decimal_value digits));
      try reflexivity; lia.
  - unfold try_string_to_integer.
    rewrite try_string_to_integer_pos_loop_spec by (auto; unfold int64_max; lia).
    reflexivity.
Qed.

(** ** check_done *)

Lemma check_done_from_spec input :
  forall s,
    p_ s = input ->
    let r := mk_report false json_parser_errc.extra_character
               (line_ s) (column_ s) in
    check_done_from input s =
    Returned tt
      (if policy json_parser_errc.extra_character (line_ s) (column_ s)
       then
         match first_extra_character input with
         | [] => set_p_ [] s
         | rest =>
             set_ec (Some json_parser_errc.extra_character)
               (set_err_handler_ (err_handler_ s ++ [r]) (set_p_ rest s))
         end
       else
         set_err_handler_
           (err_handler_ s ++ map (fun _ => r) (extra_characters input))
           (set_p_ [] s)).
Proof.
  induction input as [| c rest IH]; intros s Hp r; subst r;
    destruct s as [h e cp cp2 buf neg ln col depth maxd prec bi p st stk err];
    cbn [p_ line_ column_ err_handler_] in *; subst p.
  - cbn [check_done_from first_extra_character extra_characters filter map].
    rewrite app_nil_r. destruct (policy _ ln col); reflexivity.
  - cbn [check_done_from first_extra_character extra_characters filter].
    unfold is_trailing_space.
    destruct ((c =? 10) || (c =? 13) || (c =? 9) || (c =? 32)) eqn:Hc;
      cbn [negb map].
    + unfold bind, advance_p, modify. rewrite IH by reflexivity.
      cbv beta iota zeta delta [set_p_ line_ column_ err_handler_ handler_
        cp_ cp2_ string_buffer_ is_negative_ nesting_depth_ max_depth_
        precision_ begin_input_ p_ state_ state_stack_ ec set_ec
        set_err_handler_].
      destruct (policy _ ln col); [| reflexivity].
      destruct (first_extra_character rest); reflexivity.
    + exec. destruct (policy _ ln col) eqn:Hpol; [reflexivity |].
      rewrite IH by reflexivity.
      cbv beta iota zeta delta [set_p_ line_ column_ err_handler_ handler_
        cp_ cp2_ string_buffer_ is_negative_ nesting_depth_ max_depth_
        precision_ begin_input_ p_ state_ state_stack_ ec set_ec
        set_err_handler_].
      rewrite Hpol, <- app_assoc. reflexivity.
Qed.

(** X11. [check_done] on a parser that is done passes over line feeds,
    carriage returns, tabs and spaces and asks the policy about every
    other character, each time at the position the parser had at the
    call, since it moves [p_] and not [column_]. If the policy aborts, it
    stops in front of the first such character with [extra_character];
    if the policy continues, it reads the input to its end. It calls the
    sink never. *)
Theorem check_done_spec s :
  state_ s = parse_state.done ->
  let r := mk_report false json_parser_errc.extra_character
             (line_ s) (column_ s) in
  exists s',
    check_done s = Returned tt s' /\
    handler_ s' = handler_ s /\ state_ s' = parse_state.done /\
    line_ s' = line_ s /\ column_ s' = column_ s /\
    (if policy json_parser_errc.extra_character (line_ s) (column_ s)
     then
       match first_extra_character (p_ s) with
       | [] => ec s' = None /\ err_handler_ s' = err_handler_ s /\ p_ s' = []
       | rest =>
           ec s' = Some json_parser_errc.extra_character /\
           err_handler_ s' = err_handler_ s ++ [r] /\ p_ s' = rest
       end
     else
       ec s' = None /\ p_ s' = [] /\
       err_handler_ s' =
       err_handler_ s ++ map (fun _ => r) (extra_characters (p_ s))).
Proof.
  intros Hst r. subst r.
  unfold check_done, bind at 1, modify, bind at 1, gets.
  destruct s as [h e cp cp2 buf neg ln col depth maxd prec bi p st stk err].
  cbn [state_] in Hst. subst st.
  cbv beta iota zeta delta [set_ec line_ column_ err_handler_ handler_
    cp_ cp2_ string_buffer_ is_negative_ nesting_depth_ max_depth_
    precision_ begin_input_ p_ state_ state_stack_ ec].
  unfold bind, gets. cbn [p_].
  rewrite check_done_from_spec by reflexivity.
  cbn [line_ column_ err_handler_].
  eexists. split; [reflexivity |].
  destruct (policy _ ln col).
  - destruct (first_extra_character p); cbn; repeat split.
  - cbn. repeat split.
Qed.

(** ** Escapes in strings *)

Lemma hex_digit_value_range c :
  is_hex_digit c = true -> 0 <= hex_digit_value c <= 15.
Proof.
  unfold is_hex_digit, hex_digit_value, is_digit.
  destruct (Z.leb_spec 48 c), (Z.leb_spec c 57); cbn [andb orb]; try lia;
    destruct (Z.leb_spec 97 c), (Z.leb_spec c 102); cbn [andb orb]; try lia;
    destruct (Z.leb_spec 65 c), (Z.leb_spec c 70); cbn [andb orb]; try lia;
    discriminate.
Qed.

(** One hex digit: [cp = cp * 16 + value]. *)
Lemma append_to_codepoint_hex cp c s :
  is_hex_digit c = true ->
  append_to_codepoint cp c s =
  Returned (wrap_uint32 (wrap_uint32 (cp * 16) + hex_digit_value c)) s.
Proof.
  unfold is_hex_digit, hex_digit_value, is_digit, append_to_codepoint.
  rewrite !Z.geb_leb.
  destruct (48 <=? c), (c <=? 57); cbn [andb orb]; try reflexivity;
    destruct (97 <=? c), (c <=? 102); cbn [andb orb]; try reflexivity;
    destruct (65 <=? c), (c <=? 70); cbn [andb orb]; try reflexivity;
    discriminate.
Qed.

Lemma append_codepoint_hex c s :
  is_hex_digit c = true ->
  append_codepoint c s =
  Returned tt
    (set_cp_ (wrap_uint32 (wrap_uint32 (cp_ s * 16) + hex_digit_value c)) s).
Proof.
  intro H. unfold append_codepoint. rewrite H.
  unfold bind, gets. rewrite (append_to_codepoint_hex _ _ _ H). reflexivity.
Qed.

Lemma append_second_codepoint_hex c s :
  is_hex_digit c = true ->
  append_second_codepoint c s =
  Returned tt
    (set_cp2_ (wrap_uint32 (wrap_uint32 (cp2_ s * 16) + hex_digit_value c)) s).
Proof.
  intro H. unfold append_second_codepoint. rewrite H.
  unfold bind, gets. rewrite (append_to_codepoint_hex _ _ _ H). reflexivity.
Qed.

Lemma hex_step x v :
  0 <= x < 4096 -> 0 <= v <= 15 ->
  wrap_uint32 (wrap_uint32 (x * 16) + v) = x * 16 + v.
Proof.
  intros Hx Hv. unfold wrap_uint32. change (2 ^ 32) with 4294967296.
  rewrite (Z.mod_small (x * 16)) by lia. apply Z.mod_small. lia.
Qed.

(** Four hex digits after [cp = 0] give their value, which is below 2^16. *)
Lemma four_hex_digits d1 d2 d3 d4 :
  is_hex_digit d1 = true -> is_hex_digit d2 = true ->
  is_hex_digit d3 = true -> is_hex_digit d4 = true ->
  wrap_uint32
    (wrap_uint32
       (wrap_uint32
          (wrap_uint32
             (wrap_uint32
                (wrap_uint32 (wrap_uint32 (wrap_uint32 (0 * 16)
                                           + hex_digit_value d1) * 16)
                 + hex_digit_value d2) * 16)
           + hex_digit_value d3) * 16)
     + hex_digit_value d4) = hex_value [d1; d2; d3; d4] /\
  0 <= hex_value [d1; d2; d3; d4] < 65536.
Proof.
  intros H1 H2 H3 H4.
  apply hex_digit_value_range in H1, H2, H3, H4.
  rewrite (hex_step 0) by lia.
  rewrite (hex_step (0 * 16 + hex_digit_value d1)) by lia.
  rewrite (hex_step ((0 * 16 + hex_digit_value d1) * 16 + hex_digit_value d2))
    by lia.
  rewrite hex_step by lia.
  unfold hex_value. cbn [fold_left]. split; lia.
Qed.

Lemma surrogate_pair_spec cp cp2 :
  unicons.is_high_surrogate cp = true -> 0 <= cp2 ->
  wrap_uint32 (65536 + Z.shiftl (Z.land cp 1023) 10 + Z.land cp2 1023) =
  surrogate_pair cp cp2 /\
  65536 <= surrogate_pair cp cp2 <= 1114111.
Proof.
  unfold unicons.is_high_surrogate, surrogate_pair, wrap_uint32.
  rewrite andb_true_iff, !Z.leb_le. intros [Hlo Hhi] Hcp2.
  change 1023 with (Z.ones 10). rewrite !Z.land_ones by lia.
  rewrite Z.shiftl_mul_pow2 by lia.
  change (2 ^ 10) with 1024. change (2 ^ 32) with 4294967296.
  assert (Hcp : cp mod 1024 = cp - 55296).
  { symmetry. apply Z.mod_unique with (q := 54); lia. }
  rewrite Hcp.
  pose proof (Z.mod_pos_bound cp2 1024 ltac:(lia)).
  rewrite Z.mod_small by lia. split; lia.
Qed.

(** The escape [\u] and four hex digits whose value is no high surrogate:
    the code units of the code point go to the buffer, and the function
    returns in state [string_u1]. *)
Lemma escape_u_value span d1 d2 d3 d4 rest s :
  is_hex_digit d1 = true -> is_hex_digit d2 = true ->
  is_hex_digit d3 = true -> is_hex_digit d4 = true ->
  ec s = None ->
  let cp := hex_value [d1; d2; d3; d4] in
  unicons.is_high_surrogate cp = false ->
  parse_string_from parse_state.escape span
    (ch_u :: d1 :: d2 :: d3 :: d4 :: rest) s =
  Returned tt
    (set_state_ parse_state.string_u1
       (set_column_ (wrap_size_t (column_ s + 5))
          (set_p_ rest
             (set_string_buffer_ (string_buffer_ s ++ convert cp)
                (set_cp_ cp s))))).
Proof.
  intros H1 H2 H3 H4 Hec cp Hcp.
  destruct (four_hex_digits d1 d2 d3 d4 H1 H2 H3 H4) as (Hval & _).
  fold cp in Hval.
  destruct s as [h e cp0 cp2 buf neg ln col depth maxd prec bi p st stk err].
  cbn [ec] in Hec. subst err.
  cbn [parse_string_from Z.eqb Pos.eqb]. unfold hex_digit.
  exec.
  rewrite (append_codepoint_hex d1) by exact H1. exec.
  cbn [parse_string_from]. unfold hex_digit.
  rewrite (append_codepoint_hex d2) by exact H2. exec.
  cbn [parse_string_from]. unfold hex_digit.
  rewrite (append_codepoint_hex d3) by exact H3. exec.
  cbn [parse_string_from].
  rewrite (append_codepoint_hex d4) by exact H4. exec.
  rewrite Hval, Hcp.
  flatten_wraps. reflexivity.
Qed.

(** The same when the value of the first four digits is a high surrogate
    and the escape [\u] with four hex digits follows: the two values are
    put together, and the scan goes on in the string. *)
Lemma escape_u_surrogate span d1 d2 d3 d4 l1 l2 l3 l4 rest s :
  is_hex_digit d1 = true -> is_hex_digit d2 = true ->
  is_hex_digit d3 = true -> is_hex_digit d4 = true ->
  is_hex_digit l1 = true -> is_hex_digit l2 = true ->
  is_hex_digit l3 = true -> is_hex_digit l4 = true ->
  ec s = None ->
  let cp := hex_value [d1; d2; d3; d4] in
  let cp2 := hex_value [l1; l2; l3; l4] in
  unicons.is_high_surrogate cp = true ->
  parse_string_from parse_state.escape span
    (ch_u :: d1 :: d2 :: d3 :: d4 ::
     ch_backslash :: ch_u :: l1 :: l2 :: l3 :: l4 :: rest) s =
  parse_string_from parse_state.string_u1 [] rest
    (set_column_ (wrap_size_t (column_ s + 11))
       (set_p_ rest
          (set_string_buffer_
             (string_buffer_ s ++ convert (surrogate_pair cp cp2))
             (set_cp2_ cp2 (set_cp_ cp s))))).
Proof.
  intros H1 H2 H3 H4 H5 H6 H7 H8 Hec cp cp2 Hcp.
  destruct (four_hex_digits d1 d2 d3 d4 H1 H2 H3 H4) as (Hval & _).
  destruct (four_hex_digits l1 l2 l3 l4 H5 H6 H7 H8) as (Hval2 & Hpos & _).
  fold cp in Hval. fold cp2 in Hval2, Hpos.
  destruct (surrogate_pair_spec cp cp2 Hcp Hpos) as (Hpair & _).
  destruct s as [h e cp0 cp20 buf neg ln col depth maxd prec bi p st stk err].
  cbn [ec] in Hec. subst err.
  cbn [parse_string_from Z.eqb Pos.eqb]. unfold hex_digit.
  exec.
  rewrite (append_codepoint_hex d1) by exact H1. exec.
  cbn [parse_string_from]. unfold hex_digit.
  rewrite (append_codepoint_hex d2) by exact H2. exec.
  cbn [parse_string_from]. unfold hex_digit.
  rewrite (append_codepoint_hex d3) by exact H3. exec.
  cbn [parse_string_from].
  rewrite (append_codepoint_hex d4) by exact H4. exec.
  rewrite Hval, Hcp.
  cbn [parse_string_from Z.eqb Pos.eqb]. exec.
  cbn [parse_string_from Z.eqb Pos.eqb]. exec.
  cbn [parse_string_from]. unfold hex_digit.
  rewrite (append_second_codepoint_hex l1) by exact H5. exec.
  cbn [parse_string_from]. unfold hex_digit.
  rewrite (append_second_codepoint_hex l2) by exact H6. exec.
  cbn [parse_string_from]. unfold hex_digit.
  rewrite (append_second_codepoint_hex l3) by exact H7. exec.
  cbn [parse_string_from].
  rewrite (append_second_codepoint_hex l4) by exact H8. exec.
  rewrite Hval2, Hpair.
  flatten_wraps. reflexivity.
Qed.

(** The backslash after a span that the validation accepts. *)
Lemma parse_string_from_backslash span rest s :
  fst (validate span) = unicons.ok ->
  parse_string_from parse_state.string_u1 span (ch_backslash :: rest) s =
  (string_buffer_append span ;;
   add_column (Z.of_nat (length span) + 1) ;;
   advance_p rest ;;
   parse_string_from parse_state.escape (span ++ [ch_backslash]) rest) s.
Proof.
  intro H. cbn [parse_string_from].
  change (JSONCONS_ILLEGAL_CONTROL_CHARACTER 92) with false.
  change (92 =? 13) with false. change (92 =? 10) with false.
  change (92 =? 9) with false. change (92 =? 92) with true. cbv iota.
  unfold validated. destruct (validate span) as [e n]. cbn [fst] in H. subst e.
  reflexivity.
Qed.

(** The closing quote of a string that is the whole document, after the
    buffer has been given its text. *)
Lemma closing_quote_at_root fuel h e cp cp2 buf neg ln col depth maxd prec
      bi :
  fst (validate []) = unicons.ok ->
  exists s',
    parse_loop (S fuel)
      {| handler_ := h; err_handler_ := e; cp_ := cp; cp2_ := cp2;
         string_buffer_ := buf; is_negative_ := neg; line_ := ln;
         column_ := col; nesting_depth_ := depth; max_depth_ := maxd;
         precision_ := prec; begin_input_ := bi; p_ := [ch_dquote];
         state_ := parse_state.string_u1;
         state_stack_ := [parse_state.root]; ec := None |} =
    Returned tt s' /\
    handler_ s' = h ++ [string_value buf; end_json] /\ ec s' = None /\
    state_ s' = parse_state.done /\ state_stack_ s' = [parse_state.root].
Proof.
  intro Hvalid.
  erewrite parse_loop_turn by (reflexivity || discriminate).
  unfold bind at 1, parse_switch, bind at 1, gets. cbn [state_].
  unfold parse_string, bind at 1 2, gets. cbn [state_ p_].
  rewrite parse_string_from_closing_quote by exact Hvalid.
  exec. cbv beta iota delta [end_string_value]. exec.
  destruct buf as [| b buf]; exec;
    rewrite parse_loop_nil by reflexivity;
    (eexists; split; [reflexivity |]); cbn [handler_ ec state_ state_stack_];
    rewrite <- ?app_assoc, ?app_nil_r; repeat split; reflexivity.
Qed.

Lemma end_parse_done s :
  state_ s = parse_state.done -> state_stack_ s = [parse_state.root] ->
  end_parse s = Returned tt (set_ec None s).
Proof.
  destruct s as [h e cp cp2 buf neg ln col depth maxd prec bi p st stk err].
  cbn [state_ state_stack_]. intros -> ->. reflexivity.
Qed.

(** A document that [parse] has brought to [done]. *)
Lemma parse_document_done fuel text s events :
  feed fuel text new_parser = Returned tt s ->
  handler_ s = events /\ ec s = None /\
  state_ s = parse_state.done /\ state_stack_ s = [parse_state.root] ->
  events_of (parse_document fuel text new_parser) = Some events.
Proof.
  intros E (Hh & Hec & Hst & Hstk).
  rewrite (parse_document_after_feed _ _ _ _ E Hec).
  rewrite (end_parse_done s Hst Hstk).
  destruct s. exact (f_equal Some Hh).
Qed.

(** X12. The string that consists of the escape [\u] and four hex digits,
    as a document: when the value of the digits is no high surrogate, the
    string given to the sink is made of the code units that
    [unicons::convert] gives for that value. *)
Theorem unicode_escape_value fuel d1 d2 d3 d4 :
  fst (validate []) = unicons.ok ->
  is_hex_digit d1 = true -> is_hex_digit d2 = true ->
  is_hex_digit d3 = true -> is_hex_digit d4 = true ->
  let cp := hex_value [d1; d2; d3; d4] in
  unicons.is_high_surrogate cp = false ->
  (3 <= fuel)%nat ->
  events_of
    (parse_document fuel
       [ch_dquote; ch_backslash; ch_u; d1; d2; d3; d4; ch_dquote]
       new_parser) =
  Some [begin_json; string_value (convert cp); end_json].
Proof.
  intros Hvalid H1 H2 H3 H4 cp Hcp Hfuel.
  do 3 (destruct fuel as [| fuel]; [lia |]). clear Hfuel.
  assert (exists s,
            feed (S (S (S fuel)))
              [ch_dquote; ch_backslash; ch_u; d1; d2; d3; d4; ch_dquote]
              new_parser = Returned tt s /\
            handler_ s = [begin_json; string_value (convert cp); end_json] /\
            ec s = None /\ state_ s = parse_state.done /\
            state_stack_ s = [parse_state.root]) as (s & E & H);
    [| exact (parse_document_done _ _ s _ E H)].
  unfold feed, parse, bind at 1 2, set_source, modify.
  turn_in_state.
  erewrite parse_loop_turn by (reflexivity || discriminate).
  unfold bind at 1, parse_switch, bind at 1, gets. cbn [state_].
  unfold parse_string, bind at 1 2, gets. cbn [state_ p_].
  rewrite parse_string_from_backslash by exact Hvalid.
  exec.
  rewrite (escape_u_value _ d1 d2 d3 d4) by (assumption || reflexivity).
  exec. fold cp.
  match goal with
  | |- context [parse_loop (S fuel)
                  {| handler_ := ?h; err_handler_ := ?e; cp_ := ?c1;
                     cp2_ := ?c2; string_buffer_ := ?buf;
                     is_negative_ := ?neg; line_ := ?ln; column_ := ?col;
                     nesting_depth_ := ?depth; max_depth_ := ?maxd;
                     precision_ := ?prec; begin_input_ := ?bi;
                     p_ := _; state_ := _; state_stack_ := _;
                     ec := _ |}] =>
      destruct (closing_quote_at_root fuel h e c1 c2 buf neg ln col depth
                  maxd prec bi Hvalid) as (s' & E & Hh & Hec & Hst & Hstk)
  end.
  exists s'. split; [exact E |]. cbn [app] in Hh. auto.
Qed.

(** X13. The string that consists of two escapes [\u] with four hex
    digits each, as a document: when the value [cp] of the first is a
    high surrogate, the string given to the sink is made of the code units
    of the code point 0x10000 + (cp - 0xD800) * 0x400 + cp2 mod 0x400,
    where [cp2] is the value of the second, whether or not it is a low
    surrogate. *)
Theorem surrogate_pair_value fuel d1 d2 d3 d4 l1 l2 l3 l4 :
  fst (validate []) = unicons.ok ->
  is_hex_digit d1 = true -> is_hex_digit d2 = true ->
  is_hex_digit d3 = true -> is_hex_digit d4 = true ->
  is_hex_digit l1 = true -> is_hex_digit l2 = true ->
  is_hex_digit l3 = true -> is_hex_digit l4 = true ->
  let cp := hex_value [d1; d2; d3; d4] in
  let cp2 := hex_value [l1; l2; l3; l4] in
  unicons.is_high_surrogate cp = true ->
  (2 <= fuel)%nat ->
  events_of
    (parse_document fuel
       [ch_dquote; ch_backslash; ch_u; d1; d2; d3; d4;
        ch_backslash; ch_u; l1; l2; l3; l4; ch_dquote]
       new_parser) =
  Some [begin_json; string_value (convert (surrogate_pair cp cp2)); end_json].
Proof.
  intros Hvalid H1 H2 H3 H4 H5 H6 H7 H8 cp cp2 Hcp Hfuel.
  do 2 (destruct fuel as [| fuel]; [lia |]). clear Hfuel.
  assert (exists s,
            feed (S (S fuel))
              [ch_dquote; ch_backslash; ch_u; d1; d2; d3; d4;
               ch_backslash; ch_u; l1; l2; l3; l4; ch_dquote]
              new_parser = Returned tt s /\
            handler_ s =
            [begin_json; string_value (convert (surrogate_pair cp cp2));
             end_json] /\
            ec s = None /\ state_ s = parse_state.done /\
            state_stack_ s = [parse_state.root]) as (s & E & H);
    [| exact (parse_document_done _ _ s _ E H)].
  unfold feed, parse, bind at 1 2, set_source, modify.
  turn_in_state.
  erewrite parse_loop_turn by (reflexivity || discriminate).
  unfold bind at 1, parse_switch, bind at 1, gets. cbn [state_].
  unfold parse_string, bind at 1 2, gets. cbn [state_ p_].
  rewrite parse_string_from_backslash by exact Hvalid.
  unfold bind at 1, string_buffer_append, modify at 1.
  unfold bind at 1, add_column, modify at 1.
  unfold bind at 1, advance_p, modify at 1.
  rewrite (escape_u_surrogate _ d1 d2 d3 d4 l1 l2 l3 l4)
    by (assumption || reflexivity).
  fold cp cp2.
  rewrite parse_string_from_closing_quote by exact Hvalid.
  generalize (convert (surrogate_pair cp cp2)). intro text.
  unfold end_string_value.
  destruct text as [| b text]; exec; cbn [app]; cbv beta iota;
    rewrite parse_loop_nil by reflexivity;
    (eexists; split; [reflexivity |]);
    cbn [handler_ ec state_ state_stack_];
    rewrite ?app_nil_r; repeat split; reflexivity.
Qed.

(** ** Line breaks *)

(** X14. Between tokens and in a block comment, a carriage return
    followed by a line feed is one line break, as is a carriage return
    followed by something else, as is a line feed: after it the parser is
    as it was, with [line_] one more and [column_] 1. *)
Theorem line_break_counts_once fuel s rest :
  passes_line_breaks (state_ s) = true -> ec s = None ->
  (p_ s = ch_cr :: ch_lf :: rest ->
   parse_loop (S (S fuel)) s = parse_loop fuel (set_p_ rest (next_line s))) /\
  (forall c,
     c <> ch_lf -> p_ s = ch_cr :: c :: rest ->
     parse_loop (S (S fuel)) s =
     parse_loop fuel (set_p_ (c :: rest) (next_line s))) /\
  (forall c,
     p_ s = ch_lf :: c :: rest ->
     parse_loop (S (S fuel)) s =
     parse_loop fuel (set_p_ (c :: rest) (next_line s))).
Proof.
  destruct s as [h e cp cp2 buf neg ln col depth maxd prec bi p st stk err].
  unfold passes_line_breaks, next_line.
  cbn [state_ ec p_ line_]. intros Hst ->.
  destruct st; try discriminate Hst; clear Hst.
  all: split; [| split]; [intros -> | intros c Hc -> | intros c ->].
  all: try (apply Z.eqb_neq in Hc).
  all: turn_in_state.
  all: turn_in_state; rewrite ?Hc; exec.
  all: reflexivity.
Qed.

(** ** Numbers across chunks *)

(** The tests of [number_step] on the character [c], each with the
    characters that pass it. *)
Ltac split_number_tests c :=
  repeat match goal with
         | |- context [if ?b then _ else _] =>
             lazymatch b with
             | is_digit c =>
                 let H := fresh "Hd" in
                 destruct b eqn:H; [digit_cases c H |]
             | is_digit19 c =>
                 let H := fresh "Hd" in
                 destruct b eqn:H; [digit19_cases c H |]
             | (c =? ?k) =>
                 let H := fresh "Hk" in
                 destruct b eqn:H; [apply Z.eqb_eq in H; subst c |]
             | (c =? ?k) || (c =? ?k') =>
                 let H := fresh "Hk" in
                 destruct b eqn:H;
                 [apply orb_true_iff in H;
                  destruct H as [H | H]; apply Z.eqb_eq in H; subst c |]
             end
         end.

Lemma parse_number_from_step label c rest s n' :
  number_step (label, string_buffer_ s, precision_ s) c = Some n' ->
  parse_number_from label (c :: rest) s =
  parse_number_from (fst (fst n')) rest (scanned n' [c] rest s).
Proof.
  destruct s as [h e cp cp2 buf neg ln col depth maxd prec bi p st stk err].
  cbn [string_buffer_ precision_]. unfold number_step, scanned.
  destruct label; try discriminate; cbn [parse_number_from].
  all: split_number_tests c.
  all: try discriminate.
  all: intros [= <-]; cbn [fst snd]; eval_tests; exec; reflexivity.
Qed.

Lemma number_scan_app text text' :
  forall n,
    number_scan n (text ++ text') =
    match number_scan n text with
    | Some n' => number_scan n' text'
    | None => None
    end.
Proof.
  induction text as [| c text IH]; intro n; cbn [number_scan app].
  - reflexivity.
  - destruct (number_step n c); [apply IH | reflexivity].
Qed.

Lemma parse_number_from_scan text :
  forall label s rest n',
    number_scan (label, string_buffer_ s, precision_ s) text = Some n' ->
    p_ s = text ++ rest ->
    parse_number_from label (text ++ rest) s =
    parse_number_from (fst (fst n')) rest (scanned n' text rest s).
Proof.
  induction text as [| c text IH]; intros label s rest n' Hscan Hp.
  - cbn [number_scan] in Hscan. injection Hscan as <-.
    destruct s as [h e cp cp2 buf neg ln col depth maxd prec bi p st stk err].
    cbn [p_ app] in Hp. subst p. reflexivity.
  - cbn [number_scan] in Hscan.
    destruct (number_step (label, string_buffer_ s, precision_ s) c)
      as [[[l1 buf1] prec1] |] eqn:Hstep; [| discriminate Hscan].
    cbn [app]. rewrite (parse_number_from_step _ _ _ _ _ Hstep).
    cbn [fst].
    rewrite (IH l1 _ rest n').
    + destruct s as [h e cp cp2 buf neg ln col depth maxd prec bi p st stk
                       err].
      destruct n' as [[l' buf'] prec'].
      unfold scanned, column_after. cbn -[wrap_size_t Nat.iter].
      rewrite (Nat.iter_succ_r (length text)). reflexivity.
    + destruct s. exact Hscan.
    + destruct s. reflexivity.
Qed.

Lemma number_step_label n c n' :
  number_step n c = Some n' -> is_number (fst (fst n')) = true.
Proof.
  destruct n as [[label buffer] precision]. unfold number_step.
  destruct label; try discriminate;
    repeat match goal with
           | |- context [if ?b then _ else _] => destruct b
           end;
    intro H; try discriminate H; injection H as <-; reflexivity.
Qed.

Lemma number_scan_label text :
  forall n n',
    is_number (fst (fst n)) = true ->
    number_scan n text = Some n' -> is_number (fst (fst n')) = true.
Proof.
  induction text as [| c text IH]; intros n n' Hn Hscan;
    cbn [number_scan] in Hscan.
  - injection Hscan as <-. exact Hn.
  - destruct (number_step n c) as [n1 |] eqn:Hstep; [| discriminate Hscan].
    exact (IH n1 n' (number_step_label _ _ _ Hstep) Hscan).
Qed.

(** The turns of the loop of [parse] over input that is all of it part
    of a number. *)
Lemma parse_loop_number_scan fuel s n' :
  is_number (state_ s) = true ->
  number_scan (state_ s, string_buffer_ s, precision_ s) (p_ s) = Some n' ->
  parse_loop (S fuel) s =
  Returned tt (set_state_ (fst (fst n')) (scanned n' (p_ s) [] s)).
Proof.
  intros Hst Hscan.
  destruct s as [h e cp cp2 buf neg ln col depth maxd prec bi p st stk err].
  cbn [state_ string_buffer_ precision_ p_] in Hst, Hscan |- *.
  destruct p as [| c text].
  - cbn [number_scan] in Hscan. injection Hscan as <-.
    rewrite parse_loop_nil by reflexivity. reflexivity.
  - rewrite parse_loop_turn with (c := c) (rest := text);
      [| reflexivity | destruct st; discriminate].
    unfold bind at 1.
    assert (E : forall s0,
              state_ s0 = st -> p_ s0 = c :: text ->
              parse_switch c text s0 =
              parse_number_from st ((c :: text) ++ []) s0).
    { intros s0 Hs Hp. unfold parse_switch, bind at 1, gets. rewrite Hs.
      rewrite app_nil_r.
      destruct st; try discriminate Hst;
        unfold parse_number, bind, gets; rewrite Hs, Hp; reflexivity. }
    rewrite E by reflexivity.
    rewrite (parse_number_from_scan (c :: text) st _ [] n')
      by (exact Hscan || (cbn [p_]; rewrite app_nil_r; reflexivity)).
    pose proof (number_scan_label _ (st, buf, prec) _ Hst Hscan) as Hl'.
    destruct n' as [[l' buf'] prec']. cbn [fst] in Hl' |- *.
    unfold scanned.
    destruct l'; try discriminate Hl'; cbn [parse_number_from]; exec;
      destruct err; rewrite ?parse_loop_nil by reflexivity; reflexivity.
Qed.

(** A chunk that is all of it part of a number. *)
Lemma feed_number_scan fuel text s n' :
  is_number (state_ s) = true ->
  number_scan (state_ s, string_buffer_ s, precision_ s) text = Some n' ->
  (1 <= fuel)%nat ->
  feed fuel text s = Returned tt (scanned_chunk n' text s).
Proof.
  intros Hst Hscan Hfuel. destruct fuel as [| fuel]; [lia |].
  unfold feed, bind at 1, set_source, modify, parse, bind at 1, modify.
  rewrite (parse_loop_number_scan fuel _ n')
    by (destruct s; assumption).
  destruct s. reflexivity.
Qed.

(** X15. Within a number a chunk boundary changes nothing: where the chunk
    [a] and then the chunk [b] are all part of a number that the parser is
    in, [set_source] and [parse] on [a] and then on [b] leave the parser as
    one [set_source] and [parse] on [a ++ b] do, but for [begin_input_],
    which is the start of the chunk given last. *)
Theorem number_chunks_join fuel a b s n1 n2 :
  is_number (state_ s) = true ->
  number_scan (state_ s, string_buffer_ s, precision_ s) a = Some n1 ->
  number_scan n1 b = Some n2 ->
  (1 <= fuel)%nat ->
  (feed fuel a ;; feed fuel b) s =
  (feed fuel (a ++ b) ;; modify (set_begin_input_ b)) s.
Proof.
  intros Hst Ha Hb Hfuel.
  assert (Hab : number_scan (state_ s, string_buffer_ s, precision_ s)
                  (a ++ b) = Some n2)
    by (rewrite number_scan_app, Ha; exact Hb).
  unfold bind.
  rewrite (feed_number_scan fuel a s n1 Hst Ha Hfuel).
  rewrite (feed_number_scan fuel (a ++ b) s n2 Hst Hab Hfuel).
  pose proof (number_scan_label _ (state_ s, string_buffer_ s, precision_ s) _ Hst Ha) as Hn1.
  rewrite (feed_number_scan fuel b (scanned_chunk n1 a s) n2).
  - destruct s as [h e cp cp2 buf neg ln col depth maxd prec bi p st stk err].
    destruct n1 as [[l1 buf1] prec1]. destruct n2 as [[l2 buf2] prec2].
    unfold modify, scanned_chunk, scanned, column_after.
    cbn -[wrap_size_t Nat.iter].
    rewrite length_app, Nat.add_comm, Nat.iter_add. reflexivity.
  - destruct s. destruct n1 as [[l1 buf1] prec1]. exact Hn1.
  - destruct s. destruct n1 as [[l1 buf1] prec1]. exact Hb.
  - exact Hfuel.
Qed.

(** *** Literals with a fraction *)

Lemma wrap_uint8_add_l a b : wrap_uint8 (wrap_uint8 a + b) = wrap_uint8 (a + b).
Proof. unfold wrap_uint8. apply Zplus_mod_idemp_l. Qed.

Lemma number_scan_digits ds :
  forall b p,
    all_digits ds ->
    number_scan (parse_state.integer, b, p) ds =
    Some (parse_state.integer, b ++ ds, p).
Proof.
  induction ds as [| c ds IH]; intros b p Hds.
  - cbn [number_scan]. rewrite app_nil_r. reflexivity.
  - inversion Hds as [| ? ? Hc Hds']; subst.
    cbn [number_scan number_step]. rewrite Hc.
    rewrite IH by exact Hds'. rewrite <- app_assoc. reflexivity.
Qed.

Lemma number_scan_fraction ds :
  forall l b p c,
    l = parse_state.fraction1 \/ l = parse_state.fraction2 ->
    is_digit c = true -> all_digits ds ->
    number_scan (l, b, p) (c :: ds) =
    Some (parse_state.fraction2, b ++ c :: ds,
          wrap_uint8 (p + Z.of_nat (length (c :: ds)))).
Proof.
  induction ds as [| c' ds IH]; intros l b p c Hl Hc Hds.
  - destruct Hl as [-> | ->]; cbn [number_scan number_step]; rewrite Hc;
      reflexivity.
  - inversion Hds as [| ? ? Hc' Hds']; subst.
    assert (E : number_step (l, b, p) c =
                Some (parse_state.fraction2, b ++ [c], wrap_uint8 (p + 1)))
      by (destruct Hl as [-> | ->]; cbn [number_step]; rewrite Hc;
          reflexivity).
    change (number_scan (l, b, p) (c :: c' :: ds))
      with (match number_step (l, b, p) c with
            | Some n1 => number_scan n1 (c' :: ds)
            | None => None
            end).
    rewrite E, (IH parse_state.fraction2) by auto.
    rewrite <- app_assoc, wrap_uint8_add_l.
    do 3 f_equal. change (length (c :: c' :: ds)) with (S (length (c' :: ds))).
    lia.
Qed.

(** The rest of the whole part, the point and the digits of the fraction. *)
Lemma number_scan_whole_fraction l b p ws c ds :
  l = parse_state.zero /\ ws = [] \/ l = parse_state.integer /\ all_digits ws ->
  is_digit c = true -> all_digits ds ->
  number_scan (l, b, p) (ws ++ ch_dot :: c :: ds) =
  Some (parse_state.fraction2, b ++ ws ++ ch_dot :: c :: ds,
        wrap_uint8 (Z.of_nat (length (b ++ ws) + length (c :: ds)))).
Proof.
  intros Hl Hc Hds.
  assert (E : number_scan (l, b, p) ws = Some (l, b ++ ws, p)).
  { destruct Hl as [[-> ->] | [-> Hws]].
    - cbn [number_scan]. rewrite app_nil_r. reflexivity.
    - apply number_scan_digits, Hws. }
  rewrite number_scan_app, E.
  assert (E' : number_step (l, b ++ ws, p) ch_dot =
               Some (parse_state.fraction1, (b ++ ws) ++ [ch_dot],
                     wrap_uint8 (Z.of_nat (length (b ++ ws)))))
    by (destruct Hl as [[-> _] | [-> _]]; reflexivity).
  change (number_scan (l, b ++ ws, p) (ch_dot :: c :: ds))
    with (match number_step (l, b ++ ws, p) ch_dot with
          | Some n1 => number_scan n1 (c :: ds)
          | None => None
          end).
  rewrite E', (number_scan_fraction ds parse_state.fraction1) by auto.
  rewrite <- !app_assoc, wrap_uint8_add_l, <- Nat2Z.inj_add. reflexivity.
Qed.

(** What [end_parse] does at the end of a fraction below [root]. *)
Lemma end_parse_fraction s d :
  state_ s = parse_state.fraction2 -> state_stack_ s = [parse_state.root] ->
  str_to_double (string_buffer_ s) (precision_ s) = Some d ->
  events_of (end_parse s) =
  Some (handler_ s ++
        [double_value (if is_negative_ s then neg_double d else d)
           (precision_ s); end_json]).
Proof.
  destruct s as [h e cp cp2 buf neg ln col depth maxd prec bi p st stk err].
  cbn [state_ state_stack_ string_buffer_ precision_ is_negative_ handler_].
  intros -> -> Hd. exec. eval_eqb. rewrite Hd. exec. rewrite <- app_assoc. reflexivity.
Qed.

Lemma number_scan_literal_fraction l b p whole c ds :
  l = parse_state.minus \/ l = parse_state.start ->
  integer_literal whole -> is_digit c = true -> all_digits ds ->
  exists c0 ws l0,
    whole = c0 :: ws /\
    (l0 = parse_state.zero \/ l0 = parse_state.integer) /\
    (is_digit19 c0 = true \/ c0 = ch_0) /\
    (l = parse_state.minus -> number_step (l, b, p) c0 = Some (l0, b ++ [c0], p)) /\
    (c0 = ch_0 -> l0 = parse_state.zero) /\
    (is_digit19 c0 = true -> l0 = parse_state.integer) /\
    number_scan (l0, b ++ [c0], p) (ws ++ ch_dot :: c :: ds) =
    Some (parse_state.fraction2, b ++ whole ++ ch_dot :: c :: ds,
          wrap_uint8 (Z.of_nat (length (b ++ whole) + length (c :: ds)))).
Proof.
  intros Hl [-> | (c0 & ws & -> & Hc0 & Hws)] Hc Hds.
  - exists ch_0, [], parse_state.zero.
    repeat split; auto.
    + intros ->. reflexivity.
    + discriminate.
    + rewrite (number_scan_whole_fraction parse_state.zero (b ++ [ch_0]) p []
                 c ds) by auto.
      rewrite <- !app_assoc, !app_nil_r. reflexivity.
  - exists c0, ws, parse_state.integer.
    pose proof (proj1 (is_digit19_range c0) Hc0) as Hr.
    repeat split; auto.
    + intros ->. cbn [number_step]. rewrite Hc0.
      destruct (Z.eqb_spec c0 ch_0) as [E | _]; [| reflexivity].
      lia.
    + intros ->. discriminate Hc0.
    + rewrite (number_scan_whole_fraction parse_state.integer (b ++ [c0]) p ws
                 c ds) by auto.
      rewrite <- !app_assoc. reflexivity.
Qed.

(** [set_source] and [parse] on a literal with a fraction. *)
Lemma feed_fraction_literal fuel (negative : bool) whole c ds :
  integer_literal whole -> is_digit c = true -> all_digits ds ->
  exists s,
    feed (S (S fuel))
      ((if negative then [ch_minus] else []) ++ whole ++ ch_dot :: c :: ds)
      new_parser = Returned tt s /\
    ec s = None /\ state_ s = parse_state.fraction2 /\
    state_stack_ s = [parse_state.root] /\
    handler_ s = [begin_json] /\ is_negative_ s = negative /\
    string_buffer_ s = whole ++ ch_dot :: c :: ds /\
    precision_ s = wrap_uint8 (Z.of_nat (length whole + length (c :: ds))).
Proof.
  intros Hwhole Hc Hds.
  destruct (number_scan_literal_fraction parse_state.minus [] 0 whole c ds
              (or_introl eq_refl) Hwhole Hc Hds)
    as (c0 & ws & l0 & -> & Hl0 & Hc0 & Hstep & Hzero & Hint & Hscan).
  specialize (Hstep eq_refl).
  destruct negative; cbn [app].
  - rewrite feed_first_turn by reflexivity. unfold bind at 1.
    rewrite case_start_minus. exec.
    rewrite (parse_loop_number_scan fuel _
               (parse_state.fraction2, (c0 :: ws) ++ ch_dot :: c :: ds,
                wrap_uint8 (Z.of_nat (length (c0 :: ws) +
                                      length (c :: ds)))));
      [| reflexivity
       | cbn [state_ string_buffer_ precision_ p_ number_scan app];
         rewrite Hstep; exact Hscan].
    eexists. split; [reflexivity |]. repeat split.
  - rewrite feed_first_turn by reflexivity. unfold bind at 1.
    assert (E : forall s,
              case_start c0 (ws ++ ch_dot :: c :: ds) s =
              (handler begin_json ;; string_buffer_push_back c0 ;;
               assign_state l0 ;; consume (ws ++ ch_dot :: c :: ds)) s).
    { intro s. destruct Hc0 as [Hc0 | ->].
      - rewrite (Hint Hc0). apply case_start_digit19, Hc0.
      - rewrite (Hzero eq_refl). apply case_start_zero. }
    rewrite E. exec.
    rewrite (parse_loop_number_scan fuel _
               (parse_state.fraction2, (c0 :: ws) ++ ch_dot :: c :: ds,
                wrap_uint8 (Z.of_nat (length (c0 :: ws) +
                                      length (c :: ds)))));
      [| destruct Hl0 as [-> | ->]; reflexivity
       | exact Hscan].
    eexists. split; [reflexivity |]. repeat split.
Qed.

(** X16. The document that consists of a literal with a fraction and no
    exponent gives one [double_value]: of what the conversion to [double]
    returns for the characters of the literal without its sign, negated if
    there is a minus sign, together with the precision, which is the
    number of the digits of the literal modulo 256. *)
Theorem fraction_literal_events (whole frac : list Z) (fuel : nat) (d : double) :
  integer_literal whole -> all_digits frac -> frac <> [] ->
  (2 <= fuel)%nat ->
  let text := whole ++ ch_dot :: frac in
  let precision := wrap_uint8 (Z.of_nat (length whole + length frac)) in
  str_to_double text precision = Some d ->
  events_of (parse_document fuel text new_parser) =
  Some [begin_json; double_value d precision; end_json] /\
  events_of (parse_document fuel (ch_minus :: text) new_parser) =
  Some [begin_json; double_value (neg_double d) precision; end_json].
Proof.
  intros Hwhole Hfrac Hne Hfuel text precision Hd.
  destruct frac as [| c ds]; [contradiction |].
  pose proof (Forall_inv Hfrac) as Hc. pose proof (Forall_inv_tail Hfrac) as Hds.
  cbv beta in Hc.
  destruct fuel as [| [| fuel]]; try lia.
  unfold parse_document, parse_chunks.
  split.
  - destruct (feed_fraction_literal fuel false whole c ds Hwhole Hc Hds)
      as (s & E & Hec & Hst & Hstk & Hh & Hneg & Hbuf & Hprec).
    cbn [app] in E.
    unfold bind. fold text in E. rewrite E. unfold unless_ec. rewrite Hec.
    rewrite (end_parse_fraction s d Hst Hstk)
      by (rewrite Hbuf, Hprec; exact Hd).
    rewrite Hh, Hneg, Hprec. reflexivity.
  - destruct (feed_fraction_literal fuel true whole c ds Hwhole Hc Hds)
      as (s & E & Hec & Hst & Hstk & Hh & Hneg & Hbuf & Hprec).
    cbn [app] in E.
    unfold bind. fold text in E. rewrite E. unfold unless_ec. rewrite Hec.
    rewrite (end_parse_fraction s d Hst Hstk)
      by (rewrite Hbuf, Hprec; exact Hd).
    rewrite Hh, Hneg, Hprec. reflexivity.
Qed.

(** ** Keywords across chunks *)

Ltac split_text H :=
  repeat match type of H with
         | ?a ++ _ = _ =>
             destruct a; cbn [app] in H;
             [| injection H as -> H || discriminate H]
         | _ => subst
         end.

(** [exec] that stops at the end of a value. *)
Ltac exec_to_value_end :=
  cbv beta iota zeta delta
    [bind ret gets modify unless_ec assign_ec err_handler_error
     handler assign_state advance_p incr_column add_column
     error_and_return consume
     set_source parse feed
     set_handler_ set_err_handler_ set_cp_ set_cp2_ set_string_buffer_
     set_is_negative_ set_line_ set_column_ set_nesting_depth_ set_max_depth_
     set_precision_ set_begin_input_ set_p_ set_state_ set_state_stack_ set_ec
     handler_ err_handler_ cp_ cp2_ string_buffer_ is_negative_ line_ column_
     nesting_depth_ max_depth_ precision_ begin_input_ p_ state_ state_stack_
     ec].

Lemma done_or_expect_comma_or_end_spec s :
  done_or_expect_comma_or_end s =
  match state_stack_ s with
  | [] => Assertion_failed
  | top :: _ =>
      Returned tt
        (set_state_ (state_after_value top)
           (set_handler_
              (handler_ s ++ (if is_root top then [end_json] else [])) s))
  end.
Proof.
  destruct s as [h e cp cp2 buf neg ln col depth maxd prec bi p st stk err].
  destruct stk as [| top stk]; [reflexivity |].
  destruct top; exec; rewrite ?app_nil_r; reflexivity.
Qed.

Lemma end_json_or_expect_comma_or_end_spec s :
  end_json_or_expect_comma_or_end s = done_or_expect_comma_or_end s.
Proof.
  destruct s as [h e cp cp2 buf neg ln col depth maxd prec bi p st stk err].
  destruct stk as [| top stk]; [reflexivity |].
  destruct top; reflexivity.
Qed.

(** X17. A chunk boundary inside or beside [true], [false] or [null]
    changes nothing: where a value is expected, the letters taken one by
    one over two chunks and the whole keyword taken at once leave the
    parser in the same state, with the same events and reports, but for
    [begin_input_], which is the start of the chunk given last. *)
Theorem keyword_chunks_join fuel a b s :
  expects_value (state_ s) = true -> keyword_text (a ++ b) ->
  (5 <= fuel)%nat ->
  (feed fuel a ;; feed fuel b) s =
  (feed fuel (a ++ b) ;; modify (set_begin_input_ b)) s.
Proof.
  intros Hst Hkw Hfuel.
  do 5 (destruct fuel as [| fuel]; [lia |]). clear Hfuel.
  destruct s as [h e cp cp2 buf neg ln col depth maxd prec bi p st stk err].
  cbn [state_] in Hst.
  destruct Hkw as [H | [H | H]]; rewrite H; split_text H.
  all: destruct st; try discriminate Hst; clear Hst.
  all: exec_to_value_end.
  all: repeat first
         [ progress (unfold parse_true, parse_false, parse_null);
           eval_tests; exec_to_value_end
         | rewrite parse_loop_nil by reflexivity; exec_to_value_end
         | erewrite parse_loop_turn by (reflexivity || discriminate);
           unfold bind at 1, parse_switch, bind at 1, gets; cbn [state_];
           unfold_cases; eval_tests; exec_to_value_end
         | rewrite end_json_or_expect_comma_or_end_spec
         | rewrite done_or_expect_comma_or_end_spec; cbn [state_stack_];
           exec_to_value_end
         | match goal with
           | |- context [match ?k with [] => _ | _ :: _ => _ end] =>
               is_var k; destruct k; exec_to_value_end
           end ].
  all: try reflexivity.
  all: flatten_wraps; reflexivity.
Qed.

(** ** Strings of plain characters *)

Lemma parse_string_from_plain_character span c rest s :
  plain_character c = true ->
  parse_string_from parse_state.string_u1 span (c :: rest) s =
  (advance_p rest ;;
   parse_string_from parse_state.string_u1 (span ++ [c]) rest) s.
Proof.
  unfold plain_character. rewrite negb_true_iff, !orb_false_iff.
  intros (((((H1 & H2) & H3) & H4) & H5) & H6).
  cbn [parse_string_from]. rewrite H1, H2, H3, H4, H5, H6. reflexivity.
Qed.

Lemma parse_string_from_plain_text text :
  forall span rest s,
    Forall (fun c => plain_character c = true) text ->
    p_ s = text ++ rest ->
    parse_string_from parse_state.string_u1 span (text ++ rest) s =
    parse_string_from parse_state.string_u1 (span ++ text) rest
      (set_p_ rest s).
Proof.
  induction text as [| c text IH]; intros span rest s Htext Hp.
  - cbn [app] in *. rewrite app_nil_r.
    destruct s as [h e cp cp2 buf neg ln col depth maxd prec bi p st stk err].
    cbn [p_] in Hp. subst. reflexivity.
  - cbn [app]. rewrite parse_string_from_plain_character
      by exact (Forall_inv Htext).
    unfold bind at 1, advance_p, modify.
    rewrite IH by (exact (Forall_inv_tail Htext) || (destruct s; reflexivity)).
    rewrite <- app_assoc. destruct s. reflexivity.
Qed.

Lemma parse_loop_string_u1 fuel s :
  state_ s = parse_state.string_u1 -> p_ s <> [] ->
  parse_loop (S fuel) s =
  (parse_string_from parse_state.string_u1 [] (p_ s) ;;
   unless_ec (parse_loop fuel)) s.
Proof.
  intros Hst Hp.
  destruct (p_ s) as [| c rest] eqn:E; [contradiction |].
  rewrite (parse_loop_turn fuel s c rest E) by (rewrite Hst; discriminate).
  unfold bind at 1, parse_switch, bind at 1, gets. rewrite Hst.
  unfold parse_string, bind at 1 2, gets. rewrite Hst, E. reflexivity.
Qed.

(** The end of a chunk inside a string, after plain characters. *)
Lemma plain_text_to_end_of_chunk fuel text s :
  Forall (fun c => plain_character c = true) text ->
  fst (validate text) = unicons.ok ->
  state_ s = parse_state.string_u1 -> p_ s = text -> ec s = None ->
  exists s',
    parse_loop (S fuel) s = Returned tt s' /\
    string_buffer_ s' = string_buffer_ s ++ text /\
    handler_ s' = handler_ s /\ ec s' = None /\
    state_ s' = parse_state.string_u1 /\ state_stack_ s' = state_stack_ s.
Proof.
  intros Htext Hvalid Hst Hp Hec.
  destruct text as [| c text].
  - rewrite parse_loop_nil by exact Hp. exists s. rewrite app_nil_r. repeat split; auto.
  - rewrite parse_loop_string_u1 by (rewrite ?Hp; (exact Hst || discriminate)).
    unfold bind at 1. rewrite Hp.
    pose proof (parse_string_from_plain_text (c :: text) [] [] s Htext) as E.
    rewrite app_nil_r in E. rewrite (E Hp). clear E.
    cbn [app parse_string_from]. unfold validated.
    destruct (validate (c :: text)) as [r n]. cbn [fst] in Hvalid. subst r.
    destruct s as [h e cp cp2 buf neg ln col depth maxd prec bi p st stk err].
    cbn [ec state_ p_] in *. subst. exec.
    rewrite parse_loop_nil by reflexivity.
    eexists. split; [reflexivity |]. cbn. repeat split; auto.
Qed.

(** The closing quote of a string that is the whole document, after plain
    characters. *)
Lemma plain_text_to_closing_quote fuel text s :
  Forall (fun c => plain_character c = true) text ->
  fst (validate text) = unicons.ok ->
  state_ s = parse_state.string_u1 -> p_ s = text ++ [ch_dquote] ->
  ec s = None -> state_stack_ s = [parse_state.root] ->
  exists s',
    parse_loop (S fuel) s = Returned tt s' /\
    handler_ s' =
    handler_ s ++ [string_value (string_buffer_ s ++ text); end_json] /\
    ec s' = None /\ state_ s' = parse_state.done /\
    state_stack_ s' = [parse_state.root].
Proof.
  intros Htext Hvalid Hst Hp Hec Hstk.
  rewrite parse_loop_string_u1
    by (rewrite ?Hp; (exact Hst || (destruct text; discriminate))).
  unfold bind at 1. rewrite Hp.
  rewrite parse_string_from_plain_text by assumption.
  cbn [app]. rewrite parse_string_from_closing_quote by exact Hvalid.
  destruct s as [h e cp cp2 buf neg ln col depth maxd prec bi p st stk err].
  cbn [ec state_ p_ state_stack_ handler_ string_buffer_] in *. subst.
  exec. cbv beta iota delta [end_string_value]. exec.
  destruct buf as [| b buf]; exec;
    rewrite parse_loop_nil by reflexivity;
    (eexists; split; [reflexivity |]); cbn [handler_ ec state_ state_stack_];
    rewrite <- ?app_assoc, ?app_nil_r; repeat split; reflexivity.
Qed.

Lemma feed_plain_string fuel text :
  Forall (fun c => plain_character c = true) text ->
  fst (validate text) = unicons.ok ->
  exists s,
    feed (S (S fuel)) (ch_dquote :: text ++ [ch_dquote]) new_parser =
    Returned tt s /\
    handler_ s = [begin_json; string_value text; end_json] /\
    ec s = None /\ state_ s = parse_state.done /\
    state_stack_ s = [parse_state.root].
Proof.
  intros Htext Hvalid.
  unfold feed, parse, bind at 1 2, set_source, modify.
  turn_in_state.
  match goal with
  | |- context [parse_loop (S fuel) ?s0] =>
      destruct (plain_text_to_closing_quote fuel text s0)
        as (s' & E & Hh & H);
        [exact Htext | exact Hvalid
        | reflexivity | reflexivity | reflexivity | reflexivity |]
  end.
  exists s'. split; [exact E |]. split; [exact Hh | exact H].
Qed.

Lemma feed_plain_string_begin fuel a :
  Forall (fun c => plain_character c = true) a ->
  fst (validate a) = unicons.ok ->
  exists s,
    feed (S (S fuel)) (ch_dquote :: a) new_parser = Returned tt s /\
    string_buffer_ s = a /\ handler_ s = [begin_json] /\
    ec s = None /\ state_ s = parse_state.string_u1 /\
    state_stack_ s = [parse_state.root].
Proof.
  intros Ha Hva.
  unfold feed, parse, bind at 1 2, set_source, modify.
  turn_in_state.
  match goal with
  | |- context [parse_loop (S fuel) ?s0] =>
      destruct (plain_text_to_end_of_chunk fuel a s0)
        as (s' & E & H);
        [exact Ha | exact Hva | reflexivity | reflexivity | reflexivity |]
  end.
  exists s'. split; [exact E | exact H].
Qed.

Lemma feed_plain_string_end fuel b s1 :
  Forall (fun c => plain_character c = true) b ->
  fst (validate b) = unicons.ok ->
  state_ s1 = parse_state.string_u1 ->
  state_stack_ s1 = [parse_state.root] ->
  exists s,
    feed (S fuel) (b ++ [ch_dquote]) s1 = Returned tt s /\
    handler_ s =
    handler_ s1 ++ [string_value (string_buffer_ s1 ++ b); end_json] /\
    ec s = None /\ state_ s = parse_state.done /\
    state_stack_ s = [parse_state.root].
Proof.
  intros Hb Hvb Hst1 Hstk1.
  unfold feed, parse, bind at 1 2, set_source, modify.
  match goal with
  | |- context [parse_loop (S fuel) ?s0] =>
      destruct (plain_text_to_closing_quote fuel b s0)
        as (s' & E & Hh & H);
        [exact Hb | exact Hvb
        | destruct s1; exact Hst1 | destruct s1; reflexivity
        | destruct s1; reflexivity | destruct s1; exact Hstk1 |]
  end.
  exists s'. split; [exact E |]. split; [| exact H].
  rewrite Hh. destruct s1. reflexivity.
Qed.

(** X18. The document that is one string of plain characters (no control
    character, no backslash, no quote) gives [string_value] of these
    characters, when [unicons::validate] accepts them. The validation is by
    chunk: where the string is cut in two by a chunk boundary, each part
    has to be accepted on its own. *)
Theorem plain_string_events fuel a b :
  Forall (fun c => plain_character c = true) a ->
  Forall (fun c => plain_character c = true) b ->
  (2 <= fuel)%nat ->
  (fst (validate (a ++ b)) = unicons.ok ->
   events_of
     (parse_document fuel (ch_dquote :: (a ++ b) ++ [ch_dquote]) new_parser) =
   Some [begin_json; string_value (a ++ b); end_json]) /\
  (fst (validate a) = unicons.ok -> fst (validate b) = unicons.ok ->
   events_of
     (parse_chunks fuel [ch_dquote :: a; b ++ [ch_dquote]] new_parser) =
   Some [begin_json; string_value (a ++ b); end_json]).
Proof.
  intros Ha Hb Hfuel.
  do 2 (destruct fuel as [| fuel]; [lia |]). clear Hfuel.
  split.
  - intro Hvalid.
    destruct (feed_plain_string fuel (a ++ b)
                (proj2 (Forall_app _ a b) (conj Ha Hb)) Hvalid)
      as (s & E & H).
    exact (parse_document_done _ _ s _ E H).
  - intros Hva Hvb.
    destruct (feed_plain_string_begin fuel a Ha Hva)
      as (s1 & E1 & Hbuf1 & Hh1 & Hec1 & Hst1 & Hstk1).
    destruct (feed_plain_string_end (S fuel) b s1 Hb Hvb Hst1 Hstk1)
      as (s2 & E2 & Hh2 & Hec2 & Hst2 & Hstk2).
    rewrite Hh1, Hbuf1 in Hh2.
    unfold parse_chunks, bind.
    rewrite E1. unfold unless_ec at 1. rewrite Hec1.
    rewrite E2. unfold unless_ec. rewrite Hec2.
    rewrite (end_parse_done s2 Hst2 Hstk2).
    destruct s2. exact (f_equal Some Hh2).
Qed.

(** ** C4: comments *)







(** ** C3: integer literals in every place *)

















End Properties.

(** * The properties at given inputs *)



(** C1, at the text of two spaces and the digit 1: fed as one chunk it
    gives [begin_json] twice, fed as a chunk of one space and a chunk of
    the rest it gives [begin_json] three times. The call of [begin_json]
    stands in front of the switch of the state [start] and is repeated at
    every turn of the loop that finds this state. *)
Theorem begin_json_depends_on_chunks :
  events_of (collaborators := abort_on_error)
    (parse_chunks 4 [codes "  1"] new_parser) =
  Some [begin_json; begin_json; uinteger_value 1; end_json] /\
  events_of (collaborators := abort_on_error)
    (parse_chunks 4 [codes " "; codes " 1"] new_parser) =
  Some [begin_json; begin_json; begin_json; uinteger_value 1; end_json].
Proof. split; vm_compute; reflexivity. Qed.

(** C2. A turn of the loop in state [start] calls [begin_json] before
    anything else, whatever the character is; so at the text of a space
    and an empty array, where the events of the array are balanced,
    [begin_json] is given twice. *)
Theorem begin_json_repeated :
  (forall (C : Collaborators) c rest (s s' : basic_json_parser),
     state_ s = parse_state.start ->
     parse_switch c rest s = Returned tt s' ->
     exists more, handler_ s' = handler_ s ++ begin_json :: more) /\
  events_of (collaborators := abort_on_error)
    (parse_document 4 (codes " []") new_parser) =
  Some [begin_json; begin_json; begin_array; end_array; end_json].
Proof.
  split.
  - intros C c rest s s'. apply start_turn_gives_begin_json.
  - vm_compute. reflexivity.
Qed.

Lemma begin_json_repeated_witness :
  state_ (new_parser (collaborators := abort_on_error)) = parse_state.start /\
  exists s',
    parse_switch ch_space [] (new_parser (collaborators := abort_on_error)) =
    Returned tt s' /\
    exists more, handler_ s' = handler_ new_parser ++ begin_json :: more.
Proof.
  split; [reflexivity|].
  eexists. split; [vm_compute; reflexivity|].
  apply (proj1 begin_json_repeated abort_on_error ch_space [] new_parser);
    [reflexivity | vm_compute; reflexivity].
Defined.


(** The stars in front of the slash that ends a block comment are taken
    in pairs: after two stars a comment is left, after three it is not. *)
Lemma block_comment_stars :
  events_of (collaborators := continue_on_error)
    (parse_document 12 (codes "[/**/1]") new_parser) =
  Some [begin_json; begin_array; uinteger_value 1; end_array; end_json] /\
  exists s,
    feed (collaborators := continue_on_error) 12 (codes "[/***/1]")
      new_parser = Returned tt s /\
    state_ s = parse_state.slash_star /\ p_ s = [] /\
    handler_ s = [begin_json; begin_array].
Proof.
  split; [vm_compute; reflexivity |].
  eexists. split; [vm_compute; reflexivity |]. repeat split.
Qed.


Lemma end_parse_spec_witness :
  exists s',
    end_parse (collaborators := abort_on_error)
      (set_string_buffer_ (codes "12")
         (set_state_ parse_state.integer new_parser)) = Returned tt s' /\
    new_events
      (set_string_buffer_ (codes "12")
         (set_state_ parse_state.integer new_parser)) s' =
    [uinteger_value 12; end_json] /\
    state_ s' = parse_state.done /\ string_buffer_ s' = [] /\ ec s' = None.
Proof.
  destruct (@end_parse_spec abort_on_error
              (set_string_buffer_ (codes "12")
                 (set_state_ parse_state.integer new_parser))
              parse_state.root [] eq_refl)
    as (s' & E & H).
  exists s'. split; [exact E |].
  destruct H as (_ & _ & He & _ & Hec & Hst & Hbuf & _).
  repeat split; assumption.
Defined.

Lemma end_parse_after_line_break :
  exists s s',
    feed (collaborators := abort_on_error) 2 [ch_lf] new_parser = Returned tt s /\
    end_parse s = Returned tt s' /\
    state_ s = parse_state.lf /\
    pending_number (state_ s) = false /\
    done_or_start (state_ s) = false /\
    new_reports s s' = [].
Proof.
  eexists. eexists. split; [vm_compute; reflexivity|].
  split; [vm_compute; reflexivity|]. repeat split.
Qed.

(** C6. Opening a container asks the policy about [max_depth_exceeded]
    exactly when the depth, once incremented, has reached the cap, the
    test being [++nesting_depth_ >= max_depth_]; so at the cap 1 and the
    text of an empty array, whose depth is 1 and does not exceed the cap,
    opening the array reports [max_depth_exceeded]. *)
Theorem max_depth_reached_is_reported :
  (forall (C : Collaborators) (s : basic_json_parser),
     exists s',
       do_begin_array s = Returned tt s' /\
       new_reports s s' =
       if nesting_depth_ s + 1 >=? max_depth_ s
       then [mk_report false json_parser_errc.max_depth_exceeded
               (line_ s) (column_ s)]
       else []) /\
  exists s,
    (max_nesting_depth 1 ;; feed 2 (codes "[]"))
      (new_parser (collaborators := abort_on_error)) = Returned tt s /\
    nesting_depth_ s = 1 /\ max_depth_ s = 1 /\
    ec s = Some json_parser_errc.max_depth_exceeded /\
    err_handler_ s =
      [mk_report false json_parser_errc.max_depth_exceeded 1 1] /\
    handler_ s = [begin_json].
Proof.
  split.
  - intros C s. exact (proj1 (do_begin_reports_at_cap s)).
  - eexists. split; [vm_compute; reflexivity|]. repeat split.
Qed.

Lemma leading_zero_scenario_witness :
  fst (validate (Collaborators := abort_on_error) [ch_a]) = unicons.ok /\
  (6 <= 6)%nat /\
  exists s,
    feed (collaborators := abort_on_error) 6
      [ch_lbrace; ch_dquote; ch_a; ch_dquote; ch_colon; ch_0; 49; ch_rbrace]
      new_parser = Returned tt s /\
    ec s = Some json_parser_errc.leading_zero /\
    line_ s = 1 /\ column_ s = 7.
Proof.
  split; [reflexivity|]. split; [lia|].
  destruct (@leading_zero_scenario abort_on_error 6 eq_refl ltac:(lia))
    as (s & E & H1 & _ & H2 & H3 & _).
  exists s. auto.
Defined.

(** C8. A character that is no hex digit is reported by
    [append_codepoint] as [expected_value]; so at the string whose escape
    has G as its third digit, the code units 34 92 117 49 50 71 52 34, the
    error is [expected_value], not [invalid_hex_escape_sequence]. *)
Theorem non_hex_digit_is_expected_value :
  (forall (C : Collaborators) c (s : basic_json_parser),
     is_hex_digit c = false ->
     exists s',
       append_codepoint c s = Returned tt s' /\
       new_reports s s' =
       [mk_report false json_parser_errc.expected_value
          (line_ s) (column_ s)]) /\
  exists s,
    feed (collaborators := abort_on_error) 4
      [ch_dquote; ch_backslash; ch_u; 49; 50; 71; 52; ch_dquote]
      new_parser = Returned tt s /\
    ec s = Some json_parser_errc.expected_value /\
    err_handler_ s = [mk_report false json_parser_errc.expected_value 1 6] /\
    state_ s = parse_state.escape_u3.
Proof.
  split.
  - intros C c s Hc.
    destruct (proj1 (append_codepoint_reports c s)) as (s' & E & H).
    rewrite Hc in H. exists s'. split; assumption.
  - eexists. split; [vm_compute; reflexivity|]. repeat split.
Qed.

Lemma non_hex_digit_is_expected_value_witness :
  is_hex_digit 71 = false /\
  exists s',
    append_codepoint (collaborators := abort_on_error) 71 new_parser =
    Returned tt s' /\
    new_reports new_parser s' =
    [mk_report false json_parser_errc.expected_value 1 1].
Proof.
  split; [reflexivity|].
  apply (proj1 non_hex_digit_is_expected_value abort_on_error 71 new_parser).
  reflexivity.
Defined.

(** C9 as the claim states it fails: after empty input [end_parse]
    reports nothing, even under the policy that aborts on every error. *)
Lemma end_parse_on_empty_input_is_silent :
  exists s1 s2,
    feed (collaborators := abort_on_error) 1 [] new_parser = Returned tt s1 /\
    state_ s1 = parse_state.start /\
    end_parse s1 = Returned tt s2 /\
    err_handler_ s2 = [] /\ ec s2 = None.
Proof.
  eexists. eexists. split; [vm_compute; reflexivity|].
  split; [reflexivity|]. split; [vm_compute; reflexivity|]. split; reflexivity.
Qed.

Lemma reset_spec_witness :
  exists s s1,
    feed (collaborators := abort_on_error) 2 [49; 50] new_parser = Returned tt s /\
    reset s = Returned tt s1 /\
    string_buffer_ s1 = [49; 50] /\
    events_of (parse_document 2 [51] s1) =
    Some [begin_json; begin_json; uinteger_value 123; end_json].
Proof.
  eexists. 
  match goal with |- exists s1, feed 2 ?t ?p = Returned tt ?s /\ _ =>
    let r := eval vm_compute in (feed (collaborators := abort_on_error) 2 t p) in
    match r with Returned _ ?s0 => unify s s0 end
  end.
  match goal with |- exists s1, _ = Returned tt ?s /\ _ =>
    destruct (@reset_spec abort_on_error s)
      as (s1 & E & _ & _ & _ & _ & _ & Hb & _ & _ & _ & _ & _ & _ & Hsurvive)
  end.
  exists s1. split; [vm_compute; reflexivity|]. split; [exact E|].
  split; [exact Hb|].
  apply (Hsurvive [51] 2%nat).
  - right. exists 51, []. repeat split. constructor.
  - lia.
  - repeat constructor.
  - reflexivity.
  - vm_compute. discriminate.
Defined.


Lemma nesting_depth_counts_containers_witness :
  exists s,
    do_calls (collaborators := abort_on_error) 9
      [call.parse (codes "[[1,{")] new_parser = Returned tt s /\
    well_formed (state_ s) (state_stack_ s) = true /\
    nesting_depth_ s = Z.of_nat (length (containers (state_stack_ s))) /\
    (done s = true ->
     state_stack_ s = [parse_state.root] /\ nesting_depth_ s = 0).
Proof.
  eexists. split; [vm_compute; reflexivity |].
  apply (nesting_depth_counts_containers (collaborators := abort_on_error) 9
           [call.parse (codes "[[1,{")]);
    vm_compute; reflexivity.
Defined.

Lemma events_in_order_witness :
  exists s,
    do_calls (collaborators := abort_on_error) 9
      [call.parse (codes "[1}")] new_parser = Returned tt s /\
    ec s = Some json_parser_errc.expected_comma_or_right_bracket /\
    in_order (handler_ s).
Proof.
  eexists. split; [vm_compute; reflexivity |]. split; [reflexivity |].
  apply (events_in_order (collaborators := abort_on_error) 9
           [call.parse (codes "[1}")]).
  vm_compute. reflexivity.
Defined.

Lemma complete_when_done_witness :
  exists s,
    do_calls (collaborators := abort_on_error) 9
      [call.parse (codes "[1,"); call.parse (codes "2]"); call.end_parse]
      new_parser = Returned tt s /\
    done s = true /\ complete (handler_ s).
Proof.
  eexists. split; [vm_compute; reflexivity |]. split; [reflexivity |].
  apply (complete_when_done (collaborators := abort_on_error) 9
           [call.parse (codes "[1,"); call.parse (codes "2]");
            call.end_parse]);
    vm_compute; reflexivity.
Defined.

Lemma parse_terminates_witness :
  exists s',
    feed (collaborators := abort_on_error) 11 (codes "[1,2]") new_parser =
    Returned tt s'.
Proof.
  apply (parse_terminates (collaborators := abort_on_error)
           0 [] new_parser 11 (codes "[1,2]")).
  - split; [intros; reflexivity | reflexivity].
  - reflexivity.
  - reflexivity.
  - vm_compute. lia.
Defined.

Lemma control_character_at_start_hangs_witness :
  feed (collaborators := continue_on_error) 5 [1; ch_lbracket; ch_rbracket]
    new_parser = Out_of_fuel.
Proof.
  apply (control_character_at_start_hangs (collaborators := continue_on_error));
    reflexivity.
Defined.

Lemma parse_stops_witness :
  exists s',
    parse (collaborators := abort_on_error) 5
      (set_p_ (codes "12 ") new_parser) = Returned tt s' /\
    (source_exhausted s' = true \/ done s' = true).
Proof.
  eexists. split; [vm_compute; reflexivity |].
  apply (parse_stops (collaborators := abort_on_error) 5
           (set_p_ (codes "12 ") new_parser));
    vm_compute; reflexivity.
Defined.

Lemma try_string_to_uinteger_correct_witness :
  all_digits (codes "18446744073709551615") /\
  try_string_to_uinteger (codes "18446744073709551615") =
  Some 18446744073709551615.
Proof.
  split; [repeat constructor |].
  apply (proj1 (try_string_to_uinteger_correct
                  (codes "18446744073709551615"))).
  repeat constructor.
Defined.

Lemma try_string_to_integer_correct_witness :
  all_digits (codes "9223372036854775808") /\
  try_string_to_integer true (codes "9223372036854775808") =
  Some (-9223372036854775808) /\
  try_string_to_integer false (codes "9223372036854775808") = None.
Proof.
  split; [repeat constructor |].
  apply (try_string_to_integer_correct (codes "9223372036854775808")).
  repeat constructor.
Defined.

Lemma check_done_spec_witness :
  exists s',
    check_done (collaborators := abort_on_error)
      (set_p_ (codes " x") (set_state_ parse_state.done new_parser)) =
    Returned tt s' /\
    ec s' = Some json_parser_errc.extra_character /\
    p_ s' = codes "x" /\ column_ s' = 1.
Proof.
  destruct (check_done_spec (collaborators := abort_on_error)
              (set_p_ (codes " x") (set_state_ parse_state.done new_parser))
              eq_refl)
    as (s' & E & _ & _ & _ & Hcol & Hec & _ & Hp).
  exists s'. repeat split; assumption.
Defined.

Lemma unicode_escape_value_witness :
  events_of (collaborators := abort_on_error)
    (parse_document 3
       [ch_dquote; ch_backslash; ch_u; 48; 48; 101; 57; ch_dquote]
       new_parser) =
  Some [begin_json; string_value [233]; end_json].
Proof.
  apply (unicode_escape_value (collaborators := abort_on_error) 3 48 48 101 57);
    (reflexivity || lia).
Defined.

Lemma surrogate_pair_value_witness :
  events_of (collaborators := abort_on_error)
    (parse_document 2
       [ch_dquote; ch_backslash; ch_u; 68; 56; 51; 68;
        ch_backslash; ch_u; 68; 69; 48; 48; ch_dquote]
       new_parser) =
  Some [begin_json; string_value [128512]; end_json].
Proof.
  apply (surrogate_pair_value (collaborators := abort_on_error)
           2 68 56 51 68 68 69 48 48);
    (reflexivity || lia).
Defined.

Lemma line_break_counts_once_witness :
  parse_loop (collaborators := abort_on_error) 2
    (set_p_ [ch_cr; ch_lf; ch_rbracket]
       (set_state_ parse_state.expect_comma_or_end
          (set_state_stack_ [parse_state.array; parse_state.root]
             new_parser))) =
  parse_loop 0
    (set_p_ [ch_rbracket]
       (next_line
          (set_p_ [ch_cr; ch_lf; ch_rbracket]
             (set_state_ parse_state.expect_comma_or_end
                (set_state_stack_ [parse_state.array; parse_state.root]
                   new_parser))))).
Proof.
  apply (proj1 (line_break_counts_once (collaborators := abort_on_error) 0
                  (set_p_ [ch_cr; ch_lf; ch_rbracket]
                     (set_state_ parse_state.expect_comma_or_end
                        (set_state_stack_
                           [parse_state.array; parse_state.root]
                           new_parser)))
                  [ch_rbracket] eq_refl eq_refl)).
  reflexivity.
Defined.

Lemma number_chunks_join_witness :
  (feed (collaborators := abort_on_error) 1 (codes "2") ;;
   feed 1 (codes ".5"))
    (set_string_buffer_ (codes "1")
       (set_state_ parse_state.integer new_parser)) =
  (feed 1 (codes "2.5") ;; modify (set_begin_input_ (codes ".5")))
    (set_string_buffer_ (codes "1")
       (set_state_ parse_state.integer new_parser)).
Proof.
  apply (number_chunks_join (collaborators := abort_on_error) 1
           (codes "2") (codes ".5")
           (set_string_buffer_ (codes "1")
              (set_state_ parse_state.integer new_parser))
           (parse_state.integer, codes "12", 0)
           (parse_state.fraction2, codes "12.5", 3));
    (reflexivity || lia).
Defined.

Lemma fraction_literal_events_witness :
  events_of (collaborators := abort_on_error)
    (parse_document 2 (codes "12.50") new_parser) =
  Some [begin_json;
        double_value (collaborators := abort_on_error)
          (false, codes "12.50") 4;
        end_json] /\
  events_of (collaborators := abort_on_error)
    (parse_document 2 (codes "-12.50") new_parser) =
  Some [begin_json;
        double_value (collaborators := abort_on_error)
          (true, codes "12.50") 4;
        end_json].
Proof.
  apply (fraction_literal_events (collaborators := abort_on_error)
           (codes "12") (codes "50") 2
           ((false, codes "12.50") : double (Collaborators := abort_on_error))).
  - right. exists 49, (codes "2"). repeat split. repeat constructor.
  - repeat constructor.
  - discriminate.
  - lia.
  - reflexivity.
Defined.

Lemma keyword_chunks_join_witness :
  (feed (collaborators := abort_on_error) 5 (codes "tr") ;;
   feed 5 (codes "ue")) new_parser =
  (feed 5 (codes "true") ;; modify (set_begin_input_ (codes "ue")))
    new_parser.
Proof.
  apply (keyword_chunks_join (collaborators := abort_on_error) 5
           (codes "tr") (codes "ue") new_parser).
  - reflexivity.
  - left. reflexivity.
  - lia.
Defined.

Lemma plain_string_events_witness :
  events_of (collaborators := abort_on_error)
    (parse_document 2
       (ch_dquote :: (codes "ab" ++ codes "cd") ++ [ch_dquote])
       new_parser) =
  Some [begin_json; string_value (codes "abcd"); end_json] /\
  events_of (collaborators := abort_on_error)
    (parse_chunks 2 [ch_dquote :: codes "ab"; codes "cd" ++ [ch_dquote]]
       new_parser) =
  Some [begin_json; string_value (codes "abcd"); end_json].
Proof.
  destruct (plain_string_events (collaborators := abort_on_error) 2
              (codes "ab") (codes "cd")) as [H1 H2].
  - repeat constructor.
  - repeat constructor.
  - lia.
  - split; [apply H1 | apply H2]; reflexivity.
Defined.
